(** * WarPlan: a shallow embedding of [main.c] and its verified properties

    The development follows the layout of the C file: machine integers and
    constants, the dice engine ([UniformDiceRoll], [RollDice]), the combat
    resolver ([SingleAttack], [AttackTerritory], [SimAttack]), the outcome
    predictor ([PredictAttack]) and the allocation planner ([PlanWar]);
    then the command line ([ParseAttackVector], [main]) and the output
    ([PrintPrediction], [PrintSetup], [DiceToString], [SimWar]).

    - [unsigned int] values are integers in [0, UINT_MAX]; every arithmetic
      operation of the C code is followed by [uint], its reduction modulo
      [2^32].
    - [float] values are IEEE 754 binary32 numbers ([spec_float] with a
      24 bit mantissa), with the library's rounding to nearest even.
    - [rand()] is a sequence [rand : nat -> Z]: the value returned by the
      [n]-th call.  The state threaded through the simulation is the number
      of calls made so far.
    - [while] and [do ... while] loops whose number of iterations is not
      fixed in advance take a bound on their number of iterations (fuel);
      [None] stands for a run that did not finish within the bound, or whose
      behaviour C leaves undefined.
    - Arrays are lists, and a write outside an array is undefined
      behaviour: a plan holds [MAX_ATTACK_VECTORS] setups at most.
    - [size_t] and the pointers are 64 bits wide, as in the LP64 data model.
    - The allocator is a parameter, [granted]: [malloc] and [realloc] return
      a block of the size asked for when [granted] says so, and [NULL]
      otherwise, which makes [PlanWar] abort.  [strdup], which copies one
      argument of the command line, is taken to succeed, and the
      automatic arrays of [PlanWar] are taken to fit the stack.
    - A step that can end the program returns an [outcome]: a value, the
      text printed by [Abort] before [exit(EXIT_FAILURE)], or undefined
      behaviour.
    - The command line is a list of strings; [strtok], [atoi] and the [%u]
      conversion are functions on strings, and [atof] is a parameter.
    - What the program prints is the list of its calls of [printf], each
      with its format and its arguments.  The debug trace is left out of
      the simulation: [main] is the run with [DEBUG_WARPLAN] unset. *)

From Stdlib Require Import ZArith List Lia Bool Sorted Permutation String Ascii.
From Stdlib Require Import Floats.SpecFloat.
Import ListNotations.
Local Open Scope Z_scope.

(** ** Machine integers and constants *)

Definition UINT_MAX : Z := 4294967295.
Definition INT_MAX : Z := 2147483647.

(** Conversion to [unsigned int]: reduction modulo [UINT_MAX + 1]. *)
Definition uint (z : Z) : Z := z mod (UINT_MAX + 1).

(** Conversion of an [unsigned int] to [int]. *)
Definition to_int (z : Z) : Z := if z <=? INT_MAX then z else z - (UINT_MAX + 1).

(** The [MIN] macro of [sys/param.h]. *)
Definition MIN (a b : Z) : Z := if a <? b then a else b.

Definition MIN_TERRITORY_UNITS : Z := 1.
Definition MAX_DICE_COUNT : Z := 3.
Definition MAX_ATTACK_DICE_COUNT : Z := 3.
Definition MAX_DEFEND_DICE_COUNT : Z := 2.
Definition DICE_SIDES : Z := 6.
Definition MAX_TERRITORY_VECTOR_SIZE : Z := 128.
Definition MAX_ATTACK_VECTORS : Z := 16.
Definition MAX_DICE_RAND_VALUE : Z := (UINT_MAX / DICE_SIDES) * DICE_SIDES.

Definition PLANS_SIZE_INCREMENT : Z := 100000.

Definition is_uint (z : Z) : Prop := 0 <= z <= UINT_MAX.

(** [size_t]: an unsigned integer of 64 bits. *)
Definition SIZE_MAX : Z := 18446744073709551615.

(** Conversion to [size_t]: reduction modulo [SIZE_MAX + 1]. *)
Definition size_t (z : Z) : Z := z mod (SIZE_MAX + 1).

(** ** Data model *)

Record territory_def := { units : Z }.

(** [territory_vector] stands for the array together with
    [territory_count], which is its length. *)
Record attack_vector_def := {
  def_string : string;
  units_on_front : Z;
  territory_vector : list territory_def
}.

Definition territory_count (v : attack_vector_def) : Z :=
  Z.of_nat (List.length (territory_vector v)).

Record attack_result := {
  conquered_territory_count : Z;
  result_units_on_front : Z;
  enemy_units_on_front : Z
}.

(** An attack vector as the parser delivers it: unsigned counts, at least
    one territory, and no more territories than the array holds. *)
Definition vector_ok (v : attack_vector_def) : Prop :=
  is_uint (units_on_front v) /\
  territory_vector v <> [] /\
  territory_count v <= MAX_TERRITORY_VECTOR_SIZE /\
  Forall (fun t => is_uint (units t)) (territory_vector v).

(** ** The simulation monad: the position in the random stream, and failure *)

Definition M (A : Type) : Type := nat -> option (A * nat).

Definition ret {A} (a : A) : M A := fun pos => Some (a, pos).

Definition bind {A B} (m : M A) (k : A -> M B) : M B :=
  fun pos => match m pos with
             | Some (a, pos') => k a pos'
             | None => None
             end.

Definition fail {A} : M A := fun _ => None.

Notation "x <- m ;; k" := (bind m (fun x => k))
  (at level 61, m at next level, right associativity).
Notation "' p <- m ;; k" := (bind m (fun x => match x with p => k end))
  (at level 61, p pattern, m at next level, right associativity).

(** ** [qsort]

    The C library does not fix the algorithm; any algorithm returns a
    permutation of the array that is ordered by the comparison function.
    The model inserts the elements one by one. *)

Fixpoint qsort_insert {A} (cmp : A -> A -> Z) (x : A) (l : list A) : list A :=
  match l with
  | [] => [x]
  | y :: l' => if cmp x y <=? 0 then x :: l else y :: qsort_insert cmp x l'
  end.

Definition qsort {A} (cmp : A -> A -> Z) (l : list A) : list A :=
  fold_right (qsort_insert cmp) [] l.

(** [delta = (int)right_value - (int)left_value]: positive when the right
    die is larger, which orders the array downwards.  The values compared
    are dice, for which the difference is exact. *)
Definition CompareDice (left right : Z) : Z := to_int right - to_int left.

(** ** Floating point: binary32 *)

Definition float : Type := spec_float.
Definition float_prec : Z := 24.
Definition float_emax : Z := 128.

(** [(float)n] for an [unsigned int] [n]. *)
Definition float_of_uint (n : Z) : float :=
  binary_normalize float_prec float_emax n 0 false.

Definition fdiv (x y : float) : float := SFdiv float_prec float_emax x y.
Definition fadd (x y : float) : float := SFadd float_prec float_emax x y.
Definition fzero : float := S754_zero false.
Definition flt (x y : float) : bool := SFltb x y.
Definition fgt (x y : float) : bool := SFltb y x.
Definition fge (x y : float) : bool := SFleb y x.
Definition is_nan (x : float) : bool :=
  match x with S754_nan => true | _ => false end.

(** ** Output: the calls of [printf], in order *)

Inductive printf_arg :=
| arg_string (s : string)
| arg_uint (n : Z)
| arg_float (x : float).

Record printf_call := {
  printf_format : string;
  printf_args : list printf_arg
}.

Definition printf (format_string : string) (args : list printf_arg)
  : list printf_call :=
  [ {| printf_format := format_string; printf_args := args |} ].

(** The escapes [\n] and [\t] of the C string literals. *)
Definition nl : string := String "010" EmptyString.
Definition tab : string := String "009" EmptyString.

(** How a step that can end the program ends: with a value, with [Abort]
    (the text it has printed; the program exits with [EXIT_FAILURE]), or
    with a behaviour C leaves undefined. *)
Inductive outcome (A : Type) : Type :=
| Ok (a : A)
| Aborted (stdout : list printf_call)
| Undefined.
Arguments Ok {A} a.
Arguments Aborted {A} stdout.
Arguments Undefined {A}.

Definition Abort {A} (reason : string) : outcome A :=
  Aborted (printf ("Aborting: %s" ++ nl) [arg_string reason]).

(** ** Predictions, setups and plans *)

Record attack_prediction := {
  win_likelihood : float;
  estimated_remaining_units_if_win : float;
  estimated_remaining_enemies_if_loss : float;
  estimated_remaining_territories_if_loss : float;
  win_count : Z;
  loss_count : Z
}.

Record attack_setup := {
  prediction : attack_prediction;
  attack_vector : attack_vector_def;
  bonus : Z;
  score : float
}.

(** [setups] stands for the cells [setups[0 .. setup_count-1]] of the
    array, which has [MAX_ATTACK_VECTORS] cells: the search, which fills
    them, is undefined for a plan of more setups. *)
Record attack_plan := {
  total_score : float;
  setups : list attack_setup
}.

(** [sizeof(struct attack_plan)]: the score, padded to the alignment of a
    pointer, the [MAX_ATTACK_VECTORS] pointers and the count, of 8 bytes
    each. *)
Definition sizeof_attack_plan : Z := 8 + 8 * MAX_ATTACK_VECTORS + 8.

(** The five counters local to [PredictAttack]. *)
Record counters := {
  sum_win_count : Z;
  sum_total_units_on_front : Z;
  sum_loss_count : Z;
  sum_total_enemy_units_remaining : Z;
  sum_total_territories_remaining : Z
}.

Definition no_counts : counters :=
  {| sum_win_count := 0; sum_total_units_on_front := 0; sum_loss_count := 0;
     sum_total_enemy_units_remaining := 0; sum_total_territories_remaining := 0 |}.

(** The six assignments that end [PredictAttack]. *)
Definition prediction_of (c : counters) : attack_prediction :=
  {| win_likelihood :=
       fdiv (float_of_uint (sum_win_count c))
            (float_of_uint (uint (sum_win_count c + sum_loss_count c)));
     estimated_remaining_units_if_win :=
       fdiv (float_of_uint (sum_total_units_on_front c))
            (float_of_uint (sum_win_count c));
     estimated_remaining_enemies_if_loss :=
       fdiv (float_of_uint (sum_total_enemy_units_remaining c))
            (float_of_uint (sum_loss_count c));
     estimated_remaining_territories_if_loss :=
       fdiv (float_of_uint (sum_total_territories_remaining c))
            (float_of_uint (sum_loss_count c));
     win_count := sum_win_count c;
     loss_count := sum_loss_count c |}.

(** [if(win_likelihood >= likelihood_threshold) score = win_likelihood;
     else score = 0;] *)
Definition gate_score (win_likelihood likelihood_threshold : float) : float :=
  if fge win_likelihood likelihood_threshold then win_likelihood else fzero.

Definition ComparePlan (left_plan right_plan : attack_plan) : Z :=
  if fgt (total_score right_plan) (total_score left_plan) then 1
  else if flt (total_score right_plan) (total_score left_plan) then -1
  else 0.

(** ** Enumeration of the bonus combinations *)

Inductive combinations_state := combinations_exhausted | combinations_remain.

Definition InitCombinations (index_count : nat) : list Z := repeat 0 index_count.

(** The [do ... while(index < index_count)] loop of [NextCombination], from
    the cell [index] on; the list holds the cells [indices[index ..]].
    Running out of cells is the exit of the loop. *)
Fixpoint NextCombination (indices : list Z) (last_index : Z)
  : combinations_state * list Z :=
  match indices with
  | [] => (combinations_exhausted, [])
  | i :: rest =>
      let i' := uint (i + 1) in
      if i' <=? last_index then (combinations_remain, i' :: rest)
      else let (state, rest') := NextCombination rest last_index in
           (state, 0 :: rest')
  end.

(** What a read outside a row of the table yields in the model; the search
    only reads cells [setups[index][bonus]] with [bonus <= bonus_units]. *)
Definition unset_setup : attack_setup :=
  {| prediction := prediction_of no_counts;
     attack_vector := {| def_string := EmptyString; units_on_front := 0;
                         territory_vector := [] |};
     bonus := 0;
     score := fzero |}.

(** The inner loop of the search, [for(index = attack_vector_count;
    index-- > 0;)]: it runs from the last vector down to the first and
    returns [total_bonus] and the plan under the cursor.  [table] holds the
    rows [setups[index]].  [PlanWar_loop] runs it on [MAX_ATTACK_VECTORS]
    cells at most, the cells [cursor->setups] has. *)
Definition plan_of (table : list (list attack_setup)) (bonus_indices : list Z)
  : Z * attack_plan :=
  fold_right
    (fun (cell : list attack_setup * Z) (acc : Z * attack_plan) =>
       let setup := nth (Z.to_nat (snd cell)) (fst cell) unset_setup in
       (uint (fst acc + snd cell),
        {| total_score := fadd (total_score (snd acc)) (score setup);
           setups := setup :: setups (snd acc) |}))
    (0, {| total_score := fzero; setups := [] |})
    (combine table bonus_indices).

Section Search.

(** The allocator: [malloc(n)] and [realloc(p, n)] return a block of [n]
    bytes when [granted n] holds, and [NULL] otherwise.  The array of
    plans only grows, so that a run of [PlanWar] asks for each size once:
    [granted] stands for the answers of the allocator in that run. *)
Variable granted : Z -> bool.

Inductive allocation := alloc_null | alloc_short | alloc_array.

(** [malloc(plans_size*sizeof(struct attack_plan))] and [realloc(plans,
    plans_size*sizeof(struct attack_plan))].  The product is a [size_t]:
    when it wraps around, the block granted is shorter than an array of
    [plans_size] plans. *)
Definition plans_block (plans_size : Z) : allocation :=
  if granted (size_t (plans_size * sizeof_attack_plan)) then
    if plans_size * sizeof_attack_plan <=? SIZE_MAX then alloc_array
    else alloc_short
  else alloc_null.

(** The end of a pass that keeps the plan under the cursor: [plans_count++]
    and, when the array is full, its growth by [PLANS_SIZE_INCREMENT]
    plans.  [plans] are the plans [plans[0 .. plans_count-1]].  The plans
    and the new [plans_size] are returned; in a block that is too short,
    [cursor = &plans[plans_count]] points outside. *)
Definition store_plan (plan : attack_plan) (plans : list attack_plan)
           (plans_size : Z) : outcome (list attack_plan * Z) :=
  let plans' := plans ++ [plan] in
  let plans_count := size_t (Z.of_nat (List.length plans')) in
  if plans_count >=? plans_size then
    let plans_size' := size_t (plans_size + PLANS_SIZE_INCREMENT) in
    match plans_block plans_size' with
    | alloc_null => Abort "Error reallocing space for attack plans"
    | alloc_short => Undefined
    | alloc_array => Ok (plans', plans_size')
    end
  else Ok (plans', plans_size).

(** The [do ... while(NextCombination(...) == combinations_remain)] loop of
    [PlanWar]; [plans] are the plans kept so far, in the order in which they
    were stored, and [plans_size] is the size of the array.  With more than
    [MAX_ATTACK_VECTORS] cells in a combination, [cursor->setups[index]] is
    written outside the plan. *)
Fixpoint PlanWar_loop (steps : nat) (table : list (list attack_setup))
         (bonus_units : Z) (bonus_indices : list Z) (plans : list attack_plan)
         (plans_size : Z) : outcome (list attack_plan) :=
  match steps with
  | O => Undefined
  | S steps' =>
      if MAX_ATTACK_VECTORS <? Z.of_nat (List.length bonus_indices) then Undefined
      else
        let (total_bonus, plan) := plan_of table bonus_indices in
        match (if total_bonus =? bonus_units
               then store_plan plan plans plans_size
               else Ok (plans, plans_size)) with
        | Ok (plans', plans_size') =>
            match NextCombination bonus_indices bonus_units with
            | (combinations_remain, next) =>
                PlanWar_loop steps' table bonus_units next plans' plans_size'
            | (combinations_exhausted, _) => Ok plans'
            end
        | Aborted stdout => Aborted stdout
        | Undefined => Undefined
        end
  end.

End Search.

Section Simulation.

(** The values returned by the successive calls of [rand()]. *)
Variable rand : nat -> Z.

Definition rand_call : M Z := fun pos => Some (rand pos, S pos).

(** ** Dice engine *)

(** [do rand_value = rand(); while(rand_value >= MAX_DICE_RAND_VALUE);] *)
Fixpoint UniformDiceRoll (fuel : nat) : M Z :=
  match fuel with
  | O => fail
  | S fuel' =>
      r <- rand_call ;;
      let rand_value := uint r in
      if rand_value >=? MAX_DICE_RAND_VALUE then UniformDiceRoll fuel'
      else ret (uint (rand_value mod DICE_SIDES + 1))
  end.

(** [for(index = count; index-- > 0;) dice[index] = UniformDiceRoll();]
    the first value drawn lands in the last cell. *)
Fixpoint fill_dice (fuel : nat) (count : nat) : M (list Z) :=
  match count with
  | O => ret []
  | S index =>
      d <- UniformDiceRoll fuel ;;
      lower <- fill_dice fuel index ;;
      ret (lower ++ [d])
  end.

Definition RollDice (fuel : nat) (count : Z) : M (list Z) :=
  dice <- fill_dice fuel (Z.to_nat count) ;;
  ret (qsort CompareDice dice).

(** ** Combat resolver *)

(** The comparison loop of [SingleAttack], from [index] on, for
    [remaining] positions. *)
Fixpoint count_losses (attack_dice defend_dice : list Z) (index remaining : nat)
         (lost_attack_units lost_defend_units : Z) : Z * Z :=
  match remaining with
  | O => (lost_attack_units, lost_defend_units)
  | S remaining' =>
      if nth index attack_dice 0 >? nth index defend_dice 0
      then count_losses attack_dice defend_dice (S index) remaining'
             lost_attack_units (uint (lost_defend_units + 1))
      else count_losses attack_dice defend_dice (S index) remaining'
             (uint (lost_attack_units + 1)) lost_defend_units
  end.

Definition attack_dice_count (units_on_front : Z) : Z :=
  MIN (uint (units_on_front - MIN_TERRITORY_UNITS)) MAX_ATTACK_DICE_COUNT.

Definition defend_dice_count (territory_units : Z) : Z :=
  MIN territory_units MAX_DEFEND_DICE_COUNT.

Definition compare_dice_count (units_on_front territory_units : Z) : Z :=
  MIN (attack_dice_count units_on_front) (defend_dice_count territory_units).

(** Returns [(remaining_units_on_front, remaining_territory_units)]. *)
Definition SingleAttack (fuel : nat) (units_on_front territory_units : Z)
  : M (Z * Z) :=
  attack_dice <- RollDice fuel (attack_dice_count units_on_front) ;;
  defend_dice <- RollDice fuel (defend_dice_count territory_units) ;;
  let '(lost_attack_units, lost_defend_units) :=
    count_losses attack_dice defend_dice 0
      (Z.to_nat (compare_dice_count units_on_front territory_units)) 0 0 in
  ret (uint (units_on_front - lost_attack_units),
       uint (territory_units - lost_defend_units)).

(** [while(front_units > MIN_TERRITORY_UNITS && territory_units > 0)];
    [rounds] bounds the number of rounds fought. *)
Fixpoint AttackTerritory_loop (fuel rounds : nat) (front_units territory_units : Z)
         {struct rounds} : M (Z * Z) :=
  if (front_units >? MIN_TERRITORY_UNITS) && (territory_units >? 0) then
    match rounds with
    | O => fail
    | S rounds' =>
        ' (f, t) <- SingleAttack fuel front_units territory_units ;;
        AttackTerritory_loop fuel rounds' f t
    end
  else ret (front_units, territory_units).

Definition AttackTerritory (fuel : nat) (units_on_front : Z)
           (territory : territory_def) : M (Z * Z) :=
  AttackTerritory_loop fuel fuel units_on_front (units territory).

(** The loop of [SimAttack] from [territory_cursor] on; [conquered] is
    [territory_cursor - territory_vector].  With no territory at all the
    C code reads [remaining_territory_units] uninitialised. *)
Fixpoint SimAttack_loop (fuel : nat) (territory_cursor : list territory_def)
         (units_on_front conquered : Z) : M attack_result :=
  match territory_cursor with
  | [] => fail
  | territory :: rest =>
      ' (remaining_units_on_front, remaining_territory_units) <-
        AttackTerritory fuel units_on_front territory ;;
      if remaining_territory_units =? 0 then
        let units_on_front := uint (remaining_units_on_front - MIN_TERRITORY_UNITS) in
        match rest with
        | [] => ret {| conquered_territory_count := conquered + 1;
                       result_units_on_front := units_on_front;
                       enemy_units_on_front := remaining_territory_units |}
        | _ :: _ => SimAttack_loop fuel rest units_on_front (conquered + 1)
        end
      else
        ret {| conquered_territory_count := conquered;
               result_units_on_front := remaining_units_on_front;
               enemy_units_on_front := remaining_territory_units |}
  end.

Definition SimAttack (fuel : nat) (attack_vector : attack_vector_def)
           (bonus_units : Z) : M attack_result :=
  SimAttack_loop fuel (territory_vector attack_vector)
    (uint (units_on_front attack_vector + bonus_units)) 0.

(** ** Outcome predictor *)

(** [for(index = conquered_territory_count+1; index < territory_count; index++)
      enemy_units_remaining += territories[index].units;]
    over the cells the loop visits. *)
Fixpoint add_territory_units (territories : list territory_def)
         (enemy_units_remaining : Z) : Z :=
  match territories with
  | [] => enemy_units_remaining
  | t :: rest => add_territory_units rest (uint (enemy_units_remaining + units t))
  end.

Definition enemy_units_remaining (attack_vector : attack_vector_def)
           (result : attack_result) : Z :=
  add_territory_units
    (skipn (Z.to_nat (uint (conquered_territory_count result + 1)))
           (territory_vector attack_vector))
    (enemy_units_on_front result).

(** One pass through the body of the simulation loop of [PredictAttack],
    after [SimAttack] has returned [result]. *)
Definition tally_run (attack_vector : attack_vector_def) (result : attack_result)
           (c : counters) : counters :=
  if enemy_units_on_front result =? 0 then
    {| sum_win_count := uint (sum_win_count c + 1);
       sum_total_units_on_front :=
         uint (sum_total_units_on_front c + result_units_on_front result);
       sum_loss_count := sum_loss_count c;
       sum_total_enemy_units_remaining := sum_total_enemy_units_remaining c;
       sum_total_territories_remaining := sum_total_territories_remaining c |}
  else
    {| sum_win_count := sum_win_count c;
       sum_total_units_on_front := sum_total_units_on_front c;
       sum_loss_count := uint (sum_loss_count c + 1);
       sum_total_enemy_units_remaining :=
         uint (sum_total_enemy_units_remaining c
               + enemy_units_remaining attack_vector result);
       sum_total_territories_remaining :=
         uint (sum_total_territories_remaining c
               + uint (territory_count attack_vector
                       - conquered_territory_count result)) |}.

(** [for(size_t remaining = sim_iterations; remaining-- > 0;)] *)
Fixpoint PredictAttack_loop (fuel : nat) (attack_vector : attack_vector_def)
         (bonus_units : Z) (remaining : nat) (c : counters) : M counters :=
  match remaining with
  | O => ret c
  | S remaining' =>
      result <- SimAttack fuel attack_vector bonus_units ;;
      PredictAttack_loop fuel attack_vector bonus_units remaining'
        (tally_run attack_vector result c)
  end.

Definition PredictAttack_counters (fuel : nat) (attack_vector : attack_vector_def)
           (bonus_units sim_iterations : Z) : M counters :=
  PredictAttack_loop fuel attack_vector bonus_units (Z.to_nat sim_iterations)
    no_counts.

Definition PredictAttack (fuel : nat) (attack_vector : attack_vector_def)
           (bonus_units sim_iterations : Z) : M attack_prediction :=
  c <- PredictAttack_counters fuel attack_vector bonus_units sim_iterations ;;
  ret (prediction_of c).

(** ** Allocation planner *)

(** The body of the precomputation loop of [PlanWar] for one cell
    [setups[index][bonus]]. *)
Definition make_setup (fuel : nat) (attack_vector : attack_vector_def)
           (bonus : Z) (likelihood_threshold : float) (sim_iterations : Z)
  : M attack_setup :=
  p <- PredictAttack fuel attack_vector bonus sim_iterations ;;
  ret {| prediction := p;
         attack_vector := attack_vector;
         bonus := bonus;
         score := gate_score (win_likelihood p) likelihood_threshold |}.

(** [for(unsigned int bonus = 0; bonus <= bonus_units; bonus++)], from
    [bonus] on: the row [setups[index]]. *)
Fixpoint setups_row (fuel steps : nat) (attack_vector : attack_vector_def)
         (bonus_units : Z) (likelihood_threshold : float) (sim_iterations : Z)
         (bonus : Z) {struct steps} : M (list attack_setup) :=
  if bonus <=? bonus_units then
    match steps with
    | O => fail
    | S steps' =>
        setup <- make_setup fuel attack_vector bonus likelihood_threshold
                   sim_iterations ;;
        rest <- setups_row fuel steps' attack_vector bonus_units
                  likelihood_threshold sim_iterations (uint (bonus + 1)) ;;
        ret (setup :: rest)
    end
  else ret [].

(** [for(size_t index = 0; index < attack_vector_count; index++)] *)
Fixpoint setups_table (fuel : nat) (attack_vectors : list attack_vector_def)
         (bonus_units : Z) (likelihood_threshold : float) (sim_iterations : Z)
  : M (list (list attack_setup)) :=
  match attack_vectors with
  | [] => ret []
  | attack_vector :: rest =>
      row <- setups_row fuel fuel attack_vector bonus_units
               likelihood_threshold sim_iterations 0 ;;
      rows <- setups_table fuel rest bonus_units likelihood_threshold
                sim_iterations ;;
      ret (row :: rows)
  end.

(** The allocator of [Section Search]. *)
Variable granted : Z -> bool.

(** The plans [plans[0 .. plans_count-1]] as they stand before [qsort], or
    the text of [Abort] when the allocator returns [NULL].  Without any
    attack vector, or with a pool of [UINT_MAX], for which [bonus_units+1]
    is 0, the arrays [setups] and [bonus_indices] have no cell, which C
    leaves undefined.  The first block is asked for before the table is
    filled. *)
Definition PlanWar_plans (fuel : nat) (attack_vectors : list attack_vector_def)
           (bonus_units : Z) (likelihood_threshold : float) (sim_iterations : Z)
  : M (outcome (list attack_plan)) :=
  match attack_vectors with
  | [] => fail
  | _ :: _ =>
      if uint (bonus_units + 1) =? 0 then fail
      else
        match plans_block granted PLANS_SIZE_INCREMENT with
        | alloc_null => ret (Abort "Memory alloc for plans failed")
        | alloc_short => fail
        | alloc_array =>
            setups <- setups_table fuel attack_vectors bonus_units
                        likelihood_threshold sim_iterations ;;
            match PlanWar_loop granted fuel setups bonus_units
                    (InitCombinations (List.length attack_vectors)) []
                    PLANS_SIZE_INCREMENT with
            | Ok plans => ret (Ok plans)
            | Aborted stdout => ret (Aborted stdout)
            | Undefined => fail
            end
        end
  end.

(** The plan whose setups [PlanWar] prints: [plans[0]] after [qsort].  The
    search does not end without a plan in the array: it keeps the one that
    gives the whole pool to the first vector. *)
Definition PlanWar (fuel : nat) (attack_vectors : list attack_vector_def)
           (bonus_units : Z) (likelihood_threshold : float) (sim_iterations : Z)
  : M (outcome attack_plan) :=
  plans <- PlanWar_plans fuel attack_vectors bonus_units likelihood_threshold
             sim_iterations ;;
  match plans with
  | Ok plans =>
      match qsort ComparePlan plans with
      | best :: _ => ret (Ok best)
      | [] => fail
      end
  | Aborted stdout => ret (Aborted stdout)
  | Undefined => fail
  end.

End Simulation.

(** * Command line and output *)

(** ** C strings

    A C string is a [string] without the NUL character.  [strtok], [atoi]
    and the [%u] conversion of [printf] are modelled as the C standard
    describes them, in the "C" locale. *)

(** [isspace]: space, and the control characters from tab to carriage
    return. *)
Definition isspace (c : ascii) : bool :=
  let n := Z.of_nat (nat_of_ascii c) in
  (n =? 32) || ((9 <=? n) && (n <=? 13)).

(** The value of a decimal digit. *)
Definition digit_value (c : ascii) : option Z :=
  let n := Z.of_nat (nat_of_ascii c) in
  if (48 <=? n) && (n <=? 57) then Some (n - 48) else None.

Fixpoint skip_spaces (s : string) : string :=
  match s with
  | String c s' => if isspace c then skip_spaces s' else s
  | EmptyString => EmptyString
  end.

(** The digits at the head of [s], read from the left; the conversion stops
    at the first character that is not a digit. *)
Fixpoint digits_value (s : string) (acc : Z) : Z :=
  match s with
  | String c s' =>
      match digit_value c with
      | Some d => digits_value s' (10 * acc + d)
      | None => acc
      end
  | EmptyString => acc
  end.

(** The number [strtol(s, NULL, 10)] reads, before any clamping: white
    space, an optional sign, digits.  Without a digit the value is 0. *)
Definition strtol_value (s : string) : Z :=
  match skip_spaces s with
  | String c s' =>
      if Ascii.eqb c "-" then - digits_value s' 0
      else if Ascii.eqb c "+" then digits_value s' 0
      else digits_value (String c s') 0
  | EmptyString => 0
  end.

Definition INT_MIN : Z := - INT_MAX - 1.

(** [atoi]: the behaviour is undefined when the value is not an [int]. *)
Definition atoi (s : string) : option Z :=
  let value := strtol_value s in
  if (INT_MIN <=? value) && (value <=? INT_MAX) then Some value else None.

(** [strtok] skips the delimiters at the front of the text; both calls of
    the program pass a single delimiter. *)
Fixpoint skip_delims (delim : ascii) (s : string) : string :=
  match s with
  | String c s' => if Ascii.eqb c delim then skip_delims delim s' else s
  | EmptyString => EmptyString
  end.

(** The token at the front of [s], and the text after the delimiter that
    ends it, from which the next call of [strtok] goes on. *)
Fixpoint take_token (delim : ascii) (s : string) : string * string :=
  match s with
  | String c s' =>
      if Ascii.eqb c delim then (EmptyString, s')
      else let (token, saved) := take_token delim s' in (String c token, saved)
  | EmptyString => (EmptyString, EmptyString)
  end.

(** One call of [strtok] on the text [s] that is left to scan: [None] is
    the [NULL] it returns when only delimiters are left. *)
Definition strtok (s : string) (delim : ascii) : option (string * string) :=
  match skip_delims delim s with
  | EmptyString => None
  | String c s' => Some (take_token delim (String c s'))
  end.

(** The character of a decimal digit. *)
Definition digit_char (d : Z) : ascii := ascii_of_nat (Z.to_nat (48 + d)).

(** The digits of [n], the last one first, put in front of [text]. *)
Fixpoint utoa_digits (digits : nat) (n : Z) (text : string) : string :=
  match digits with
  | O => text
  | S digits' =>
      let text' := String (digit_char (n mod 10)) text in
      if n / 10 =? 0 then text' else utoa_digits digits' (n / 10) text'
  end.

(** What the conversion [%u] prints for an [unsigned int], which has at
    most 10 decimal digits. *)
Definition utoa (n : Z) : string := utoa_digits 10 n EmptyString.

Definition enable_debugging : Z := 1.

(** [Debug] prints only when the flag is set in [run_flags]. *)
Definition Debug (run_flags : Z) (format_string : string) (args : list printf_arg)
  : list printf_call :=
  if Z.land run_flags enable_debugging =? 0 then [] else printf format_string args.

(** ** [ParseAttackVector] *)

Definition malformed : string := "Malformed attack vector string, see usage".

(** [while((param = strtok(NULL, ",")) != NULL)]: [saved] is the text
    [strtok] has yet to scan and [territory_vector] the cells written so
    far.  A cell beyond [MAX_TERRITORY_VECTOR_SIZE] lies outside the array.
    Every pass shortens [saved], so that a number of [steps] equal to its
    length is never used up. *)
Fixpoint parse_territories (steps : nat) (saved : string)
         (territory_vector : list territory_def)
  : outcome (list territory_def) :=
  match strtok saved "," with
  | None => Ok territory_vector
  | Some (param, saved') =>
      match steps with
      | O => Undefined
      | S steps' =>
          if MAX_TERRITORY_VECTOR_SIZE <=? Z.of_nat (List.length territory_vector)
          then Undefined
          else
            match atoi param with
            | None => Undefined
            | Some n =>
                parse_territories steps' saved'
                  (territory_vector ++ [ {| units := uint n |} ])
            end
      end
  end.

(** The parse of the copy [strdup] has made of [def_string]; [strdup] is
    taken to succeed, so that its [Abort] is not among the outcomes. *)
Definition ParseAttackVector (def_string : string) : outcome attack_vector_def :=
  match strtok def_string ":" with
  | None => Abort malformed
  | Some (param, saved) =>
      match atoi param with
      | None => Undefined
      | Some front =>
          match parse_territories (String.length saved) saved [] with
          | Ok [] => Abort malformed
          | Ok (first :: others) =>
              Ok {| def_string := def_string;
                    units_on_front := uint front;
                    territory_vector := first :: others |}
          | Aborted stdout => Aborted stdout
          | Undefined => Undefined
          end
      end
  end.

(** ** Printing *)

Definition PrintPrediction (vector_def_string : string)
           (prediction : attack_prediction) : list printf_call :=
  printf ("Attack vector '%s' prediction" ++ nl
          ++ tab ++ "Win count: %u Loss count: %u" ++ nl)
         [arg_string vector_def_string;
          arg_uint (win_count prediction);
          arg_uint (loss_count prediction)]
  ++ (if win_count prediction >? 0 then
        printf (tab ++ "Win likelihood: %.2f with %.2f units remaning" ++ nl)
               [arg_float (win_likelihood prediction);
                arg_float (estimated_remaining_units_if_win prediction)]
      else
        printf (tab ++ "Win likelihood: 0 this is a debo move" ++ nl) [])
  ++ (if loss_count prediction >? 0 then
        printf (tab ++ tab
                ++ "If loss, %.2f remaining territories with %.2f enemies total"
                ++ nl)
               [arg_float (estimated_remaining_enemies_if_loss prediction);
                arg_float (estimated_remaining_territories_if_loss prediction)]
      else []).

Definition PrintSetup (setup : attack_setup) : list printf_call :=
  let def_string := def_string (attack_vector setup) in
  printf ("%u bonus armies to attack vector '%s'" ++ nl)
         [arg_uint (bonus setup); arg_string def_string]
  ++ PrintPrediction def_string (prediction setup).

(** The end of [PlanWar]: the printing of [plans[0]], a plan of
    [MAX_ATTACK_VECTORS] setups at most. *)
Definition PlanWar_print (best : attack_plan) : list printf_call :=
  printf ("Highest scoring setup is below" ++ nl) []
  ++ flat_map PrintSetup (setups best).

(** [sprintf(cursor, "%u, ", dice[index])] for the first [remaining] dice
    from [index] on; [dice] holds the cells of the array that have been
    written, and reading another one is undefined. *)
Fixpoint DiceToString_loop (dice : list Z) (index remaining : nat)
         (written : string) : option string :=
  match remaining with
  | O => Some written
  | S remaining' =>
      match nth_error dice index with
      | None => None
      | Some d =>
          DiceToString_loop dice (S index) remaining' (written ++ utoa d ++ ", ")
      end
  end.

Definition MAX_DICE_STRING_SIZE : Z := 512.

(** The text has to fit, with its final NUL, the [MAX_DICE_STRING_SIZE]
    bytes of the caller's buffer. *)
Definition DiceToString (dice : list Z) (count : Z) : option string :=
  let comma_sep_count := uint (count - 1) in
  match DiceToString_loop dice 0 (Z.to_nat comma_sep_count) EmptyString with
  | None => None
  | Some written =>
      match nth_error dice (Z.to_nat comma_sep_count) with
      | None => None
      | Some d =>
          let text := (written ++ utoa d)%string in
          if Z.of_nat (String.length text) <? MAX_DICE_STRING_SIZE
          then Some text else None
      end
  end.

(** ** [SimWar] and [main] *)

Definition program_arg_sim_iterations : nat := 1.
Definition program_arg_bonus_units : nat := 2.
Definition program_arg_likelihood_threshold : nat := 3.
Definition program_arg_attack_vector : nat := 4.

Inductive exit_status := EXIT_SUCCESS | EXIT_FAILURE.

Definition usage : string :=
  ("Usage: warplan [simulation iterations] [bonus units] [win threshold] [attack vectors]"
   ++ nl ++ nl
   ++ "Attack vectors are formatted as: "
   ++ "[units on front]:[enemy territory 1 units],[enemy territory n units]" ++ nl
   ++ nl
   ++ "Examples:" ++ nl ++ nl
   ++ tab ++ "Just simulate a single attack vector, no planning:" ++ nl
   ++ tab ++ tab ++ "warplan 1000 0 0 7:3,3,1" ++ nl
   ++ nl
   ++ tab ++ "Simulate multiple attack vectors, no planning:" ++ nl
   ++ tab ++ tab ++ "warplan 1000 0 0 7:1,1,2 4:5,1" ++ nl
   ++ nl
   ++ tab ++ "Given 10 bonus armies, plan an attack across multiple vectors requiring a win likelihood of 0.8:" ++ nl
   ++ tab ++ tab ++ "warplan 1000 10 0.8 3:2,2 4:1,1,1,1 2:2,1,2" ++ nl)%string.

(** The loop of [main] over the arguments that hold attack vectors: [args]
    are the arguments left and [attack_vectors] the cells filled so far.
    [main] does not compare their number with [MAX_ATTACK_VECTORS]: past
    the array, [ParseAttackVector] still aborts when [strtok] finds no
    token, and writes outside the array otherwise. *)
Fixpoint parse_vectors (args : list string) (attack_vectors : list attack_vector_def)
  : outcome (list attack_vector_def) :=
  match args with
  | [] => Ok attack_vectors
  | arg :: rest =>
      if MAX_ATTACK_VECTORS <=? Z.of_nat (List.length attack_vectors) then
        match strtok arg ":" with
        | None => Abort malformed
        | Some _ => Undefined
        end
      else
        match ParseAttackVector arg with
        | Ok attack_vector => parse_vectors rest (attack_vectors ++ [attack_vector])
        | Aborted stdout => Aborted stdout
        | Undefined => Undefined
        end
  end.

Section Program.

Variable rand : nat -> Z.

(** [(float)atof(s)], [None] where C leaves the conversion undefined. *)
Variable atof : string -> option float.

(** The allocator of [PlanWar]. *)
Variable granted : Z -> bool.

(** [for(size_t index = 0; index < count; index++)] *)
Fixpoint SimWar (fuel : nat) (attack_vectors : list attack_vector_def)
         (bonus_units sim_iterations : Z) : M (list printf_call) :=
  match attack_vectors with
  | [] => ret []
  | attack_vector :: rest =>
      prediction <- PredictAttack rand fuel attack_vector bonus_units
                      sim_iterations ;;
      stdout <- SimWar fuel rest bonus_units sim_iterations ;;
      ret (printf nl []
           ++ PrintPrediction (def_string attack_vector) prediction
           ++ stdout)
  end.

(** [main] with [DEBUG_WARPLAN] unset, so that [Debug] prints nothing:
    the exit status and what has been printed.  [args] is [args[0 ..
    arg_count-1]], the name of the binary included.  When [PlanWar]
    aborts, the program exits with [EXIT_FAILURE] after the text of
    [Abort]. *)
Definition main (fuel : nat) (args : list string)
  : M (exit_status * list printf_call) :=
  if (List.length args <=? program_arg_attack_vector)%nat
  then ret (EXIT_FAILURE, printf usage [])
  else
    match atoi (nth program_arg_sim_iterations args EmptyString),
          atoi (nth program_arg_bonus_units args EmptyString),
          atof (nth program_arg_likelihood_threshold args EmptyString) with
    | Some iterations, Some bonus, Some likelihood_threshold =>
        let sim_iterations := uint iterations in
        let bonus_units := uint bonus in
        match parse_vectors (skipn program_arg_attack_vector args) [] with
        | Undefined => fail
        | Aborted stdout => ret (EXIT_FAILURE, stdout)
        | Ok attack_vectors =>
            if bonus_units =? 0 then
              stdout <- SimWar fuel attack_vectors bonus_units sim_iterations ;;
              ret (EXIT_SUCCESS,
                   printf ("Simulating simple war and printing predictions"
                           ++ nl ++ nl) []
                   ++ stdout)
            else
              plan <- PlanWar rand granted fuel attack_vectors bonus_units
                        likelihood_threshold sim_iterations ;;
              match plan with
              | Ok best =>
                  ret (EXIT_SUCCESS,
                       printf ("Attempting to plan war for specified vectors"
                               ++ nl ++ nl) []
                       ++ PlanWar_print best)
              | Aborted stdout =>
                  ret (EXIT_FAILURE,
                       printf ("Attempting to plan war for specified vectors"
                               ++ nl ++ nl) []
                       ++ stdout)
              | Undefined => fail
              end
        end
    | _, _, _ => fail
    end.

End Program.

(** * Vocabulary of the statements *)

(** A float that is not NaN and carries the sign [s]. *)
Definition has_sign (s : bool) (x : float) : Prop :=
  match x with
  | S754_nan => False
  | S754_zero s' | S754_infinity s' | S754_finite s' _ _ => s' = s
  end.

Definition is_die (d : Z) : Prop := 1 <= d <= 6.

(** Dice are ordered downwards. *)
Definition descending (l : list Z) : Prop := StronglySorted (fun a b => a >= b) l.

(** Whether the attacker's die beats the defender's at a position. *)
Definition attacker_wins (attack_dice defend_dice : list Z) (index : nat) : bool :=
  nth index attack_dice 0 >? nth index defend_dice 0.

Definition defender_losses (attack_dice defend_dice : list Z) (compared : nat) : Z :=
  Z.of_nat (List.length (filter (attacker_wins attack_dice defend_dice) (seq 0 compared))).

Definition attacker_losses (attack_dice defend_dice : list Z) (compared : nat) : Z :=
  Z.of_nat (List.length (filter (fun i => negb (attacker_wins attack_dice defend_dice i))
                                (seq 0 compared))).

(** The units on the front that the loop of [SimAttack] hands to
    [AttackTerritory], territory after territory, in a run that starts at
    [pos] in the random stream. *)
Fixpoint fronts_carried (rand : nat -> Z) (fuel : nat)
         (territory_cursor : list territory_def) (units_on_front : Z) (pos : nat)
  : list Z :=
  match territory_cursor with
  | [] => []
  | territory :: rest =>
      units_on_front ::
      match AttackTerritory rand fuel units_on_front territory pos with
      | Some ((remaining_units_on_front, remaining_territory_units), pos') =>
          if remaining_territory_units =? 0
          then fronts_carried rand fuel rest
                 (uint (remaining_units_on_front - MIN_TERRITORY_UNITS)) pos'
          else []
      | None => []
      end
  end.

(** The defenders of a list of territories, as a mathematical sum. *)
Definition total_units (territories : list territory_def) : Z :=
  fold_right (fun t acc => units t + acc) 0 territories.

(** A bound on the number of iterations that suffices for every loop of the
    simulation: a territory assault fights fewer rounds than there are units
    on the two sides. *)
Definition enough_fuel (fuel : nat) : Prop := 2 * (UINT_MAX + 1) <= Z.of_nat fuel.

(** What the loop of [PredictAttack] maintains after [k] runs: the two
    counts add up to [k], and a sum is still 0 while its count is 0. *)
Definition counters_ok (k : Z) (c : counters) : Prop :=
  0 <= sum_win_count c /\ 0 <= sum_loss_count c
  /\ sum_win_count c + sum_loss_count c = k
  /\ is_uint (sum_total_units_on_front c)
  /\ is_uint (sum_total_enemy_units_remaining c)
  /\ is_uint (sum_total_territories_remaining c)
  /\ (sum_win_count c = 0 -> sum_total_units_on_front c = 0)
  /\ (sum_loss_count c = 0 ->
      sum_total_enemy_units_remaining c = 0
      /\ sum_total_territories_remaining c = 0).


(** *** The raw values behind a die *)

(** The raw values the loop of [UniformDiceRoll] lets through. *)
Definition accepted (rand_value : Z) : bool :=
  negb (rand_value >=? MAX_DICE_RAND_VALUE).

(** The face [UniformDiceRoll] makes of an accepted raw value. *)
Definition face_of (rand_value : Z) : Z := rand_value mod DICE_SIDES + 1.

(** How many raw values between 0 and [rand_max] are accepted and give
    [face]. *)
Definition raw_values_for (rand_max face : Z) : Z :=
  Z.of_nat (List.length
              (filter (fun r => accepted r && (face_of r =? face))
                      (map Z.of_nat (seq 0 (Z.to_nat (rand_max + 1)))))).

(** *** The search of the planner *)

(** The bonus amounts a plan assigns, vector by vector. *)
Definition plan_bonuses (p : attack_plan) : list Z := map bonus (setups p).

(** The sum of a tuple of bonus amounts, as a mathematical sum. *)
Definition total_bonus (t : list Z) : Z := fold_right Z.add 0 t.

(** A tuple of the search space: one amount per vector, each at most the
    pool. *)
Definition bonus_tuple (count : nat) (bonus_units : Z) (t : list Z) : Prop :=
  List.length t = count /\ Forall (fun b => 0 <= b <= bonus_units) t.

(** The combination that follows [indices], if one remains. *)
Definition next_of (last_index : Z) (indices : list Z) : option (list Z) :=
  match NextCombination indices last_index with
  | (combinations_remain, next) => Some next
  | (combinations_exhausted, _) => None
  end.

(** The combinations that share the cells [rest] after the first one. *)
Definition digit_block (last_index : nat) (rest : list Z) : list (list Z) :=
  map (fun i => Z.of_nat i :: rest) (seq 0 (S last_index)).

(** Every combination of [index_count] cells, the first cell running
    fastest. *)
Fixpoint all_combinations (index_count last_index : nat) : list (list Z) :=
  match index_count with
  | O => [[]]
  | S n => flat_map (digit_block last_index) (all_combinations n last_index)
  end.

(** [first :: others] are the combinations [NextCombination] steps through
    from [first] until it reports exhaustion. *)
Fixpoint chain (last_index : Z) (first : list Z) (others : list (list Z)) : Prop :=
  match others with
  | [] => next_of last_index first = None
  | second :: others' =>
      next_of last_index first = Some second /\ chain last_index second others'
  end.

(** The plans the search keeps out of a list of combinations. *)
Definition keep_plans (table : list (list attack_setup)) (bonus_units : Z)
           (combos : list (list Z)) : list attack_plan :=
  flat_map (fun indices =>
              if fst (plan_of table indices) =? bonus_units
              then [snd (plan_of table indices)] else [])
           combos.

(** The cells [setups[index][bonus_indices[index]]] the search reads for a
    combination. *)
Definition chosen_setups (table : list (list attack_setup)) (t : list Z)
  : list attack_setup :=
  map (fun cell : list attack_setup * Z =>
         nth (Z.to_nat (snd cell)) (fst cell) unset_setup)
      (combine table t).

(** The score the search computes for a tuple of bonus amounts. *)
Definition plan_score (table : list (list attack_setup)) (t : list Z) : float :=
  total_score (snd (plan_of table t)).

(** A cell of the table: the setup [make_setup] computes for a vector and
    a bonus amount at some point of the random stream. *)
Definition setup_ok (rand : nat -> Z) (fuel : nat) (likelihood_threshold : float)
           (sim_iterations : Z) (av : attack_vector_def) (b : Z)
           (s : attack_setup) : Prop :=
  (exists pos pos',
      make_setup rand fuel av b likelihood_threshold sim_iterations pos
      = Some (s, pos'))
  /\ has_sign false (score s).

(** A row of the table: one cell per bonus amount from 0 to the pool. *)
Definition row_ok (rand : nat -> Z) (fuel : nat) (likelihood_threshold : float)
           (sim_iterations bonus_units : Z) (av : attack_vector_def)
           (row : list attack_setup) : Prop :=
  Z.of_nat (List.length row) = bonus_units + 1
  /\ forall b, 0 <= b <= bonus_units ->
               setup_ok rand fuel likelihood_threshold sim_iterations av b
                        (nth (Z.to_nat b) row unset_setup).

Definition table_ok (rand : nat -> Z) (fuel : nat) (likelihood_threshold : float)
           (sim_iterations bonus_units : Z) (vectors : list attack_vector_def)
           (table : list (list attack_setup)) : Prop :=
  Forall2 (row_ok rand fuel likelihood_threshold sim_iterations bonus_units)
          vectors table.

(** What the C library promises of [qsort]: the array is permuted so that
    no element compares greater than a later one.  The order of elements
    that compare equal is left open. *)
Definition qsort_result {A} (cmp : A -> A -> Z) (input output : list A) : Prop :=
  Permutation input output /\ StronglySorted (fun a b => cmp a b <= 0) output.

(** A plan [PlanWar] may print: the first plan of the array after a [qsort]
    that keeps its promise. *)
Definition PlanWar_may_report (rand : nat -> Z) (granted : Z -> bool) (fuel : nat)
           (vectors : list attack_vector_def) (bonus_units : Z)
           (likelihood_threshold : float) (sim_iterations : Z) (pos : nat)
           (best : attack_plan) (pos' : nat) : Prop :=
  exists plans others,
    PlanWar_plans rand granted fuel vectors bonus_units likelihood_threshold
                  sim_iterations pos = Some (Ok plans, pos')
    /\ qsort_result ComparePlan plans (best :: others).

(** The float sum the search accumulates, from the last setup to the first. *)
Definition score_sum (l : list attack_setup) : float :=
  fold_right (fun s acc => fadd acc (score s)) fzero l.

(** *** The array of plans *)

(** The binomial coefficient, by the rule of Pascal's triangle. *)
Fixpoint binomial (n k : nat) : nat :=
  match n, k with
  | _, O => 1
  | O, S _ => 0
  | S n', S k' => binomial n' k' + binomial n' (S k')
  end.

(** The number of plans the search has to store for [count] vectors and a
    pool of [bonus_units]: the number of ways to share the pool among the
    vectors. *)
Definition plans_to_store (count : nat) (bonus_units : Z) : Z :=
  Z.of_nat (binomial (Z.to_nat bonus_units + (count - 1)) (count - 1)).

(** The allocator lets the array of plans grow to [count] plans.  The array
    starts with [PLANS_SIZE_INCREMENT] cells and gets as many more whenever
    it is full: its size number [k], of [k * PLANS_SIZE_INCREMENT] cells,
    is asked for once [(k - 1) * PLANS_SIZE_INCREMENT] plans are stored.
    Each of these sizes is, in bytes, a [size_t], and is granted. *)
Definition holds_plans (granted : Z -> bool) (count : Z) : Prop :=
  forall k,
    1 <= k -> (k - 1) * PLANS_SIZE_INCREMENT <= count ->
    k * PLANS_SIZE_INCREMENT * sizeof_attack_plan <= SIZE_MAX
    /\ granted (k * PLANS_SIZE_INCREMENT * sizeof_attack_plan) = true.

(** The array between two passes of the search: it has been enlarged
    [k - 1] times and has a free cell for the plan under the cursor. *)
Definition array_ok (plans : list attack_plan) (plans_size : Z) : Prop :=
  exists k,
    1 <= k /\ plans_size = k * PLANS_SIZE_INCREMENT
    /\ (k - 1) * PLANS_SIZE_INCREMENT <= Z.of_nat (List.length plans)
       < k * PLANS_SIZE_INCREMENT.

(** ** Vocabulary of the command line and of the output *)

(** *** Texts *)

(** Every character of the text passes the test. *)
Fixpoint all_chars (p : ascii -> bool) (s : string) : bool :=
  match s with
  | EmptyString => true
  | String c s' => p c && all_chars p s'
  end.

(** The text is made of the character [c] only. *)
Definition only (c : ascii) (s : string) : bool := all_chars (Ascii.eqb c) s.

(** The character [c] does not occur in the text. *)
Definition without (c : ascii) (s : string) : bool :=
  all_chars (fun x => negb (Ascii.eqb c x)) s.

(** A field of a text cut at [delim]: not empty and free of [delim]. *)
Definition is_field (delim : ascii) (s : string) : Prop :=
  s <> EmptyString /\ without delim s = true.

(** A character of a decimal number. *)
Definition is_digit (c : ascii) : bool :=
  match digit_value c with Some _ => true | None => false end.

(** A text in which [atoi] finds no number: its first character is no
    white space, no sign and no digit. *)
Definition not_a_number (s : string) : Prop :=
  match s with
  | EmptyString => False
  | String c _ =>
      isspace c = false /\ c <> "-"%char /\ c <> "+"%char /\ is_digit c = false
  end.

(** The decimal text of an [int]. *)
Definition itoa (z : Z) : string :=
  if z <? 0 then String "-" (utoa (- z)) else utoa z.

(** The text of an attack vector, as the usage message describes it:
    the units on the front, a colon, the units of the territories
    separated by commas. *)
Definition vector_text (front : Z) (counts : list Z) : string :=
  (itoa front ++ ":" ++ String.concat "," (map itoa counts))%string.

(** The territories of the given unit counts, as [ParseAttackVector]
    stores them. *)
Definition territories_of (counts : list Z) : list territory_def :=
  map (fun n => {| units := uint n |}) counts.

(** *** What has been printed *)

(** The floats a call of [printf] is given to print. *)
Definition float_args (call : printf_call) : list float :=
  flat_map (fun a => match a with arg_float x => [x] | _ => [] end)
           (printf_args call).

Definition printed_floats (stdout : list printf_call) : list float :=
  flat_map float_args stdout.

(** The headers of the predictions printed: the text of the vector, the
    win count and the loss count of each call that is given a string and
    two unsigned numbers. *)
Definition printed_counts (stdout : list printf_call) : list (string * Z * Z) :=
  flat_map (fun call =>
              match printf_args call with
              | [arg_string s; arg_uint w; arg_uint l] => [(s, w, l)]
              | _ => []
              end)
           stdout.

(** The bonus lines printed: the bonus and the text of the vector of each
    call that is given an unsigned number and a string. *)
Definition printed_bonuses (stdout : list printf_call) : list (Z * string) :=
  flat_map (fun call =>
              match printf_args call with
              | [arg_uint b; arg_string s] => [(b, s)]
              | _ => []
              end)
           stdout.

(** The command line of a run: the binary, the three settings, the
    attack vectors. *)
Definition command_line (binary iterations bonus threshold : string)
           (vectors : list string) : list string :=
  binary :: iterations :: bonus :: threshold :: vectors.

(** *** The enumeration as a counter *)

(** The number a combination stands for, the first cell counting the
    units: a numeral in base [last_index + 1]. *)
Fixpoint combination_number (last_index : Z) (indices : list Z) : Z :=
  match indices with
  | [] => 0
  | i :: rest => i + (last_index + 1) * combination_number last_index rest
  end.

(** *** Totals and counts *)
(** The totals of [PredictAttack] lie between what the least and the
    greatest outcome of every run would add: a win leaves between 1 unit
    and the units the run started with; a loss leaves between 1 enemy unit
    and all of them, and between 1 territory and all of them. *)
Definition totals_in_range (av : attack_vector_def) (bonus_units : Z)
           (c : counters) : Prop :=
  sum_win_count c <= sum_total_units_on_front c
    <= sum_win_count c * (units_on_front av + bonus_units)
  /\ sum_loss_count c <= sum_total_enemy_units_remaining c
     <= sum_loss_count c * total_units (territory_vector av)
  /\ sum_loss_count c <= sum_total_territories_remaining c
     <= sum_loss_count c * territory_count av.

(** How many combinations of [V] cells between 0 and [B] add up to [s],
    and to [s] at most. *)
Definition adding_up (B V s : nat) : nat :=
  List.length (filter (fun t => total_bonus t =? Z.of_nat s) (all_combinations V B)).

Definition up_to (B V s : nat) : nat :=
  List.length (filter (fun t => total_bonus t <=? Z.of_nat s) (all_combinations V B)).

(** ** Sample inputs *)

(** A stream of raw values in the range of a 15 bit generator. *)
Definition sample_rand (n : nat) : Z := (Z.of_nat n * 7919 + 13) mod 32768.

Definition trivial_vector : attack_vector_def :=
  {| def_string := "5:0"; units_on_front := 5;
     territory_vector := [ {| units := 0 |} ] |}.

Definition ghost_vector : attack_vector_def :=
  {| def_string := "1:0,0"; units_on_front := 1;
     territory_vector := [ {| units := 0 |}; {| units := 0 |} ] |}.

Definition sample_vector : attack_vector_def :=
  {| def_string := "7:3,3,1"; units_on_front := 7;
     territory_vector := [ {| units := 3 |}; {| units := 3 |}; {| units := 1 |} ] |}.

(** Three territories of [INT_MAX] defenders behind a front of one unit. *)
Definition crowded_vector : attack_vector_def :=
  {| def_string := "1:2147483647,2147483647,2147483647"; units_on_front := 1;
     territory_vector := [ {| units := INT_MAX |}; {| units := INT_MAX |};
                           {| units := INT_MAX |} ] |}.

(** An allocator that grants every request. *)
Definition grant_all (bytes : Z) : bool := true.

(** An allocator that grants the requests of [heap] bytes at most. *)
Definition grant_up_to (heap : Z) (bytes : Z) : bool := bytes <=? heap.

(** A table of the search for two vectors and a pool of 2: for each
    vector the setups of the bonus amounts 0, 1 and 2, here with a score
    of 0. *)
Definition sample_setup (av : attack_vector_def) (b : Z) : attack_setup :=
  {| prediction := prediction_of no_counts; attack_vector := av; bonus := b;
     score := fzero |}.

Definition sample_table : list (list attack_setup) :=
  [ map (sample_setup sample_vector) [0; 1; 2];
    map (sample_setup trivial_vector) [0; 1; 2] ].

(** * Properties *)

(** ** Machine integers *)

Lemma uint_small (z : Z) : is_uint z -> uint z = z.
Proof. unfold is_uint, uint, UINT_MAX. intros H. apply Z.mod_small. lia. Qed.

Lemma uint_is_uint (z : Z) : is_uint (uint z).
Proof.
  unfold is_uint, uint, UINT_MAX.
  pose proof (Z.mod_pos_bound z 4294967296). simpl. lia.
Qed.

Lemma MIN_spec (a b : Z) : MIN a b = Z.min a b.
Proof. unfold MIN. destruct (Z.ltb_spec a b); lia. Qed.

(** ** The monad *)

Lemma bind_Some {A B} (m : M A) (k : A -> M B) pos b pos' :
  bind m k pos = Some (b, pos') <->
  exists a pos1, m pos = Some (a, pos1) /\ k a pos1 = Some (b, pos').
Proof.
  unfold bind. split.
  - destruct (m pos) as [[a pos1]|]; [|discriminate]. eauto.
  - intros (a & pos1 & -> & H). exact H.
Qed.

Lemma bind_eq {A B} (m : M A) (k : A -> M B) pos a pos1 :
  m pos = Some (a, pos1) -> bind m k pos = k a pos1.
Proof. unfold bind. now intros ->. Qed.

(** ** [qsort] returns an ordered permutation *)

Section QsortSpec.
Context {A : Type} (cmp : A -> A -> Z) (P : A -> Prop).

(** On the elements that satisfy [P], the comparison is that of a total
    preorder. *)
Hypothesis cmp_total : forall a b, P a -> P b -> cmp a b > 0 -> cmp b a <= 0.
Hypothesis cmp_trans :
  forall a b c, P a -> P b -> P c -> cmp a b <= 0 -> cmp b c <= 0 -> cmp a c <= 0.

Lemma qsort_insert_perm (x : A) (l : list A) :
  Permutation (qsort_insert cmp x l) (x :: l).
Proof.
  induction l as [|y l IH]; simpl.
  - apply Permutation_refl.
  - destruct (cmp x y <=? 0).
    + apply Permutation_refl.
    + eapply Permutation_trans; [apply perm_skip, IH | apply perm_swap].
Qed.

Lemma qsort_perm (l : list A) : Permutation (qsort cmp l) l.
Proof.
  induction l as [|x l IH]; simpl.
  - apply perm_nil.
  - eapply Permutation_trans; [apply qsort_insert_perm | now apply perm_skip].
Qed.

Lemma qsort_insert_sorted (x : A) (l : list A) :
  P x -> Forall P l ->
  StronglySorted (fun a b => cmp a b <= 0) l ->
  StronglySorted (fun a b => cmp a b <= 0) (qsort_insert cmp x l).
Proof.
  intros Px HP Hs. induction Hs as [|y l Hs IH Hy]; simpl.
  - constructor; constructor.
  - inversion HP as [|? ? Py HPl]; subst.
    destruct (Z.leb_spec (cmp x y) 0) as [Hxy|Hxy].
    + constructor; [constructor; assumption|].
      constructor; [assumption|].
      rewrite Forall_forall in *. intros z Hz.
      apply (cmp_trans x y z); auto.
    + constructor; [apply IH; assumption|].
      rewrite Forall_forall in *. intros z Hz.
      apply (Permutation_in _ (qsort_insert_perm x l)) in Hz.
      destruct Hz as [<-|Hz]; [apply cmp_total; auto; lia | auto].
Qed.

Lemma qsort_sorted (l : list A) :
  Forall P l -> StronglySorted (fun a b => cmp a b <= 0) (qsort cmp l).
Proof.
  induction 1 as [|x l Px HP IH]; simpl.
  - constructor.
  - apply qsort_insert_sorted; auto.
    rewrite Forall_forall in *. intros z Hz.
    apply HP. exact (Permutation_in _ (qsort_perm l) Hz).
Qed.
End QsortSpec.

Lemma qsort_length {A} (cmp : A -> A -> Z) (l : list A) :
  List.length (qsort cmp l) = List.length l.
Proof. apply Permutation_length, qsort_perm. Qed.

(** ** Dice engine *)


Lemma CompareDice_die (a b : Z) : is_die a -> is_die b -> CompareDice a b = b - a.
Proof.
  unfold is_die, CompareDice, to_int, INT_MAX. intros Ha Hb.
  destruct (Z.leb_spec a 2147483647); destruct (Z.leb_spec b 2147483647); lia.
Qed.

Lemma qsort_dice_descending (l : list Z) :
  Forall is_die l -> descending (qsort CompareDice l).
Proof.
  intros Hl.
  assert (Hs : StronglySorted (fun a b => CompareDice a b <= 0) (qsort CompareDice l)).
  { apply (qsort_sorted CompareDice is_die); auto.
    - intros a b Ha Hb. rewrite !CompareDice_die by assumption. lia.
    - intros a b c Ha Hb Hc. rewrite !CompareDice_die by assumption. lia. }
  assert (Hd : Forall is_die (qsort CompareDice l)).
  { rewrite Forall_forall in *. intros z Hz. apply Hl.
    exact (Permutation_in _ (qsort_perm CompareDice l) Hz). }
  unfold descending. induction Hs as [|a l' Hs IH Ha]; constructor.
  - inversion Hd; subst. apply IH; assumption.
  - inversion Hd as [|? ? Hda Hdl]; subst.
    rewrite Forall_forall in *. intros z Hz.
    specialize (Ha z Hz). rewrite CompareDice_die in Ha; auto. lia.
Qed.

Section DiceProperties.
Variable rand : nat -> Z.

(** [rand()] returns an [int] between 0 and [RAND_MAX], and [RAND_MAX] is
    at most [INT_MAX]. *)
Hypothesis rand_range : forall n, 0 <= rand n <= INT_MAX.

Lemma UniformDiceRoll_first_draw (fuel pos : nat) :
  UniformDiceRoll rand (S fuel) pos = Some (rand pos mod DICE_SIDES + 1, S pos).
Proof.
  simpl. unfold bind, rand_call.
  pose proof (rand_range pos) as Hr. unfold INT_MAX in Hr.
  rewrite (uint_small (rand pos)) by (unfold is_uint, UINT_MAX; lia).
  destruct (Z.geb_spec (rand pos) MAX_DICE_RAND_VALUE) as [Hge|Hlt].
  - unfold MAX_DICE_RAND_VALUE, UINT_MAX, DICE_SIDES in Hge. simpl in Hge. lia.
  - unfold ret. rewrite uint_small; [reflexivity|].
    unfold is_uint, UINT_MAX, DICE_SIDES.
    pose proof (Z.mod_pos_bound (rand pos) 6). lia.
Qed.

Lemma UniformDiceRoll_die (fuel pos : nat) :
  exists d, UniformDiceRoll rand (S fuel) pos = Some (d, S pos) /\ is_die d.
Proof.
  eexists. split; [apply UniformDiceRoll_first_draw|].
  unfold is_die, DICE_SIDES. pose proof (Z.mod_pos_bound (rand pos) 6). lia.
Qed.

Lemma fill_dice_spec (fuel count pos : nat) :
  exists dice, fill_dice rand (S fuel) count pos = Some (dice, (pos + count)%nat)
               /\ List.length dice = count /\ Forall is_die dice.
Proof.
  revert pos. induction count as [|count IH]; intros pos.
  - exists []. cbn [fill_dice]. unfold ret. rewrite Nat.add_0_r. auto.
  - destruct (UniformDiceRoll_die fuel pos) as (d & Hd & Hdie).
    destruct (IH (S pos)) as (lower & Hl & Hlen & Hall).
    exists (lower ++ [d]). cbn [fill_dice].
    rewrite (bind_eq _ _ _ _ _ Hd), (bind_eq _ _ _ _ _ Hl). unfold ret.
    replace (S pos + count)%nat with (pos + S count)%nat by lia.
    repeat split.
    + rewrite length_app. simpl. lia.
    + apply Forall_app. auto.
Qed.

Lemma RollDice_spec (fuel : nat) (count : Z) (pos : nat) :
  exists dice,
    RollDice rand (S fuel) count pos = Some (dice, (pos + Z.to_nat count)%nat)
    /\ List.length dice = Z.to_nat count
    /\ Forall is_die dice
    /\ descending dice.
Proof.
  destruct (fill_dice_spec fuel (Z.to_nat count) pos) as (raw & Hf & Hlen & Hall).
  exists (qsort CompareDice raw). unfold RollDice.
  rewrite (bind_eq _ _ _ _ _ Hf). unfold ret. repeat split.
  - now rewrite qsort_length.
  - rewrite Forall_forall in *. intros z Hz. apply Hall.
    exact (Permutation_in _ (qsort_perm CompareDice raw) Hz).
  - now apply qsort_dice_descending.
Qed.
End DiceProperties.

(** C9. For every dice count c in {1,2,3}, [RollDice] returns exactly c
    values, each between 1 and 6, in descending order (and it has drawn
    exactly c values from the random stream). *)
Theorem RollDice_count_range_sorted (rand : nat -> Z) (fuel : nat) (c : Z) (pos : nat) :
  (forall n, 0 <= rand n <= INT_MAX) ->
  c = 1 \/ c = 2 \/ c = 3 ->
  exists dice,
    RollDice rand (S fuel) c pos = Some (dice, (pos + Z.to_nat c)%nat)
    /\ Z.of_nat (List.length dice) = c
    /\ Forall (fun d => 1 <= d <= 6) dice
    /\ StronglySorted (fun a b => a >= b) dice.
Proof.
  intros Hr Hc.
  destruct (RollDice_spec rand Hr fuel c pos) as (dice & H1 & H2 & H3 & H4).
  exists dice. repeat split; auto.
  rewrite H2. lia.
Qed.


Lemma sample_rand_range (n : nat) : 0 <= sample_rand n <= INT_MAX.
Proof.
  unfold sample_rand, INT_MAX.
  pose proof (Z.mod_pos_bound (Z.of_nat n * 7919 + 13) 32768). lia.
Qed.

Lemma RollDice_count_range_sorted_witness :
  exists dice,
    RollDice sample_rand 1 3 0%nat = Some (dice, 3%nat)
    /\ Z.of_nat (List.length dice) = 3
    /\ Forall (fun d => 1 <= d <= 6) dice
    /\ StronglySorted (fun a b => a >= b) dice.
Proof.
  apply (RollDice_count_range_sorted sample_rand 0 3 0).
  - exact sample_rand_range.
  - right; right; reflexivity.
Defined.

(** ** One round of combat *)



Lemma filter_split_length {A} (f : A -> bool) (l : list A) :
  (List.length (filter f l) + List.length (filter (fun x => negb (f x)) l)
   = List.length l)%nat.
Proof.
  induction l as [|x l IH]; simpl; [reflexivity|].
  destruct (f x); simpl; lia.
Qed.

Lemma losses_sum (attack_dice defend_dice : list Z) (compared : nat) :
  attacker_losses attack_dice defend_dice compared
  + defender_losses attack_dice defend_dice compared = Z.of_nat compared.
Proof.
  unfold attacker_losses, defender_losses.
  pose proof (filter_split_length (attacker_wins attack_dice defend_dice) (seq 0 compared)) as H.
  rewrite length_seq in H. lia.
Qed.

Lemma count_losses_spec (attack_dice defend_dice : list Z) (remaining index : nat)
      (la ld : Z) :
  0 <= la -> 0 <= ld ->
  la + Z.of_nat remaining <= UINT_MAX -> ld + Z.of_nat remaining <= UINT_MAX ->
  count_losses attack_dice defend_dice index remaining la ld =
  (la + Z.of_nat (List.length (filter (fun i => negb (attacker_wins attack_dice defend_dice i))
                                      (seq index remaining))),
   ld + Z.of_nat (List.length (filter (attacker_wins attack_dice defend_dice)
                                      (seq index remaining)))).
Proof.
  revert index la ld. induction remaining as [|n IH]; intros index la ld Hla Hld Ha Hd.
  - simpl. f_equal; lia.
  - cbn [count_losses seq filter]. unfold attacker_wins at 1 4.
    destruct (nth index attack_dice 0 >? nth index defend_dice 0); cbn [negb].
    + rewrite IH; rewrite ?uint_small; unfold is_uint; try lia.
      cbn [List.length]. f_equal; lia.
    + rewrite IH; rewrite ?uint_small; unfold is_uint; try lia.
      cbn [List.length]. f_equal; lia.
Qed.

Lemma attack_dice_count_spec (a : Z) :
  1 <= a <= UINT_MAX -> attack_dice_count a = Z.min (a - 1) 3.
Proof.
  intros Ha. unfold attack_dice_count, MIN_TERRITORY_UNITS, MAX_ATTACK_DICE_COUNT.
  rewrite MIN_spec, uint_small; [reflexivity | unfold is_uint; lia].
Qed.

Lemma defend_dice_count_spec (d : Z) : defend_dice_count d = Z.min d 2.
Proof. unfold defend_dice_count, MAX_DEFEND_DICE_COUNT. apply MIN_spec. Qed.

Section RoundProperties.
Variable rand : nat -> Z.
Hypothesis rand_range : forall n, 0 <= rand n <= INT_MAX.

(** What one call of [SingleAttack] does, for unsigned arguments with at
    least one unit on the front. *)
Lemma SingleAttack_spec (fuel : nat) (a d : Z) (pos : nat) :
  1 <= a <= UINT_MAX -> 0 <= d <= UINT_MAX ->
  let attackers := Z.min (a - 1) 3 in
  let defenders := Z.min d 2 in
  let compared := Z.to_nat (Z.min attackers defenders) in
  exists attack_dice defend_dice,
    RollDice rand (S fuel) attackers pos =
      Some (attack_dice, (pos + Z.to_nat attackers)%nat)
    /\ RollDice rand (S fuel) defenders (pos + Z.to_nat attackers)%nat =
         Some (defend_dice, (pos + Z.to_nat attackers + Z.to_nat defenders)%nat)
    /\ List.length attack_dice = Z.to_nat attackers
    /\ List.length defend_dice = Z.to_nat defenders
    /\ descending attack_dice /\ descending defend_dice
    /\ SingleAttack rand (S fuel) a d pos =
         Some ((a - attacker_losses attack_dice defend_dice compared,
                d - defender_losses attack_dice defend_dice compared),
               (pos + Z.to_nat attackers + Z.to_nat defenders)%nat).
Proof.
  intros Ha Hd attackers defenders compared.
  destruct (RollDice_spec rand rand_range fuel attackers pos)
    as (attack_dice & Hra & Hla & _ & Hsa).
  destruct (RollDice_spec rand rand_range fuel defenders (pos + Z.to_nat attackers))
    as (defend_dice & Hrd & Hld & _ & Hsd).
  exists attack_dice, defend_dice.
  repeat match goal with |- _ /\ _ => split end; auto.
  unfold SingleAttack, compare_dice_count.
  rewrite attack_dice_count_spec, defend_dice_count_spec, MIN_spec by assumption.
  fold attackers defenders compared.
  rewrite (bind_eq _ _ _ _ _ Hra), (bind_eq _ _ _ _ _ Hrd).
  pose proof (losses_sum attack_dice defend_dice compared) as Hsum.
  assert (Hc : Z.of_nat compared <= 3) by (unfold compared, attackers; lia).
  rewrite count_losses_spec by (unfold UINT_MAX; lia).
  fold (attacker_losses attack_dice defend_dice compared).
  fold (defender_losses attack_dice defend_dice compared).
  unfold ret. rewrite !Z.add_0_l.
  assert (H0a : 0 <= attacker_losses attack_dice defend_dice compared)
    by (unfold attacker_losses; lia).
  assert (H0d : 0 <= defender_losses attack_dice defend_dice compared)
    by (unfold defender_losses; lia).
  assert (Hcmp : Z.of_nat compared <= a - 1 /\ Z.of_nat compared <= d)
    by (unfold compared, attackers, defenders; lia).
  rewrite !uint_small by (unfold is_uint; lia).
  reflexivity.
Qed.
End RoundProperties.

(** C3. [SingleAttack] with at least 2 units on the front and at least 1
    defender: the attacker rolls min(units-1, 3) dice and the defender
    min(units, 2); exactly min(attacker dice, defender dice) positions of the
    two sorted sequences are compared; at each of them the defender loses a
    unit when the attacker's die is strictly greater and the attacker loses
    one otherwise, so the losses add up to the number of compared positions. *)
Theorem SingleAttack_round (rand : nat -> Z) (fuel : nat) (a d : Z) (pos : nat) :
  (forall n, 0 <= rand n <= INT_MAX) ->
  2 <= a <= UINT_MAX -> 1 <= d <= UINT_MAX ->
  let attackers := Z.min (a - 1) 3 in
  let defenders := Z.min d 2 in
  let compared := Z.min attackers defenders in
  exists attack_dice defend_dice lost_attack_units lost_defend_units,
    RollDice rand (S fuel) attackers pos =
      Some (attack_dice, (pos + Z.to_nat attackers)%nat)
    /\ RollDice rand (S fuel) defenders (pos + Z.to_nat attackers)%nat =
         Some (defend_dice, (pos + Z.to_nat attackers + Z.to_nat defenders)%nat)
    /\ Z.of_nat (List.length attack_dice) = attackers
    /\ Z.of_nat (List.length defend_dice) = defenders
    /\ StronglySorted (fun x y => x >= y) attack_dice
    /\ StronglySorted (fun x y => x >= y) defend_dice
    /\ lost_defend_units =
         Z.of_nat (List.length
           (filter (fun i => nth i attack_dice 0 >? nth i defend_dice 0)
                   (seq 0 (Z.to_nat compared))))
    /\ lost_attack_units =
         Z.of_nat (List.length
           (filter (fun i => negb (nth i attack_dice 0 >? nth i defend_dice 0))
                   (seq 0 (Z.to_nat compared))))
    /\ lost_attack_units + lost_defend_units = compared
    /\ 1 <= compared
    /\ SingleAttack rand (S fuel) a d pos =
         Some ((a - lost_attack_units, d - lost_defend_units),
               (pos + Z.to_nat attackers + Z.to_nat defenders)%nat).
Proof.
  intros Hr Ha Hd attackers defenders compared.
  destruct (SingleAttack_spec rand Hr fuel a d pos)
    as (ad & dd & H1 & H2 & H3 & H4 & Hsa & Hsd & H5); try lia.
  exists ad, dd, (attacker_losses ad dd (Z.to_nat compared)),
         (defender_losses ad dd (Z.to_nat compared)).
  fold attackers defenders in H1, H2, H3, H4, H5. fold compared in H5.
  repeat match goal with |- _ /\ _ => split end; auto.
  - rewrite H3. unfold attackers. lia.
  - rewrite H4. unfold defenders. lia.
  - rewrite losses_sum. unfold compared, attackers, defenders. lia.
  - unfold compared, attackers, defenders. lia.
Qed.

Lemma SingleAttack_round_witness :
  let attackers := Z.min (4 - 1) 3 in
  let defenders := Z.min 2 2 in
  let compared := Z.min attackers defenders in
  exists attack_dice defend_dice lost_attack_units lost_defend_units,
    RollDice sample_rand 1 attackers 0%nat =
      Some (attack_dice, (0 + Z.to_nat attackers)%nat)
    /\ RollDice sample_rand 1 defenders (0 + Z.to_nat attackers)%nat =
         Some (defend_dice, (0 + Z.to_nat attackers + Z.to_nat defenders)%nat)
    /\ Z.of_nat (List.length attack_dice) = attackers
    /\ Z.of_nat (List.length defend_dice) = defenders
    /\ StronglySorted (fun x y => x >= y) attack_dice
    /\ StronglySorted (fun x y => x >= y) defend_dice
    /\ lost_defend_units =
         Z.of_nat (List.length
           (filter (fun i => nth i attack_dice 0 >? nth i defend_dice 0)
                   (seq 0 (Z.to_nat compared))))
    /\ lost_attack_units =
         Z.of_nat (List.length
           (filter (fun i => negb (nth i attack_dice 0 >? nth i defend_dice 0))
                   (seq 0 (Z.to_nat compared))))
    /\ lost_attack_units + lost_defend_units = compared
    /\ 1 <= compared
    /\ SingleAttack sample_rand 1 4 2 0%nat =
         Some ((4 - lost_attack_units, 2 - lost_defend_units),
               (0 + Z.to_nat attackers + Z.to_nat defenders)%nat).
Proof.
  apply (SingleAttack_round sample_rand 0 4 2 0).
  - exact sample_rand_range.
  - unfold UINT_MAX; lia.
  - unfold UINT_MAX; lia.
Defined.

(** ** The assault on one territory *)

(** At a floor the loop is not entered: nothing is fought, no die is drawn,
    whatever the bound on the rounds. *)
Lemma AttackTerritory_loop_at_floor (rand : nat -> Z) (fuel rounds : nat)
      (f t : Z) (pos : nat) :
  f <= 1 \/ t <= 0 ->
  AttackTerritory_loop rand fuel rounds f t pos = Some ((f, t), pos).
Proof.
  intros H.
  assert (Hc : (f >? MIN_TERRITORY_UNITS) && (t >? 0) = false).
  { unfold MIN_TERRITORY_UNITS. apply andb_false_iff.
    rewrite !Z.gtb_ltb, !Z.ltb_ge. lia. }
  destruct rounds; simpl; rewrite Hc; reflexivity.
Qed.

Section TerritoryProperties.
Variable rand : nat -> Z.
Hypothesis rand_range : forall n, 0 <= rand n <= INT_MAX.

Lemma AttackTerritory_loop_total (fuel rounds : nat) :
  forall (f t : Z) (pos : nat),
    0 <= f <= UINT_MAX -> 0 <= t <= UINT_MAX ->
    f + t <= Z.of_nat rounds ->
    exists rf rt pos',
      AttackTerritory_loop rand (S fuel) rounds f t pos = Some ((rf, rt), pos')
      /\ (rf <= 1 \/ rt = 0)
      /\ 0 <= rf <= f /\ 0 <= rt <= t
      /\ (1 <= f -> 1 <= rf)
      /\ (rt = 0 -> 1 <= t -> 2 <= rf).
Proof.
  induction rounds as [|rounds IH]; intros f t pos Hf Ht Hfuel.
  - exists f, t, pos. rewrite AttackTerritory_loop_at_floor by lia.
    repeat split; try lia.
  - destruct (Z.leb_spec f 1) as [Hf1|Hf1];
      [|destruct (Z.leb_spec t 0) as [Ht0|Ht0]].
    + exists f, t, pos. rewrite AttackTerritory_loop_at_floor by lia.
      repeat split; try lia.
    + exists f, t, pos. rewrite AttackTerritory_loop_at_floor by lia.
      repeat split; try lia.
    + cbn [AttackTerritory_loop].
      replace ((f >? MIN_TERRITORY_UNITS) && (t >? 0)) with true.
      2:{ symmetry. unfold MIN_TERRITORY_UNITS. apply andb_true_iff.
          rewrite !Z.gtb_ltb, !Z.ltb_lt. lia. }
      destruct (SingleAttack_spec rand rand_range fuel f t pos)
        as (ad & dd & _ & _ & _ & _ & _ & _ & Hs); try lia.
      set (compared := Z.to_nat (Z.min (Z.min (f - 1) 3) (Z.min t 2))) in Hs.
      pose proof (losses_sum ad dd compared) as Hsum.
      assert (H0a : 0 <= attacker_losses ad dd compared)
        by (unfold attacker_losses; lia).
      assert (H0d : 0 <= defender_losses ad dd compared)
        by (unfold defender_losses; lia).
      assert (Hc : 1 <= Z.of_nat compared <= f - 1 /\ Z.of_nat compared <= t)
        by (unfold compared; lia).
      rewrite (bind_eq _ _ _ _ _ Hs).
      destruct (IH (f - attacker_losses ad dd compared)
                   (t - defender_losses ad dd compared)
                   (pos + Z.to_nat (Z.min (f - 1) 3) + Z.to_nat (Z.min t 2))%nat)
        as (rf & rt & pos' & Hl & Hfloor & Hrf & Hrt & Hone & Hwin); try lia.
      exists rf, rt, pos'. split; [exact Hl|].
      repeat split; try lia.
      intros Hz _.
      destruct (Z.eq_dec (t - defender_losses ad dd compared) 0) as [E|E].
      * (* the round that removes the last defenders costs the attacker
           nothing: every compared position was won *)
        assert (E0 : attacker_losses ad dd compared = 0) by lia.
        rewrite E0, E, Z.sub_0_r in Hl.
        rewrite AttackTerritory_loop_at_floor in Hl by lia.
        injection Hl as <- _ _. lia.
      * apply Hwin; lia.
Qed.
End TerritoryProperties.

(** C4. [AttackTerritory] with at least one unit on the front terminates:
    a bound of [front + defenders] rounds is enough.  In its result the
    front is down to 1 or the territory is down to 0.  Once a side is at its
    floor no round is fought: from a state at a floor the function returns
    that very state without drawing a die, whatever the bound. *)
Theorem AttackTerritory_terminates_at_floor
        (rand : nat -> Z) (fuel : nat) (front : Z) (territory : territory_def)
        (pos : nat) :
  (forall n, 0 <= rand n <= INT_MAX) ->
  1 <= front <= UINT_MAX ->
  0 <= units territory <= UINT_MAX ->
  front + units territory <= Z.of_nat fuel ->
  exists rf rt pos',
    AttackTerritory rand fuel front territory pos = Some ((rf, rt), pos')
    /\ (rf = 1 \/ rt = 0)
    /\ (forall fuel' pos'',
           AttackTerritory rand fuel' rf {| units := rt |} pos'' =
           Some ((rf, rt), pos''))
    /\ (front = 1 \/ units territory = 0 ->
        rf = front /\ rt = units territory /\ pos' = pos).
Proof.
  intros Hr Hf Ht Hfuel. unfold AttackTerritory.
  destruct fuel as [|fuel]; [lia|].
  destruct (AttackTerritory_loop_total rand Hr fuel (S fuel) front (units territory) pos)
    as (rf & rt & pos' & Hl & Hfloor & Hrf & Hrt & Hone & _); try lia.
  exists rf, rt, pos'. split; [exact Hl|]. split; [lia|]. split.
  - intros fuel' pos''. cbn [units].
    apply AttackTerritory_loop_at_floor. lia.
  - intros Hat. rewrite AttackTerritory_loop_at_floor in Hl by lia.
    injection Hl as <- <- <-. auto.
Qed.

Lemma AttackTerritory_terminates_at_floor_witness :
  exists rf rt pos',
    AttackTerritory sample_rand 15 10 {| units := 5 |} 0%nat = Some ((rf, rt), pos')
    /\ (rf = 1 \/ rt = 0)
    /\ (forall fuel' pos'',
           AttackTerritory sample_rand fuel' rf {| units := rt |} pos'' =
           Some ((rf, rt), pos''))
    /\ (10 = 1 \/ units {| units := 5 |} = 0 ->
        rf = 10 /\ rt = units {| units := 5 |} /\ pos' = 0%nat).
Proof.
  apply (AttackTerritory_terminates_at_floor sample_rand 15 10 {| units := 5 |} 0).
  - exact sample_rand_range.
  - unfold UINT_MAX; lia.
  - unfold UINT_MAX; simpl; lia.
  - simpl; lia.
Defined.

(** ** The traversal of an attack vector *)


(** C8. For the vector of one territory with 0 defenders and 5 units on the
    front, [SimAttack] with bonus 0 returns a win on every run: 1 conquered
    territory, 0 enemy units, 4 units on the front.  It does so for every
    random stream and every bound on the rounds, 0 included, and leaves the
    position in the stream where it was: no round is fought. *)
Theorem SimAttack_trivial_vector (rand : nat -> Z) (fuel pos : nat) :
  SimAttack rand fuel trivial_vector 0 pos =
  Some ({| conquered_territory_count := 1;
           result_units_on_front := 4;
           enemy_units_on_front := 0 |}, pos).
Proof.
  unfold SimAttack, trivial_vector. cbn [territory_vector units_on_front SimAttack_loop].
  unfold AttackTerritory. cbn [units].
  change (uint (5 + 0)) with 5.
  rewrite (bind_eq _ _ _ _ _ (AttackTerritory_loop_at_floor rand fuel fuel 5 0 pos
                                (or_intror (Z.le_refl 0)))).
  reflexivity.
Qed.


(** C10 fails on the code.  The vector 1:0,0 starts with 1 unit on the front
    and has non-negative defender counts.  The first territory is taken
    without a fight and the garrison leaves 0 units for the second one; the
    second is taken as well and the subtraction of its garrison wraps
    around: the run is reported as a win with 4294967295 units left. *)
Theorem SimAttack_front_wraps (rand : nat -> Z) (fuel pos : nat) :
  SimAttack rand fuel ghost_vector 0 pos =
  Some ({| conquered_territory_count := 2;
           result_units_on_front := UINT_MAX;
           enemy_units_on_front := 0 |}, pos).
Proof.
  unfold SimAttack, ghost_vector. cbn [territory_vector units_on_front SimAttack_loop].
  unfold AttackTerritory. cbn [units].
  change (uint (1 + 0)) with 1.
  rewrite (bind_eq _ _ _ _ _ (AttackTerritory_loop_at_floor rand fuel fuel 1 0 pos
                                (or_intror (Z.le_refl 0)))).
  cbn [Z.eqb]. change (uint (1 - MIN_TERRITORY_UNITS)) with 0.
  rewrite (bind_eq _ _ _ _ _ (AttackTerritory_loop_at_floor rand fuel fuel 0 0 pos
                                (or_intror (Z.le_refl 0)))).
  reflexivity.
Qed.

(** ** Floating point facts *)


Lemma iter_pos_invariant {A} (f : A -> A) (Q : A -> Prop) :
  (forall x, Q x -> Q (f x)) -> forall p x, Q x -> Q (iter_pos f p x).
Proof.
  intros Hf. induction p as [p IH|p IH|]; intros x Hx; simpl; auto.
Qed.

Lemma shr_1_nonneg (mrs : shr_record) : 0 <= shr_m mrs -> 0 <= shr_m (shr_1 mrs).
Proof.
  destruct mrs as [m r s]. simpl.
  destruct m as [|[p|p|]|p]; simpl; lia.
Qed.

Lemma shr_nonneg (mrs : shr_record) (e n : Z) :
  0 <= shr_m mrs -> 0 <= shr_m (fst (shr mrs e n)).
Proof.
  intros H. unfold shr. destruct n; simpl; auto.
  apply (iter_pos_invariant shr_1 (fun r => 0 <= shr_m r)); auto using shr_1_nonneg.
Qed.

Lemma shr_record_of_loc_m (m : Z) (l : location) : shr_m (shr_record_of_loc m l) = m.
Proof. destruct l as [|[]]; reflexivity. Qed.

Lemma shr_fexp_nonneg prec emax (m e : Z) (l : location) :
  0 <= m -> 0 <= shr_m (fst (shr_fexp prec emax m e l)).
Proof.
  intros H. unfold shr_fexp. apply shr_nonneg. now rewrite shr_record_of_loc_m.
Qed.

Lemma round_nearest_even_nonneg (m : Z) (l : location) :
  0 <= m -> 0 <= round_nearest_even m l.
Proof.
  intros H. unfold round_nearest_even.
  destruct l as [|[]]; try destruct (Z.even m); lia.
Qed.

Lemma binary_round_aux_sign prec emax (s : bool) (m e : Z) (l : location) :
  0 <= m -> has_sign s (binary_round_aux prec emax s m e l).
Proof.
  intros H. unfold binary_round_aux.
  pose proof (shr_fexp_nonneg prec emax m e l H) as H1.
  destruct (shr_fexp prec emax m e l) as [mrs' e']. simpl in H1.
  pose proof (shr_fexp_nonneg prec emax _ e' loc_Exact
                (round_nearest_even_nonneg _ (loc_of_shr_record mrs') H1)) as H2.
  destruct (shr_fexp prec emax _ e' loc_Exact) as [mrs'' e'']. simpl in H2.
  destruct (shr_m mrs'') as [|p|p]; simpl; auto; try lia.
  destruct (e'' <=? emax - prec); simpl; auto.
Qed.

Lemma binary_normalize_sign prec emax (n e : Z) :
  0 <= n -> has_sign false (binary_normalize prec emax n e false).
Proof.
  intros H. destruct n as [|p|p]; simpl; auto; [|lia].
  unfold binary_round. destruct (shl_align _ _ _) as [mz ez].
  apply binary_round_aux_sign. lia.
Qed.

Lemma float_of_uint_sign (n : Z) : 0 <= n -> has_sign false (float_of_uint n).
Proof. apply binary_normalize_sign. Qed.

Lemma fdiv_sign (x y : float) :
  has_sign false x -> has_sign false y ->
  fdiv x y = S754_nan \/ has_sign false (fdiv x y).
Proof.
  destruct x as [sx|sx| |sx mx ex]; destruct y as [sy|sy| |sy my ey]; simpl;
    intros Hx Hy; subst; auto; try contradiction.
  right. unfold fdiv, SFdiv.
  destruct (SFdiv_core_binary _ _ _ _ _ _) as [[mz ez] lz] eqn:E.
  apply binary_round_aux_sign.
  unfold SFdiv_core_binary in E. cbv zeta in E.
  match type of E with
  | (let '(q, r) := IntDef.Z.div_eucl ?a ?b in _) = _ =>
      change (IntDef.Z.div_eucl a b) with (Z.div_eucl a b) in E;
      pose proof (Z_div_mod a b eq_refl) as Hdm;
      assert (Ha : 0 <= a); [| destruct (Z.div_eucl a b) as [q r] ]
  end.
  - destruct (_ - _ - _); try lia. apply Z.shiftl_nonneg. lia.
  - injection E as <- _ _. nia.
Qed.

Lemma fadd_sign (x y : float) :
  has_sign false x -> has_sign false y -> has_sign false (fadd x y).
Proof.
  destruct x as [sx|sx| |sx mx ex]; destruct y as [sy|sy| |sy my ey];
    cbn [has_sign]; intros Hx Hy; subst; try contradiction;
    try (cbn; reflexivity).
  unfold fadd, SFadd. cbv zeta. unfold cond_Zopp.
  apply binary_normalize_sign. lia.
Qed.

(** *** Conversion of a positive [unsigned int] gives a finite float *)

Lemma digits2_pos_bounds (p : positive) :
  2 ^ (Zpos (digits2_pos p) - 1) <= Zpos p < 2 ^ Zpos (digits2_pos p).
Proof.
  induction p as [p IH|p IH|]; cbn [digits2_pos].
  - rewrite Pos2Z.inj_succ. change (Zpos p~1) with (2 * Zpos p + 1).
    replace (Z.succ (Zpos (digits2_pos p)) - 1) with (Z.succ (Zpos (digits2_pos p) - 1)) by lia.
    rewrite !Z.pow_succ_r by lia.
    generalize dependent (2 ^ (Zpos (digits2_pos p) - 1)).
    generalize (2 ^ Zpos (digits2_pos p)). intros; lia.
  - rewrite Pos2Z.inj_succ. change (Zpos p~0) with (2 * Zpos p).
    replace (Z.succ (Zpos (digits2_pos p)) - 1) with (Z.succ (Zpos (digits2_pos p) - 1)) by lia.
    rewrite !Z.pow_succ_r by lia.
    generalize dependent (2 ^ (Zpos (digits2_pos p) - 1)).
    generalize (2 ^ Zpos (digits2_pos p)). intros; lia.
  - simpl. lia.
Qed.

Lemma digits2_pos_succ (p : positive) :
  Zpos (digits2_pos p) <= Zpos (digits2_pos (Pos.succ p)) <= Zpos (digits2_pos p) + 1.
Proof.
  induction p as [p IH|p IH|]; cbn [Pos.succ digits2_pos];
    rewrite ?Pos2Z.inj_succ; simpl; lia.
Qed.

Lemma digits2_pos_shift (p k : positive) :
  Zpos (digits2_pos (Pos.iter xO p k)) = Zpos (digits2_pos p) + Zpos k.
Proof.
  induction k as [|k IH] using Pos.peano_ind.
  - simpl. rewrite Pos2Z.inj_succ. lia.
  - rewrite Pos.iter_succ. cbn [digits2_pos].
    rewrite !Pos2Z.inj_succ, IH. lia.
Qed.

Lemma shr_1_digits (mrs : shr_record) :
  0 < shr_m mrs -> 2 <= Zdigits2 (shr_m mrs) ->
  0 < shr_m (shr_1 mrs)
  /\ Zdigits2 (shr_m (shr_1 mrs)) = Zdigits2 (shr_m mrs) - 1.
Proof.
  destruct mrs as [m r s]. cbn [shr_m].
  destruct m as [|[p|p|]|p]; cbn [shr_1 shr_m Zdigits2 digits2_pos];
    rewrite ?Pos2Z.inj_succ; lia.
Qed.

Lemma iter_shr_1_digits (p : positive) :
  forall mrs,
    0 < shr_m mrs -> Zpos p < Zdigits2 (shr_m mrs) ->
    0 < shr_m (iter_pos shr_1 p mrs)
    /\ Zdigits2 (shr_m (iter_pos shr_1 p mrs)) = Zdigits2 (shr_m mrs) - Zpos p.
Proof.
  induction p as [p IH|p IH|]; intros mrs Hm Hd; cbn [iter_pos].
  - destruct (shr_1_digits mrs Hm) as [H1 E1]; [lia|].
    destruct (IH (shr_1 mrs) H1) as [H2 E2]; [lia|].
    destruct (IH _ H2) as [H3 E3]; [lia|].
    split; [assumption | lia].
  - destruct (IH mrs Hm) as [H2 E2]; [lia|].
    destruct (IH _ H2) as [H3 E3]; [lia|].
    split; [assumption | lia].
  - apply shr_1_digits; lia.
Qed.

(** Shifting by [fexp]: a mantissa of at least 24 digits in the normal
    range is cut down to exactly 24 digits. *)
Lemma shr_fexp_digits (m e : Z) (l : location) :
  0 < m -> -125 <= Zdigits2 m + e ->
  let r := shr_fexp float_prec float_emax m e l in
  0 < shr_m (fst r)
  /\ (24 <= Zdigits2 m -> Zdigits2 (shr_m (fst r)) = 24)
  /\ (Zdigits2 m <= 24 -> fst r = shr_record_of_loc m l /\ snd r = e)
  /\ snd r = e + Z.max 0 (Zdigits2 m - 24).
Proof.
  intros Hm He. unfold shr_fexp, fexp, emin, float_prec, float_emax.
  replace (Z.max (Zdigits2 m + e - 24) (3 - 128 - 24) - e) with (Zdigits2 m - 24) by lia.
  unfold shr. destruct (Zdigits2 m - 24) as [|n|n] eqn:En; cbn [fst snd].
  - rewrite shr_record_of_loc_m. repeat split; try lia.
  - destruct (iter_shr_1_digits n (shr_record_of_loc m l)) as [H1 E1];
      rewrite ?shr_record_of_loc_m; try lia.
    rewrite shr_record_of_loc_m in E1. repeat split; try lia.
  - rewrite shr_record_of_loc_m. repeat split; try lia.
Qed.

Lemma Zdigits2_round (m : Z) (l : location) :
  0 < m ->
  0 < round_nearest_even m l
  /\ Zdigits2 m <= Zdigits2 (round_nearest_even m l) <= Zdigits2 m + 1.
Proof.
  intros Hm. destruct m as [|p|p]; try lia.
  assert (Hs : Zpos p + 1 = Zpos (Pos.succ p)) by lia.
  pose proof (digits2_pos_succ p) as Hd.
  unfold round_nearest_even.
  destruct l as [|[]]; try destruct (Z.even (Zpos p));
    rewrite ?Hs; cbn [Zdigits2]; lia.
Qed.

Lemma binary_round_aux_finite (s : bool) (m e : Z) (l : location) :
  0 < m -> 24 <= Zdigits2 m -> -125 <= Zdigits2 m + e <= 127 ->
  exists m' e', binary_round_aux float_prec float_emax s m e l = S754_finite s m' e'.
Proof.
  intros Hm Hd He. unfold binary_round_aux.
  destruct (shr_fexp_digits m e l Hm) as (H1 & D1 & _ & E1); [lia|].
  destruct (shr_fexp float_prec float_emax m e l) as [mrs' e1]. cbn [fst snd] in *.
  specialize (D1 Hd).
  destruct (Zdigits2_round (shr_m mrs') (loc_of_shr_record mrs') H1) as [H2 D2].
  set (m2 := round_nearest_even (shr_m mrs') (loc_of_shr_record mrs')) in *.
  destruct (shr_fexp_digits m2 e1 loc_Exact H2) as (H3 & _ & _ & E3); [lia|].
  destruct (shr_fexp float_prec float_emax m2 e1 loc_Exact) as [mrs'' e2].
  cbn [fst snd] in *.
  destruct (shr_m mrs'') as [|m3|m3]; try lia.
  replace (e2 <=? float_emax - float_prec) with true.
  - eauto.
  - symmetry. apply Z.leb_le. unfold float_emax, float_prec. lia.
Qed.

Lemma float_of_uint_finite (n : Z) :
  0 < n <= 4294967295 -> exists m e, float_of_uint n = S754_finite false m e.
Proof.
  intros Hn. destruct n as [|p|p]; try lia.
  unfold float_of_uint, binary_normalize, binary_round.
  pose proof (digits2_pos_bounds p) as Hb.
  assert (Hd : Zpos (digits2_pos p) <= 32).
  { destruct (Z.le_gt_cases (Zpos (digits2_pos p)) 32) as [|Hgt]; [assumption|].
    assert (2 ^ 32 <= 2 ^ (Zpos (digits2_pos p) - 1)) by (apply Z.pow_le_mono_r; lia).
    change (2 ^ 32) with 4294967296 in *. lia. }
  unfold shl_align, fexp, emin, float_prec, float_emax.
  replace (Z.max (Zpos (digits2_pos p) + 0 - 24) (3 - 128 - 24) - 0)
    with (Zpos (digits2_pos p) - 24) by lia.
  destruct (Zpos (digits2_pos p) - 24) as [|k|k] eqn:Ek.
  - apply binary_round_aux_finite; cbn [Zdigits2]; lia.
  - apply binary_round_aux_finite; cbn [Zdigits2]; lia.
  - replace (Z.max (Zpos (digits2_pos p) + 0 - 24) (3 - 128 - 24))
      with (Zpos (digits2_pos p) - 24) by lia.
    apply binary_round_aux_finite; cbn [Zdigits2];
      rewrite ?digits2_pos_shift; lia.
Qed.

(** *** The order on the floats that are not NaN and not negative *)

Lemma SFcompare_finite (m1 m2 : positive) (e1 e2 : Z) :
  SFcompare (S754_finite false m1 e1) (S754_finite false m2 e2) =
  Some (match e1 ?= e2 with
        | Lt => Lt
        | Gt => Gt
        | Eq => (m1 ?= m2)%positive
        end).
Proof. reflexivity. Qed.

Ltac order_cases :=
  repeat match goal with
         | x : float |- _ => destruct x as [[]|[]| |[] ? ?]
         end;
  cbn [has_sign] in *; try contradiction; try discriminate;
  unfold SFltb, SFleb in *; rewrite ?SFcompare_finite in *;
  try (cbn in *; congruence);
  repeat match goal with
         | H : context [?a ?= ?b] |- _ => destruct (Z.compare_spec a b)
         | |- context [?a ?= ?b] => destruct (Z.compare_spec a b)
         | H : context [(?a ?= ?b)%positive] |- _ => destruct (Pos.compare_spec a b)
         | |- context [(?a ?= ?b)%positive] => destruct (Pos.compare_spec a b)
         end;
  subst; try congruence; try lia.

Lemma SFltb_asym (x y : float) :
  has_sign false x -> has_sign false y -> SFltb x y = true -> SFltb y x = false.
Proof. intros Hx Hy. order_cases. Qed.

Lemma SFltb_false_trans (x y z : float) :
  has_sign false x -> has_sign false y -> has_sign false z ->
  SFltb x y = false -> SFltb y z = false -> SFltb x z = false.
Proof. intros Hx Hy Hz. order_cases. Qed.

Lemma SFltb_false_leb (x y : float) :
  has_sign false x -> has_sign false y -> SFltb x y = false -> SFleb y x = true.
Proof. intros Hx Hy. order_cases. Qed.

Lemma SFleb_not_nan (x y : float) : SFleb x y = true -> y <> S754_nan.
Proof. intros H ->. destruct x as [[]|[]| |[] ? ?]; discriminate. Qed.

Lemma fdiv_by_finite (x : float) (m : positive) (e : Z) :
  has_sign false x -> has_sign false (fdiv x (S754_finite false m e)).
Proof.
  intros Hx.
  destruct (fdiv_sign x (S754_finite false m e) Hx eq_refl) as [E|H]; [|exact H].
  destruct x as [sx|sx| |sx mx ex]; cbn in Hx; subst; try discriminate; try contradiction.
  exfalso. unfold fdiv, SFdiv in E.
  destruct (SFdiv_core_binary _ _ _ _ _ _) as [[mz ez] lz] eqn:Ec.
  assert (Hs : has_sign (xorb false false) (binary_round_aux float_prec float_emax
                                              (xorb false false) mz ez lz)).
  { apply binary_round_aux_sign.
    unfold SFdiv_core_binary in Ec. cbv zeta in Ec.
    match type of Ec with
    | (let '(q, r) := IntDef.Z.div_eucl ?a ?b in _) = _ =>
        change (IntDef.Z.div_eucl a b) with (Z.div_eucl a b) in Ec;
        pose proof (Z_div_mod a b eq_refl) as Hdm;
        assert (Ha : 0 <= a); [| destruct (Z.div_eucl a b) as [q r] ]
    end.
    - destruct (_ - _ - _); try lia. apply Z.shiftl_nonneg. lia.
    - injection Ec as <- _ _. nia. }
  rewrite E in Hs. exact Hs.
Qed.

Lemma has_sign_not_nan (s : bool) (x : float) : has_sign s x -> is_nan x = false.
Proof. destruct x; simpl; intros H; auto; contradiction. Qed.

(** The quotient of two converted counters is NaN exactly when the divisor
    is zero, provided the dividend is zero whenever the divisor is. *)
Lemma fdiv_uint_nan (a b : Z) :
  is_uint a -> is_uint b -> (b = 0 -> a = 0) ->
  (is_nan (fdiv (float_of_uint a) (float_of_uint b)) = true <-> b = 0).
Proof.
  unfold is_uint, UINT_MAX. intros Ha Hb Hz. split.
  - intros Hnan. destruct (Z.eq_dec b 0) as [|Hb0]; [assumption|exfalso].
    destruct (float_of_uint_finite b) as (m & e & E); [lia|].
    rewrite E in Hnan.
    rewrite (has_sign_not_nan false) in Hnan; [discriminate|].
    apply fdiv_by_finite, float_of_uint_sign. lia.
  - intros ->. rewrite (Hz eq_refl). reflexivity.
Qed.

(** ** The traversal of an attack vector: shape of the result *)

Lemma SingleAttack_uint (rand : nat -> Z) (fuel : nat) (f t : Z) (pos : nat) rf rt pos' :
  SingleAttack rand fuel f t pos = Some ((rf, rt), pos') -> is_uint rf /\ is_uint rt.
Proof.
  unfold SingleAttack. intros H.
  apply bind_Some in H. destruct H as (ad & p1 & _ & H).
  apply bind_Some in H. destruct H as (dd & p2 & _ & H).
  destruct (count_losses _ _ _ _ _ _) as [la ld].
  unfold ret in H. injection H as <- <- _. split; apply uint_is_uint.
Qed.

Lemma AttackTerritory_loop_uint (rand : nat -> Z) (fuel rounds : nat) :
  forall f t pos rf rt pos',
    AttackTerritory_loop rand fuel rounds f t pos = Some ((rf, rt), pos') ->
    is_uint f -> is_uint t -> is_uint rf /\ is_uint rt.
Proof.
  induction rounds as [|rounds IH]; intros f t pos rf rt pos' H Hf Ht;
    cbn [AttackTerritory_loop] in H;
    destruct ((f >? MIN_TERRITORY_UNITS) && (t >? 0)).
  - discriminate.
  - injection H as <- <- _. auto.
  - apply bind_Some in H. destruct H as ([f1 t1] & p1 & Hs & H).
    apply SingleAttack_uint in Hs. destruct Hs. eapply IH; eauto.
  - injection H as <- <- _. auto.
Qed.

(** A run of the traversal either conquers every territory or stops on the
    territory whose index is the conquered count, with the defenders that
    [AttackTerritory] left there. *)
Lemma SimAttack_loop_shape (rand : nat -> Z) (fuel : nat) (ts : list territory_def) :
  forall front c pos r pos',
    SimAttack_loop rand fuel ts front c pos = Some (r, pos') ->
    Forall (fun t => is_uint (units t)) ts -> is_uint front ->
    is_uint (enemy_units_on_front r) /\ is_uint (result_units_on_front r) /\
    ((enemy_units_on_front r = 0
      /\ conquered_territory_count r = c + Z.of_nat (List.length ts))
     \/ (enemy_units_on_front r <> 0
         /\ exists k stopped front' pos0,
             nth_error ts k = Some stopped
             /\ conquered_territory_count r = c + Z.of_nat k
             /\ AttackTerritory rand fuel front' stopped pos0 =
                  Some ((result_units_on_front r, enemy_units_on_front r), pos'))).
Proof.
  induction ts as [|t rest IH]; intros front c pos r pos' H Hts Hfront.
  - discriminate.
  - cbn [SimAttack_loop] in H.
    apply bind_Some in H. destruct H as ([rf rt] & p1 & Ha & H).
    inversion Hts as [|? ? Ht Hrest]; subst.
    pose proof Ha as Hu. unfold AttackTerritory in Hu.
    apply AttackTerritory_loop_uint in Hu; auto. destruct Hu as [Hrf Hrt].
    destruct (Z.eqb_spec rt 0) as [E|E].
    + destruct rest as [|t' rest'].
      * unfold ret in H. injection H as <- <-. cbn.
        split; [assumption|]. split; [apply uint_is_uint|].
        left. split; [assumption | lia].
      * apply IH in H; auto using uint_is_uint.
        destruct H as (He & Hf & [[H0 Hc]|[Hn (k & s & f' & p0 & Hk & Hc & Hat)]]).
        -- split; [assumption|]. split; [assumption|]. left.
           split; [assumption|]. rewrite Hc. cbn [List.length]. lia.
        -- split; [assumption|]. split; [assumption|]. right.
           split; [assumption|]. exists (S k), s, f', p0.
           split; [exact Hk|]. split; [lia | exact Hat].
    + unfold ret in H. injection H as <- <-. cbn.
      split; [assumption|]. split; [assumption|]. right.
      split; [assumption|]. exists 0%nat, t, front, pos.
      split; [reflexivity|]. split; [lia | exact Ha].
Qed.

(** ** The accounting of a lost run *)

Lemma add_territory_units_sum (ts : list territory_def) :
  forall e, is_uint e -> add_territory_units ts e = uint (e + total_units ts).
Proof.
  induction ts as [|t ts IH]; intros e He; cbn [add_territory_units total_units fold_right].
  - rewrite Z.add_0_r. symmetry. now apply uint_small.
  - rewrite IH by apply uint_is_uint.
    fold (total_units ts). unfold uint.
    rewrite Zplus_mod_idemp_l. f_equal. lia.
Qed.

Lemma uint_add_uint_r (a b : Z) : uint (a + uint b) = uint (a + b).
Proof. unfold uint. apply Zplus_mod_idemp_r. Qed.

Lemma Forall_after {A} (P : A -> Prop) (n : nat) :
  forall l, Forall P l -> Forall P (skipn n l).
Proof.
  induction n as [|n IH]; intros l Hl; [exact Hl|].
  destruct Hl as [|x l Hx Hl]; cbn [skipn]; auto.
Qed.

Lemma total_units_nonneg (l : list territory_def) :
  Forall (fun t => is_uint (units t)) l -> 0 <= total_units l.
Proof.
  induction 1 as [|t l Ht _ IH]; cbn; [lia|].
  unfold is_uint in Ht. fold (total_units l). lia.
Qed.

(** C5, as amended.  When a run is a loss, it stopped on the territory
    whose index is the conquered count, and [enemy_units_on_front] is what
    [AttackTerritory] left there.  The run adds to the enemy counter the
    remaining defenders of that territory plus the original defenders of
    every territory strictly after it, reduced modulo 2^32 (so exactly that
    sum whenever the counter stays below 2^32), and it adds to the territory
    counter the territory count minus the conquered count, which counts the
    territory on which the assault failed. *)
Theorem lost_run_accounting
        (rand : nat -> Z) (fuel : nat) (av : attack_vector_def) (bonus_units : Z)
        (pos pos' : nat) (r : attack_result) (c : counters) :
  vector_ok av ->
  SimAttack rand fuel av bonus_units pos = Some (r, pos') ->
  enemy_units_on_front r <> 0 ->
  exists k stopped front' pos0,
    nth_error (territory_vector av) k = Some stopped
    /\ conquered_territory_count r = Z.of_nat k
    /\ AttackTerritory rand fuel front' stopped pos0 =
         Some ((result_units_on_front r, enemy_units_on_front r), pos')
    /\ let owed := enemy_units_on_front r
                   + total_units (skipn (S k) (territory_vector av)) in
       let c' := tally_run av r c in
       sum_total_enemy_units_remaining c' =
         uint (sum_total_enemy_units_remaining c + owed)
       /\ (0 <= sum_total_enemy_units_remaining c ->
           sum_total_enemy_units_remaining c + owed <= UINT_MAX ->
           sum_total_enemy_units_remaining c' =
             sum_total_enemy_units_remaining c + owed)
       /\ sum_total_territories_remaining c' =
            uint (sum_total_territories_remaining c
                  + (territory_count av - Z.of_nat k))
       /\ territory_count av - Z.of_nat k =
            Z.of_nat (List.length (skipn k (territory_vector av)))
       /\ 1 <= territory_count av - Z.of_nat k
       /\ sum_loss_count c' = uint (sum_loss_count c + 1)
       /\ sum_win_count c' = sum_win_count c
       /\ sum_total_units_on_front c' = sum_total_units_on_front c.
Proof.
  intros (Hfront & Hne & Hcount & Hunits) Hrun Hloss.
  unfold SimAttack in Hrun.
  apply SimAttack_loop_shape in Hrun; auto using uint_is_uint.
  destruct Hrun as (He & Hf & [[H0 _]|[_ (k & s & f' & p0 & Hk & Hc & Hat)]]);
    [contradiction|].
  rewrite Z.add_0_l in Hc.
  exists k, s, f', p0. split; [exact Hk|]. split; [exact Hc|]. split; [exact Hat|].
  assert (Hlt : (k < List.length (territory_vector av))%nat).
  { apply nth_error_Some. rewrite Hk. discriminate. }
  unfold territory_count, MAX_TERRITORY_VECTOR_SIZE in *.
  assert (Eowed : enemy_units_remaining av r =
                  uint (enemy_units_on_front r
                        + total_units (skipn (S k) (territory_vector av)))).
  { unfold enemy_units_remaining. rewrite Hc.
    rewrite uint_small by (unfold is_uint, UINT_MAX; lia).
    replace (Z.to_nat (Z.of_nat k + 1)) with (S k) by lia.
    now apply add_territory_units_sum. }
  cbv zeta. unfold tally_run.
  destruct (Z.eqb_spec (enemy_units_on_front r) 0) as [|_]; [contradiction|].
  cbn [sum_total_enemy_units_remaining sum_total_territories_remaining
       sum_loss_count sum_win_count sum_total_units_on_front].
  rewrite Eowed, !uint_add_uint_r, Hc.
  assert (Hpos : 0 <= total_units (skipn (S k) (territory_vector av)))
    by (apply total_units_nonneg, Forall_after, Hunits).
  repeat split; try reflexivity.
  - intros H1 H2. apply uint_small. unfold is_uint in *. lia.
  - rewrite length_skipn. lia.
  - lia.
Qed.

Lemma lost_run_accounting_witness :
  exists k stopped front' pos0,
    nth_error (territory_vector crowded_vector) k = Some stopped
    /\ conquered_territory_count
         {| conquered_territory_count := 0; result_units_on_front := 1;
            enemy_units_on_front := INT_MAX |} = Z.of_nat k
    /\ AttackTerritory sample_rand 0 front' stopped pos0 = Some ((1, INT_MAX), 0%nat)
    /\ let owed := INT_MAX + total_units (skipn (S k) (territory_vector crowded_vector)) in
       let c' := tally_run crowded_vector
                   {| conquered_territory_count := 0; result_units_on_front := 1;
                      enemy_units_on_front := INT_MAX |} no_counts in
       sum_total_enemy_units_remaining c' = uint (0 + owed)
       /\ (0 <= 0 -> 0 + owed <= UINT_MAX ->
           sum_total_enemy_units_remaining c' = 0 + owed)
       /\ sum_total_territories_remaining c' =
            uint (0 + (territory_count crowded_vector - Z.of_nat k))
       /\ territory_count crowded_vector - Z.of_nat k =
            Z.of_nat (List.length (skipn k (territory_vector crowded_vector)))
       /\ 1 <= territory_count crowded_vector - Z.of_nat k
       /\ sum_loss_count c' = uint (0 + 1)
       /\ sum_win_count c' = 0
       /\ sum_total_units_on_front c' = 0.
Proof.
  apply (lost_run_accounting sample_rand 0 crowded_vector 0 0 0
           {| conquered_territory_count := 0; result_units_on_front := 1;
              enemy_units_on_front := INT_MAX |} no_counts).
  - unfold vector_ok, crowded_vector, is_uint, territory_count,
      MAX_TERRITORY_VECTOR_SIZE, UINT_MAX, INT_MAX; simpl.
    repeat split; try lia; try discriminate.
    repeat constructor; simpl; lia.
  - reflexivity.
  - discriminate.
Defined.

(** C5 as it is worded fails: with three territories of 2147483647
    defenders and one unit on the front, the run is lost on the first
    territory with all its defenders left; the defenders still to overcome
    are 3 * 2147483647 = 6442450941, and the counter holds 2147483645. *)
Lemma lost_run_accounting_overflows :
  exists r c,
    SimAttack sample_rand 0 crowded_vector 0 0%nat = Some (r, 0%nat)
    /\ enemy_units_on_front r = INT_MAX
    /\ conquered_territory_count r = 0
    /\ PredictAttack_counters sample_rand 0 crowded_vector 0 1 0%nat = Some (c, 0%nat)
    /\ sum_loss_count c = 1
    /\ sum_total_enemy_units_remaining c = 2147483645
    /\ enemy_units_on_front r
       + total_units (skipn 1 (territory_vector crowded_vector)) = 6442450941
    /\ sum_total_enemy_units_remaining c <>
       enemy_units_on_front r
       + total_units (skipn 1 (territory_vector crowded_vector)).
Proof.
  eexists. eexists.
  split; [reflexivity|]. split; [reflexivity|]. split; [reflexivity|].
  split; [reflexivity|]. split; [reflexivity|]. split; [reflexivity|].
  split; [reflexivity|]. discriminate.
Qed.

(** ** The outcome predictor *)

Section PredictorProperties.
Variable rand : nat -> Z.
Hypothesis rand_range : forall n, 0 <= rand n <= INT_MAX.

Lemma AttackTerritory_total (fuel : nat) (f : Z) (t : territory_def) (pos : nat) :
  enough_fuel fuel -> is_uint f -> is_uint (units t) ->
  exists rf rt pos',
    AttackTerritory rand fuel f t pos = Some ((rf, rt), pos')
    /\ is_uint rf /\ is_uint rt.
Proof.
  unfold enough_fuel, is_uint. intros Hfuel Hf Ht. unfold AttackTerritory.
  destruct fuel as [|fuel]; [unfold UINT_MAX in Hfuel; lia|].
  destruct (AttackTerritory_loop_total rand rand_range fuel (S fuel) f (units t) pos)
    as (rf & rt & pos' & Hl & _ & Hrf & Hrt & _); try lia.
  exists rf, rt, pos'. split; [exact Hl|]. unfold is_uint. lia.
Qed.

Lemma SimAttack_loop_total (fuel : nat) (ts : list territory_def) :
  enough_fuel fuel ->
  forall front c pos,
    ts <> [] -> Forall (fun t => is_uint (units t)) ts -> is_uint front ->
    exists r pos', SimAttack_loop rand fuel ts front c pos = Some (r, pos').
Proof.
  intros Hfuel. induction ts as [|t rest IH]; intros front c pos Hne Hts Hfront.
  - contradiction.
  - inversion Hts as [|? ? Ht Hrest]; subst.
    destruct (AttackTerritory_total fuel front t pos Hfuel Hfront Ht)
      as (rf & rt & p1 & Ha & Hrf & Hrt).
    cbn [SimAttack_loop]. rewrite (bind_eq _ _ _ _ _ Ha).
    destruct (rt =? 0); [|unfold ret; eauto].
    destruct rest as [|t' rest']; [unfold ret; eauto|].
    apply IH; auto using uint_is_uint. discriminate.
Qed.

Lemma SimAttack_total (fuel : nat) (av : attack_vector_def) (bonus_units : Z)
      (pos : nat) :
  enough_fuel fuel -> vector_ok av ->
  exists r pos', SimAttack rand fuel av bonus_units pos = Some (r, pos').
Proof.
  intros Hfuel (_ & Hne & _ & Hunits). unfold SimAttack.
  apply SimAttack_loop_total; auto using uint_is_uint.
Qed.

Lemma tally_run_ok (av : attack_vector_def) (r : attack_result) (c : counters) (k : Z) :
  counters_ok k c -> k < UINT_MAX -> counters_ok (k + 1) (tally_run av r c).
Proof.
  intros (Hw & Hl & Hk & Hu & He & Ht & Hw0 & Hl0) Hlt.
  unfold tally_run, counters_ok.
  destruct (enemy_units_on_front r =? 0);
    cbn [sum_win_count sum_loss_count sum_total_units_on_front
         sum_total_enemy_units_remaining sum_total_territories_remaining];
    rewrite (uint_small (_ + 1)) by (unfold is_uint; lia);
    repeat match goal with |- _ /\ _ => split end;
    auto using uint_is_uint; try lia.
Qed.

Lemma PredictAttack_loop_total (fuel : nat) (av : attack_vector_def) (bonus_units : Z) :
  enough_fuel fuel -> vector_ok av ->
  forall (remaining : nat) (c : counters) (k : Z) (pos : nat),
    counters_ok k c -> k + Z.of_nat remaining <= UINT_MAX ->
    exists c' pos',
      PredictAttack_loop rand fuel av bonus_units remaining c pos = Some (c', pos')
      /\ counters_ok (k + Z.of_nat remaining) c'.
Proof.
  intros Hfuel Hav. induction remaining as [|n IH]; intros c k pos Hc Hk.
  - exists c, pos. split; [reflexivity|]. now rewrite Z.add_0_r.
  - destruct (SimAttack_total fuel av bonus_units pos Hfuel Hav) as (r & p1 & Hr).
    cbn [PredictAttack_loop]. rewrite (bind_eq _ _ _ _ _ Hr).
    destruct (IH (tally_run av r c) (k + 1) p1) as (c' & pos' & Hl & Hc').
    + apply tally_run_ok; [assumption | lia].
    + lia.
    + exists c', pos'. split; [exact Hl|].
      replace (k + Z.of_nat (S n)) with (k + 1 + Z.of_nat n) by lia. exact Hc'.
Qed.

End PredictorProperties.

Lemma no_counts_ok : counters_ok 0 no_counts.
Proof.
  unfold counters_ok, no_counts, is_uint, UINT_MAX; simpl. repeat split; lia.
Qed.

Lemma enough_fuel_exists : exists fuel, enough_fuel fuel.
Proof.
  exists (Z.to_nat (2 * (UINT_MAX + 1))). unfold enough_fuel.
  rewrite Z2Nat.id; [lia | unfold UINT_MAX; lia].
Qed.

Lemma enough_fuel_mono (fuel fuel' : nat) :
  enough_fuel fuel -> (fuel <= fuel')%nat -> enough_fuel fuel'.
Proof. unfold enough_fuel. lia. Qed.

(** C6. [PredictAttack] returns a prediction (it has no failing path):
    the two counts add up to the iteration count, the win likelihood is the
    quotient of the win count by that total, the field conditioned on a win
    is NaN exactly when the win count is 0, the two fields conditioned on a
    loss are NaN exactly when the loss count is 0, and with 0 iterations all
    four are NaN; a NaN is none of the two zeros. *)
Theorem PredictAttack_counts_and_undefined
        (rand : nat -> Z) (av : attack_vector_def) (bonus_units sim_iterations : Z)
        (pos : nat) :
  (forall n, 0 <= rand n <= INT_MAX) ->
  vector_ok av ->
  0 <= sim_iterations <= UINT_MAX ->
  exists fuel0, forall fuel, (fuel0 <= fuel)%nat ->
  exists p pos',
    PredictAttack rand fuel av bonus_units sim_iterations pos = Some (p, pos')
    /\ win_count p + loss_count p = sim_iterations
    /\ 0 <= win_count p /\ 0 <= loss_count p
    /\ win_likelihood p =
         fdiv (float_of_uint (win_count p))
              (float_of_uint (win_count p + loss_count p))
    /\ (is_nan (win_likelihood p) = true <-> sim_iterations = 0)
    /\ (is_nan (estimated_remaining_units_if_win p) = true <-> win_count p = 0)
    /\ (is_nan (estimated_remaining_enemies_if_loss p) = true <-> loss_count p = 0)
    /\ (is_nan (estimated_remaining_territories_if_loss p) = true
        <-> loss_count p = 0)
    /\ (sim_iterations = 0 ->
        win_likelihood p = S754_nan
        /\ estimated_remaining_units_if_win p = S754_nan
        /\ estimated_remaining_enemies_if_loss p = S754_nan
        /\ estimated_remaining_territories_if_loss p = S754_nan).
Proof.
  intros Hr Hav Hit.
  destruct enough_fuel_exists as (fuel0 & Hfuel0). exists fuel0. intros fuel Hle.
  pose proof (enough_fuel_mono _ _ Hfuel0 Hle) as Hfuel.
  destruct (PredictAttack_loop_total rand Hr fuel av bonus_units Hfuel Hav
              (Z.to_nat sim_iterations) no_counts 0 pos no_counts_ok)
    as (c & pos' & Hl & Hc); [lia|].
  rewrite Z.add_0_l, Z2Nat.id in Hc by lia.
  exists (prediction_of c), pos'.
  unfold PredictAttack, PredictAttack_counters.
  rewrite (bind_eq _ _ _ _ _ Hl). split; [reflexivity|].
  destruct Hc as (Hw & Hlo & Hk & Hu & He & Ht & Hw0 & Hl0).
  cbn [prediction_of win_count loss_count win_likelihood
       estimated_remaining_units_if_win estimated_remaining_enemies_if_loss
       estimated_remaining_territories_if_loss].
  assert (Hsum : uint (sum_win_count c + sum_loss_count c)
                 = sum_win_count c + sum_loss_count c)
    by (apply uint_small; unfold is_uint; lia).
  rewrite Hsum.
  assert (Hwu : is_uint (sum_win_count c)) by (unfold is_uint; lia).
  assert (Hlu : is_uint (sum_loss_count c)) by (unfold is_uint; lia).
  assert (Hsu : is_uint (sum_win_count c + sum_loss_count c)) by (unfold is_uint; lia).
  split; [exact Hk|]. split; [exact Hw|]. split; [exact Hlo|].
  split; [reflexivity|].
  split; [rewrite fdiv_uint_nan by (auto; lia); lia|].
  split; [apply fdiv_uint_nan; auto|].
  split; [apply fdiv_uint_nan; auto; intros E; apply Hl0, E|].
  split; [apply fdiv_uint_nan; auto; intros E; apply Hl0, E|].
  intros E0.
  assert (sum_win_count c = 0) as Ew by lia.
  assert (sum_loss_count c = 0) as El by lia.
  destruct (Hl0 El) as [E1 E2].
  rewrite Ew, El, (Hw0 Ew), E1, E2. repeat split; reflexivity.
Qed.

Lemma sample_vector_ok : vector_ok sample_vector.
Proof.
  unfold vector_ok, sample_vector, is_uint, territory_count,
    MAX_TERRITORY_VECTOR_SIZE, UINT_MAX; simpl.
  repeat split; try lia; try discriminate.
  repeat constructor; simpl; lia.
Qed.

Lemma PredictAttack_counts_and_undefined_witness :
  exists fuel0, forall fuel, (fuel0 <= fuel)%nat ->
  exists p pos',
    PredictAttack sample_rand fuel sample_vector 2 5 0%nat = Some (p, pos')
    /\ win_count p + loss_count p = 5
    /\ 0 <= win_count p /\ 0 <= loss_count p
    /\ win_likelihood p =
         fdiv (float_of_uint (win_count p))
              (float_of_uint (win_count p + loss_count p))
    /\ (is_nan (win_likelihood p) = true <-> 5 = 0)
    /\ (is_nan (estimated_remaining_units_if_win p) = true <-> win_count p = 0)
    /\ (is_nan (estimated_remaining_enemies_if_loss p) = true <-> loss_count p = 0)
    /\ (is_nan (estimated_remaining_territories_if_loss p) = true
        <-> loss_count p = 0)
    /\ (5 = 0 ->
        win_likelihood p = S754_nan
        /\ estimated_remaining_units_if_win p = S754_nan
        /\ estimated_remaining_enemies_if_loss p = S754_nan
        /\ estimated_remaining_territories_if_loss p = S754_nan).
Proof.
  apply (PredictAttack_counts_and_undefined sample_rand sample_vector 2 5 0).
  - exact sample_rand_range.
  - exact sample_vector_ok.
  - unfold UINT_MAX; lia.
Defined.

(** ** The enumeration of the bonus combinations *)

Lemma next_of_inner (B i : Z) (rest : list Z) :
  0 <= i < B -> B <= UINT_MAX -> next_of B (i :: rest) = Some (i + 1 :: rest).
Proof.
  intros Hi HB. unfold next_of. cbn [NextCombination].
  rewrite uint_small by (unfold is_uint; lia).
  destruct (Z.leb_spec (i + 1) B); [reflexivity | lia].
Qed.

Lemma next_of_carry (B : Z) (rest : list Z) :
  0 <= B < UINT_MAX ->
  next_of B (B :: rest) = option_map (cons 0) (next_of B rest).
Proof.
  intros HB. unfold next_of. cbn [NextCombination].
  rewrite uint_small by (unfold is_uint; lia).
  destruct (Z.leb_spec (B + 1) B); [lia|].
  destruct (NextCombination rest B) as [[] rest']; reflexivity.
Qed.

(** A block from digit [i] on, followed by the blocks [tail]. *)
Lemma chain_block (B : nat) (rest : list Z) (tail : list (list Z)) :
  Z.of_nat B < UINT_MAX ->
  match tail with
  | [] => next_of (Z.of_nat B) rest = None
  | second :: others =>
      exists rest', second = 0 :: rest'
                    /\ next_of (Z.of_nat B) rest = Some rest'
                    /\ chain (Z.of_nat B) second others
  end ->
  forall (k i : nat), (i + k = B)%nat ->
    chain (Z.of_nat B) (Z.of_nat i :: rest)
          (map (fun j => Z.of_nat j :: rest) (seq (S i) k) ++ tail).
Proof.
  intros HB Htail. induction k as [|k IH]; intros i Hik.
  - cbn [seq map app]. replace i with B by lia.
    destruct tail as [|second others].
    + cbn [chain]. rewrite next_of_carry, Htail by lia. reflexivity.
    + destruct Htail as (rest' & -> & Hn & Hc). cbn [chain].
      rewrite next_of_carry, Hn by lia. split; [reflexivity | exact Hc].
  - cbn [seq map app chain]. split.
    + rewrite next_of_inner by lia. f_equal. f_equal. lia.
    + apply IH. lia.
Qed.

Lemma digit_block_cons (B : nat) (rest : list Z) :
  digit_block B rest = (0 :: rest) :: map (fun j => Z.of_nat j :: rest) (seq 1 B).
Proof. reflexivity. Qed.

Lemma chain_blocks (B : nat) :
  Z.of_nat B < UINT_MAX ->
  forall (first : list Z) (others : list (list Z)),
    chain (Z.of_nat B) first others ->
    exists others',
      flat_map (digit_block B) (first :: others) = (0 :: first) :: others'
      /\ chain (Z.of_nat B) (0 :: first) others'.
Proof.
  intros HB first others. revert first.
  induction others as [|second others IH]; intros first Hc.
  - cbn [chain] in Hc. cbn [flat_map]. rewrite app_nil_r, digit_block_cons.
    eexists. split; [reflexivity|].
    pose proof (chain_block B first [] HB Hc B 0 eq_refl) as H.
    rewrite app_nil_r in H. exact H.
  - destruct Hc as [Hn Hc]. destruct (IH second Hc) as (others' & E & Hc').
    cbn [flat_map] in *. rewrite E, digit_block_cons.
    eexists. split; [reflexivity|].
    assert (Ht : exists rest', (0 :: second) = 0 :: rest'
                          /\ next_of (Z.of_nat B) first = Some rest'
                          /\ chain (Z.of_nat B) (0 :: second) others')
      by (exists second; auto).
    exact (chain_block B first ((0 :: second) :: others') HB Ht B 0%nat eq_refl).
Qed.

Lemma all_combinations_chain (V B : nat) :
  Z.of_nat B < UINT_MAX ->
  exists others,
    all_combinations V B = InitCombinations V :: others
    /\ chain (Z.of_nat B) (InitCombinations V) others.
Proof.
  intros HB. induction V as [|V (others & E & Hc)].
  - exists []. split; reflexivity.
  - cbn [all_combinations]. rewrite E.
    destruct (chain_blocks B HB _ _ Hc) as (others' & E' & Hc').
    exists others'. split; assumption.
Qed.

Lemma all_combinations_In (V B : nat) (t : list Z) :
  In t (all_combinations V B) <-> bonus_tuple V (Z.of_nat B) t.
Proof.
  unfold bonus_tuple. revert t. induction V as [|V IH]; intros t; cbn [all_combinations].
  - split.
    + intros [<-|[]]. split; [reflexivity | constructor].
    + intros [Hl _]. destruct t; [left; reflexivity | discriminate].
  - rewrite in_flat_map. unfold digit_block. split.
    + intros (rest & Hrest & Hin). apply in_map_iff in Hin.
      destruct Hin as (i & <- & Hi). apply in_seq in Hi. apply IH in Hrest.
      destruct Hrest as [Hl Hall]. split; [cbn; lia|].
      constructor; [lia | assumption].
    + intros [Hl Hall]. destruct t as [|d rest]; [discriminate|].
      inversion Hall as [|? ? Hd Hrest]; subst.
      exists rest. split; [apply IH; split; [cbn in Hl; lia | assumption]|].
      apply in_map_iff. exists (Z.to_nat d). split; [f_equal; lia|].
      apply in_seq. lia.
Qed.

Lemma NoDup_flat_map_blocks {A B} (f : A -> list B) (l : list A) :
  NoDup l -> (forall x, In x l -> NoDup (f x)) ->
  (forall x y z, In x l -> In y l -> In z (f x) -> In z (f y) -> x = y) ->
  NoDup (flat_map f l).
Proof.
  induction 1 as [|x l Hx Hl IH]; intros Hf Hd; cbn [flat_map]; [constructor|].
  apply NoDup_app.
  - apply Hf. now left.
  - apply IH; [intros; apply Hf; now right|].
    intros a b z Ha Hb. apply Hd; now right.
  - intros z Hz Hz'. apply in_flat_map in Hz'. destruct Hz' as (y & Hy & Hzy).
    assert (x = y) by (apply (Hd x y z); auto; [now left | now right]).
    subst. contradiction.
Qed.

Lemma NoDup_map_injective {A B} (f : A -> B) (l : list A) :
  (forall x y, f x = f y -> x = y) -> NoDup l -> NoDup (map f l).
Proof.
  intros Hf. induction 1 as [|x l Hx Hl IH]; cbn [map]; constructor; auto.
  intros Hin. apply in_map_iff in Hin. destruct Hin as (y & E & Hy).
  apply Hf in E. subst. contradiction.
Qed.

Lemma all_combinations_NoDup (V B : nat) : NoDup (all_combinations V B).
Proof.
  induction V as [|V IH]; cbn [all_combinations].
  - constructor; [intros [] | constructor].
  - apply NoDup_flat_map_blocks; [exact IH | |].
    + intros rest _. unfold digit_block.
      apply NoDup_map_injective; [|apply seq_NoDup].
      intros i j E. injection E as E. lia.
    + intros x y z _ _ Hx Hy. unfold digit_block in *.
      apply in_map_iff in Hx. destruct Hx as (i & <- & _).
      apply in_map_iff in Hy. destruct Hy as (j & E & _).
      injection E as _ E. auto.
Qed.

(** ** The plan under the cursor *)

Lemma plan_of_setups (table : list (list attack_setup)) (t : list Z) :
  setups (snd (plan_of table t)) = chosen_setups table t.
Proof.
  unfold plan_of, chosen_setups.
  induction (combine table t) as [|cell l IH]; cbn [fold_right map snd setups].
  - reflexivity.
  - now rewrite IH.
Qed.

Lemma plan_of_score (table : list (list attack_setup)) (t : list Z) :
  total_score (snd (plan_of table t)) = score_sum (chosen_setups table t).
Proof.
  unfold plan_of, chosen_setups, score_sum.
  induction (combine table t) as [|cell l IH]; cbn [fold_right map snd total_score].
  - reflexivity.
  - now rewrite IH.
Qed.

Lemma plan_of_total_bonus (table : list (list attack_setup)) :
  forall t, List.length t = List.length table ->
            fst (plan_of table t) = uint (total_bonus t).
Proof.
  unfold plan_of.
  induction table as [|row table IH]; intros [|b t] Hl; try discriminate.
  - reflexivity.
  - cbn [combine fold_right fst snd total_bonus].
    rewrite IH by (cbn in Hl; lia).
    fold (total_bonus t). unfold uint.
    rewrite Zplus_mod_idemp_l. f_equal. lia.
Qed.

Lemma make_setup_inv (rand : nat -> Z) (fuel : nat) (av : attack_vector_def)
      (b : Z) (thr : float) (iters : Z) (pos pos' : nat) (s : attack_setup) :
  make_setup rand fuel av b thr iters pos = Some (s, pos') ->
  attack_vector s = av /\ bonus s = b
  /\ score s = gate_score (win_likelihood (prediction s)) thr
  /\ PredictAttack rand fuel av b iters pos = Some (prediction s, pos').
Proof.
  unfold make_setup. intros H. apply bind_Some in H.
  destruct H as (p & p1 & Hp & H). unfold ret in H. injection H as <- <-.
  cbn. auto.
Qed.

Section TableProperties.
Variable rand : nat -> Z.
Variable fuel : nat.
Variable thr : float.
Variables iters B : Z.

Lemma chosen_setups_spec (vectors : list attack_vector_def)
      (table : list (list attack_setup)) :
  table_ok rand fuel thr iters B vectors table ->
  forall t, bonus_tuple (List.length vectors) B t ->
    map bonus (chosen_setups table t) = t
    /\ map attack_vector (chosen_setups table t) = vectors
    /\ Forall (fun s => has_sign false (score s)) (chosen_setups table t)
    /\ Forall2 (fun (ab : attack_vector_def * Z) s =>
                  setup_ok rand fuel thr iters (fst ab) (snd ab) s)
               (combine vectors t) (chosen_setups table t).
Proof.
  unfold table_ok, bonus_tuple, chosen_setups.
  induction 1 as [|av row vectors table Hrow Htab IH]; intros t [Hl Hall].
  - destruct t; [|discriminate]. cbn. repeat split; constructor.
  - destruct t as [|b t]; [discriminate|].
    inversion Hall as [|? ? Hb Ht]; subst.
    destruct (IH t) as (E1 & E2 & F1 & F2); [split; [cbn in Hl; lia | assumption]|].
    destruct Hrow as [_ Hcells]. pose proof (Hcells b Hb) as Hcell.
    destruct Hcell as [(p0 & p1 & Hm) Hs].
    destruct (make_setup_inv _ _ _ _ _ _ _ _ _ Hm) as (Ea & Eb & _ & _).
    cbn [combine map fst snd]. rewrite E1, E2, Ea, Eb.
    repeat split; constructor; auto.
Qed.

Lemma keep_plans_bonuses (vectors : list attack_vector_def)
      (table : list (list attack_setup)) (combos : list (list Z)) :
  table_ok rand fuel thr iters B vectors table ->
  Forall (bonus_tuple (List.length vectors) B) combos ->
  map plan_bonuses (keep_plans table B combos) =
  filter (fun t => uint (total_bonus t) =? B) combos.
Proof.
  intros Htab. induction 1 as [|t combos Ht _ IH]; [reflexivity|].
  unfold keep_plans in *. cbn [flat_map filter]. rewrite map_app, IH.
  rewrite plan_of_total_bonus.
  2:{ destruct Ht as [-> _]. exact (Forall2_length Htab). }
  destruct (uint (total_bonus t) =? B); [|reflexivity].
  cbn [map app]. f_equal. unfold plan_bonuses. rewrite plan_of_setups.
  now destruct (chosen_setups_spec vectors table Htab t Ht) as (-> & _).
Qed.

End TableProperties.

(** ** Sums of combinations *)

Lemma total_bonus_bound (V : nat) (B : Z) (t : list Z) :
  bonus_tuple V B t -> 0 <= total_bonus t <= Z.of_nat V * B.
Proof.
  unfold bonus_tuple. revert V. induction t as [|b t IH]; intros V [Hl Hall].
  - cbn in *. subst. lia.
  - destruct V as [|V]; [discriminate|].
    inversion Hall as [|? ? Hb Ht]; subst.
    specialize (IH V (conj (eq_add_S _ _ Hl) Ht)).
    cbn [total_bonus fold_right]. fold (total_bonus t). nia.
Qed.

Lemma uint_exact (x B : Z) :
  0 <= x -> 0 <= B <= UINT_MAX -> x <= B + UINT_MAX -> (uint x = B <-> x = B).
Proof.
  unfold uint, UINT_MAX. intros Hx HB Hle. split.
  - intros E. pose proof (Z.div_mod x (4294967295 + 1) ltac:(lia)) as Hd.
    pose proof (Z.mod_pos_bound x (4294967295 + 1) ltac:(lia)) as Hm.
    rewrite E in Hd. nia.
  - intros ->. apply Z.mod_small. lia.
Qed.

(** ** Counting the combinations *)

Lemma binomial_zero (n : nat) : binomial n 0 = 1%nat.
Proof. now destruct n. Qed.

Lemma binomial_one (n : nat) : binomial n 1 = n.
Proof.
  induction n as [|n IH]; [reflexivity|].
  cbn [binomial]. rewrite IH, binomial_zero. reflexivity.
Qed.

Lemma binomial_above (n : nat) : forall k, (n < k)%nat -> binomial n k = 0%nat.
Proof.
  induction n as [|n IH]; intros k Hk; destruct k as [|k]; try lia; [reflexivity|].
  cbn [binomial]. rewrite !IH by lia. reflexivity.
Qed.

Lemma binomial_diag (n : nat) : binomial n n = 1%nat.
Proof.
  induction n as [|n IH]; [reflexivity|].
  cbn [binomial]. rewrite IH, binomial_above by lia. reflexivity.
Qed.

Lemma count_in_seq (j n : nat) :
  forall a,
    List.length (filter (fun i => Nat.eqb i j) (seq a n))
    = if ((a <=? j) && (j <? a + n))%nat then 1%nat else 0%nat.
Proof.
  induction n as [|n IH]; intros a; cbn [seq filter].
  - destruct (Nat.leb_spec a j), (Nat.ltb_spec j (a + 0)); simpl; lia.
  - destruct (Nat.eqb_spec a j) as [E|E]; cbn [List.length]; rewrite IH;
      destruct (Nat.leb_spec a j), (Nat.leb_spec (S a) j),
        (Nat.ltb_spec j (a + S n)), (Nat.ltb_spec j (S a + n)); simpl; lia.
Qed.

Lemma count_flat_map {A B} (p : B -> bool) (q : A -> bool) (f : A -> list B)
      (l : list A) :
  (forall x, In x l ->
             List.length (filter p (f x)) = if q x then 1%nat else 0%nat) ->
  List.length (filter p (flat_map f l)) = List.length (filter q l).
Proof.
  induction l as [|x l IH]; intros H; [reflexivity|].
  cbn [flat_map filter]. rewrite filter_app, length_app, (H x) by now left.
  rewrite IH by (intros y Hy; apply H; now right).
  destruct (q x); reflexivity.
Qed.

Lemma count_up_to {A} (m : A -> Z) (s : Z) (l : list A) :
  List.length (filter (fun x => m x <=? s + 1) l)
  = Nat.add (List.length (filter (fun x => m x <=? s) l))
            (List.length (filter (fun x => m x =? s + 1) l)).
Proof.
  induction l as [|x l IH]; [reflexivity|]. cbn [filter].
  destruct (Z.leb_spec (m x) (s + 1)), (Z.leb_spec (m x) s), (Z.eqb_spec (m x) (s + 1));
    cbn [List.length]; lia.
Qed.

Section PlanCount.
Variable B : nat.

Lemma all_combinations_nonneg (V : nat) (t : list Z) :
  In t (all_combinations V B) -> 0 <= total_bonus t.
Proof.
  intros Hin. apply all_combinations_In in Hin.
  destruct (total_bonus_bound _ _ _ Hin). lia.
Qed.

Lemma adding_up_succ (V s : nat) :
  (s <= B)%nat -> adding_up B (S V) s = up_to B V s.
Proof.
  intros Hs. unfold adding_up, up_to. cbn [all_combinations].
  apply count_flat_map. intros t Hin.
  pose proof (all_combinations_nonneg V t Hin) as Hpos.
  unfold digit_block.
  assert (Hfilter :
    filter (fun u => total_bonus u =? Z.of_nat s)
           (map (fun i => Z.of_nat i :: t) (seq 0 (S B)))
    = map (fun i => Z.of_nat i :: t)
          (filter (fun i => Nat.eqb i (Z.to_nat (Z.of_nat s - total_bonus t)))
                  (if total_bonus t <=? Z.of_nat s then seq 0 (S B) else []))).
  { destruct (Z.leb_spec (total_bonus t) (Z.of_nat s)) as [Hle|Hgt].
    - induction (seq 0 (S B)) as [|i l IH]; [reflexivity|].
      cbn [map filter]. cbn [total_bonus fold_right]. fold (total_bonus t).
      rewrite IH.
      destruct (Z.eqb_spec (Z.of_nat i + total_bonus t) (Z.of_nat s)),
        (Nat.eqb_spec i (Z.to_nat (Z.of_nat s - total_bonus t)));
        try reflexivity; lia.
    - induction (seq 0 (S B)) as [|i l IH]; [reflexivity|].
      cbn [map filter]. cbn [total_bonus fold_right]. fold (total_bonus t).
      rewrite IH.
      destruct (Z.eqb_spec (Z.of_nat i + total_bonus t) (Z.of_nat s));
        [lia | reflexivity]. }
  rewrite Hfilter, length_map.
  destruct (Z.leb_spec (total_bonus t) (Z.of_nat s)) as [Hle|Hgt]; [|reflexivity].
  rewrite count_in_seq.
  destruct (Nat.leb_spec 0 (Z.to_nat (Z.of_nat s - total_bonus t))),
    (Nat.ltb_spec (Z.to_nat (Z.of_nat s - total_bonus t)) (0 + S B));
    simpl; lia.
Qed.

Lemma up_to_zero (V : nat) : up_to B V 0 = adding_up B V 0.
Proof.
  unfold up_to, adding_up. f_equal. apply filter_ext_in. intros t Hin.
  pose proof (all_combinations_nonneg V t Hin).
  destruct (Z.leb_spec (total_bonus t) (Z.of_nat 0)),
    (Z.eqb_spec (total_bonus t) (Z.of_nat 0)); try reflexivity; lia.
Qed.

Lemma up_to_succ (V s : nat) :
  up_to B V (S s) = (up_to B V s + adding_up B V (S s))%nat.
Proof.
  unfold up_to, adding_up. rewrite Nat2Z.inj_succ. unfold Z.succ.
  apply count_up_to.
Qed.

Lemma adding_up_binomial (n : nat) :
  forall s, (s <= B)%nat -> adding_up B (S n) s = binomial (s + n) n.
Proof.
  induction n as [|n IH]; intros s Hs; rewrite adding_up_succ by exact Hs.
  - unfold up_to. cbn. rewrite binomial_zero. destruct s; reflexivity.
  - induction s as [|s IHs].
    + rewrite up_to_zero, IH by lia. cbn [Nat.add].
      now rewrite !binomial_diag.
    + rewrite up_to_succ, IHs, IH by lia.
      replace (S s + S n)%nat with (S (s + S n)) by lia.
      cbn [binomial]. replace (S s + n)%nat with (s + S n)%nat by lia. lia.
Qed.

End PlanCount.

(** ** The array of plans *)

Lemma NextCombination_length (last : Z) (indices : list Z) :
  List.length (snd (NextCombination indices last)) = List.length indices.
Proof.
  induction indices as [|i rest IH]; [reflexivity|].
  cbn [NextCombination]. destruct (uint (i + 1) <=? last); [reflexivity|].
  destruct (NextCombination rest last) as [state rest'].
  cbn [snd List.length] in *. now rewrite IH.
Qed.

Lemma next_of_length (last : Z) (indices next : list Z) :
  next_of last indices = Some next -> List.length next = List.length indices.
Proof.
  unfold next_of. pose proof (NextCombination_length last indices) as Hl.
  destruct (NextCombination indices last) as [[] nxt]; [discriminate|].
  intros H. injection H as <-. exact Hl.
Qed.

Lemma size_t_small (z : Z) : 0 <= z <= SIZE_MAX -> size_t z = z.
Proof. unfold size_t, SIZE_MAX. intros H. apply Z.mod_small. lia. Qed.

Lemma sizeof_attack_plan_value : sizeof_attack_plan = 144.
Proof. reflexivity. Qed.

Lemma holds_plans_le (granted : Z -> bool) (count count' : Z) :
  count' <= count -> holds_plans granted count -> holds_plans granted count'.
Proof. intros Hle H k Hk Hs. apply H; lia. Qed.

Lemma holds_plans_bound (granted : Z -> bool) (count : Z) :
  0 <= count -> holds_plans granted count ->
  count * sizeof_attack_plan <= SIZE_MAX.
Proof.
  intros Hc H.
  pose proof (Z.div_mod count PLANS_SIZE_INCREMENT ltac:(discriminate)) as Hd.
  pose proof (Z.mod_pos_bound count PLANS_SIZE_INCREMENT ltac:(reflexivity)) as Hm.
  assert (Hq : 0 <= count / PLANS_SIZE_INCREMENT)
    by (apply Z.div_pos; [exact Hc | reflexivity]).
  destruct (H (count / PLANS_SIZE_INCREMENT + 1)) as [Hfit _]; [lia | lia |].
  rewrite sizeof_attack_plan_value in *. lia.
Qed.

Lemma plans_block_array (granted : Z -> bool) (count k : Z) :
  holds_plans granted count ->
  1 <= k -> (k - 1) * PLANS_SIZE_INCREMENT <= count ->
  plans_block granted (k * PLANS_SIZE_INCREMENT) = alloc_array.
Proof.
  intros H Hk Hs. destruct (H k Hk Hs) as [Hfit Hg]. unfold plans_block.
  rewrite size_t_small
    by (rewrite sizeof_attack_plan_value in *; unfold PLANS_SIZE_INCREMENT in *; lia).
  rewrite Hg. now apply Z.leb_le in Hfit as ->.
Qed.

(** Where the allocator lets the array grow, a plan is stored. *)
Lemma store_plan_Ok (granted : Z -> bool) (plan : attack_plan)
      (plans : list attack_plan) (plans_size count : Z) :
  holds_plans granted count ->
  Z.of_nat (List.length plans) < count ->
  array_ok plans plans_size ->
  exists plans_size',
    store_plan granted plan plans plans_size = Ok (plans ++ [plan], plans_size')
    /\ array_ok (plans ++ [plan]) plans_size'.
Proof.
  intros H Hc (k & Hk & -> & Hlo & Hhi).
  pose proof (holds_plans_bound granted count ltac:(lia) H) as Hb.
  rewrite sizeof_attack_plan_value in Hb.
  unfold store_plan, array_ok. rewrite length_app. cbn [List.length].
  rewrite Nat2Z.inj_add. change (Z.of_nat 1) with 1.
  set (n := Z.of_nat (List.length plans)) in *.
  assert (Hinc : PLANS_SIZE_INCREMENT = 100000) by reflexivity.
  assert (Hmax : SIZE_MAX = 18446744073709551615) by reflexivity.
  rewrite (size_t_small (n + 1)) by lia.
  destruct (Z.geb_spec (n + 1) (k * PLANS_SIZE_INCREMENT)) as [Hfull|Hfree].
  - replace (k * PLANS_SIZE_INCREMENT + PLANS_SIZE_INCREMENT)
      with ((k + 1) * PLANS_SIZE_INCREMENT) by ring.
    rewrite (size_t_small ((k + 1) * PLANS_SIZE_INCREMENT)) by lia.
    rewrite (plans_block_array granted count) by (auto; lia).
    eexists. split; [reflexivity|]. exists (k + 1). lia.
  - eexists. split; [reflexivity|]. exists k. lia.
Qed.

Lemma keep_plans_cons (table : list (list attack_setup)) (B : Z) (t : list Z)
      (combos : list (list Z)) :
  keep_plans table B (t :: combos)
  = (if fst (plan_of table t) =? B then [snd (plan_of table t)] else [])
    ++ keep_plans table B combos.
Proof. reflexivity. Qed.

(** The search keeps the plans of the combinations it steps through, as
    long as the allocator lets the array grow. *)
Lemma PlanWar_loop_chain (granted : Z -> bool) (table : list (list attack_setup))
      (B : Z) :
  forall (others : list (list Z)) (first : list Z) (plans : list attack_plan)
         (steps : nat) (plans_size : Z),
    chain B first others -> (List.length others < steps)%nat ->
    Z.of_nat (List.length first) <= MAX_ATTACK_VECTORS ->
    holds_plans granted
      (Z.of_nat (List.length (plans ++ keep_plans table B (first :: others)))) ->
    array_ok plans plans_size ->
    PlanWar_loop granted steps table B first plans plans_size =
    Ok (plans ++ keep_plans table B (first :: others)).
Proof.
  induction others as [|second others IH];
    intros first plans steps plans_size Hc Hs Hcap Hold Hok;
    (destruct steps as [|steps]; [cbn in Hs; lia|]);
    cbn [PlanWar_loop chain] in *;
    (destruct (Z.ltb_spec MAX_ATTACK_VECTORS (Z.of_nat (List.length first)));
     [lia|]);
    rewrite keep_plans_cons in *;
    destruct (plan_of table first) as [total plan] eqn:Ep; cbn [fst snd] in *.
  - unfold next_of in Hc.
    destruct (NextCombination first B) as [[] nxt]; [|discriminate].
    cbn [keep_plans flat_map] in *. rewrite app_nil_r in *.
    destruct (total =? B).
    + destruct (store_plan_Ok granted plan plans plans_size _ Hold) as (size' & -> & _);
        [rewrite length_app; cbn [List.length]; lia | exact Hok | reflexivity].
    + now rewrite app_nil_r.
  - destruct Hc as [Hn Hc]. pose proof (next_of_length _ _ _ Hn) as Hlen.
    unfold next_of in Hn.
    destruct (NextCombination first B) as [[] nxt]; [discriminate|].
    injection Hn as ->.
    destruct (total =? B).
    + destruct (store_plan_Ok granted plan plans plans_size _ Hold) as (size' & -> & Hok');
        [rewrite !length_app; cbn [List.length]; lia | exact Hok |].
      cbn [List.length] in Hs.
      rewrite (IH second (plans ++ [plan]) steps size' Hc); try lia.
      * now rewrite <- List.app_assoc.
      * now rewrite <- List.app_assoc.
      * exact Hok'.
    + cbn [app List.length] in *. apply IH; auto; lia.
Qed.

(** With fewer passes than combinations the search is not over. *)
Lemma PlanWar_loop_short (granted : Z -> bool) (table : list (list attack_setup))
      (B : Z) :
  forall (others : list (list Z)) (first : list Z) (plans : list attack_plan)
         (steps : nat) (plans_size : Z),
    chain B first others -> (steps <= List.length others)%nat ->
    holds_plans granted
      (Z.of_nat (List.length (plans ++ keep_plans table B (first :: others)))) ->
    array_ok plans plans_size ->
    PlanWar_loop granted steps table B first plans plans_size = Undefined.
Proof.
  induction others as [|second others IH];
    intros first plans steps plans_size Hchain Hsteps Hold Hok.
  - simpl in Hsteps. now replace steps with 0%nat by lia.
  - destruct steps as [|steps]; [reflexivity|].
    destruct Hchain as [Hnext Hchain]. unfold next_of in Hnext.
    cbn [PlanWar_loop].
    destruct (MAX_ATTACK_VECTORS <? Z.of_nat (List.length first)); [reflexivity|].
    rewrite keep_plans_cons in Hold.
    destruct (plan_of table first) as [total plan]. cbn [fst snd] in *.
    destruct (NextCombination first B) as [[|] next]; [discriminate|].
    injection Hnext as ->.
    destruct (total =? B).
    + destruct (store_plan_Ok granted plan plans plans_size _ Hold) as (size' & -> & Hok');
        [rewrite !length_app; cbn [List.length]; lia | exact Hok |].
      apply IH; auto; [simpl in Hsteps; lia|]. now rewrite <- List.app_assoc.
    + apply IH; auto. simpl in Hsteps; lia.
Qed.

(** What the search returns fits the array: every block it has asked for
    was granted, and as long as asked. *)
Lemma store_plan_fits (granted : Z -> bool) (plan : attack_plan)
      (plans plans' : list attack_plan) (plans_size plans_size' : Z) :
  store_plan granted plan plans plans_size = Ok (plans', plans_size') ->
  array_ok plans plans_size ->
  holds_plans granted (Z.of_nat (List.length plans)) ->
  plans' = plans ++ [plan]
  /\ array_ok plans' plans_size'
  /\ holds_plans granted (Z.of_nat (List.length plans')).
Proof.
  unfold store_plan, array_ok. rewrite length_app. cbn [List.length].
  rewrite Nat2Z.inj_add. change (Z.of_nat 1) with 1.
  set (n := Z.of_nat (List.length plans)).
  assert (Hinc : PLANS_SIZE_INCREMENT = 100000) by reflexivity.
  assert (Hmax : SIZE_MAX = 18446744073709551615) by reflexivity.
  intros H (k & Hk & -> & Hlo & Hhi) Hold.
  destruct (Hold k Hk Hlo) as [Hfit _]. rewrite sizeof_attack_plan_value in Hfit.
  rewrite (size_t_small (n + 1)) in H by lia.
  destruct (Z.geb_spec (n + 1) (k * PLANS_SIZE_INCREMENT)) as [Hfull|Hfree].
  - replace (k * PLANS_SIZE_INCREMENT + PLANS_SIZE_INCREMENT)
      with ((k + 1) * PLANS_SIZE_INCREMENT) in H by ring.
    rewrite (size_t_small ((k + 1) * PLANS_SIZE_INCREMENT)) in H by lia.
    unfold plans_block in H.
    destruct (Z.leb_spec ((k + 1) * PLANS_SIZE_INCREMENT * sizeof_attack_plan)
                         SIZE_MAX) as [Hfit'|Hwrap].
    + rewrite size_t_small in H by (rewrite sizeof_attack_plan_value in *; lia).
      destruct (granted _) eqn:Eg; [|discriminate].
      injection H as <- <-. rewrite length_app. cbn [List.length].
      rewrite Nat2Z.inj_add. change (Z.of_nat 1) with 1. fold n.
      split; [reflexivity|]. split; [exists (k + 1); lia|].
      intros j Hj Hs.
      destruct (Z.eq_dec j (k + 1)) as [->|Hne]; [auto|].
      apply Hold; lia.
    + destruct (granted _); discriminate.
  - injection H as <- <-. rewrite length_app. cbn [List.length].
    rewrite Nat2Z.inj_add. change (Z.of_nat 1) with 1. fold n.
    split; [reflexivity|]. split; [exists k; lia|].
    intros j Hj Hs. apply Hold; lia.
Qed.

Lemma PlanWar_loop_fits (granted : Z -> bool) (table : list (list attack_setup))
      (B : Z) :
  forall (steps : nat) (first : list Z) (plans result : list attack_plan)
         (plans_size : Z),
    PlanWar_loop granted steps table B first plans plans_size = Ok result ->
    array_ok plans plans_size ->
    holds_plans granted (Z.of_nat (List.length plans)) ->
    Z.of_nat (List.length first) <= MAX_ATTACK_VECTORS
    /\ holds_plans granted (Z.of_nat (List.length result))
    /\ forall others, chain B first others ->
                      result = plans ++ keep_plans table B (first :: others).
Proof.
  induction steps as [|steps IH]; intros first plans result plans_size H Hok Hold;
    [discriminate|].
  cbn [PlanWar_loop] in H.
  destruct (Z.ltb_spec MAX_ATTACK_VECTORS (Z.of_nat (List.length first)));
    [discriminate|].
  split; [lia|].
  destruct (plan_of table first) as [total plan] eqn:Ep.
  assert (Hstep : exists plans' plans_size',
             (if total =? B then store_plan granted plan plans plans_size
              else Ok (plans, plans_size)) = Ok (plans', plans_size')
             /\ plans' = plans ++ (if total =? B then [plan] else [])
             /\ array_ok plans' plans_size'
             /\ holds_plans granted (Z.of_nat (List.length plans'))).
  { destruct (total =? B).
    - destruct (store_plan granted plan plans plans_size) as [[plans' size']| |] eqn:Es;
        try discriminate.
      exists plans', size'. split; [reflexivity|].
      exact (store_plan_fits _ _ _ _ _ _ Es Hok Hold).
    - exists plans, plans_size. rewrite app_nil_r. auto. }
  destruct Hstep as (plans' & size' & Es & Eplans & Hok' & Hold').
  rewrite Es in H.
  destruct (NextCombination first B) as [[] nxt] eqn:En.
  - injection H as <-. split; [exact Hold'|].
    intros [|second others] Hc; cbn [chain] in Hc; unfold next_of in Hc;
      rewrite En in Hc; [|destruct Hc; discriminate].
    rewrite keep_plans_cons, Ep. cbn [fst snd keep_plans flat_map].
    now rewrite app_nil_r.
  - destruct (IH nxt plans' result size' H Hok' Hold') as (_ & Hres & Hchain).
    split; [exact Hres|].
    intros [|second others] Hc; cbn [chain] in Hc; unfold next_of in Hc;
      rewrite En in Hc; [discriminate|].
    destruct Hc as [E Hc]. injection E as <-.
    rewrite (Hchain others Hc), Eplans, (keep_plans_cons table B first), Ep.
    cbn [fst snd].
    now rewrite <- List.app_assoc.
Qed.

(** The plans kept are counted by the sums of the combinations. *)
Lemma keep_plans_length (table : list (list attack_setup)) (B : Z)
      (combos : list (list Z)) :
  Forall (fun t => List.length t = List.length table) combos ->
  List.length (keep_plans table B combos)
  = List.length (filter (fun t => uint (total_bonus t) =? B) combos).
Proof.
  induction 1 as [|t combos Ht _ IH]; [reflexivity|].
  rewrite keep_plans_cons, length_app, IH. cbn [filter].
  rewrite plan_of_total_bonus by exact Ht.
  destruct (uint (total_bonus t) =? B); reflexivity.
Qed.

Lemma all_combinations_lengths (V B : nat) :
  Forall (fun t => List.length t = V) (all_combinations V B).
Proof.
  apply Forall_forall. intros t Ht. apply all_combinations_In in Ht. apply Ht.
Qed.

(** The combinations whose cells add up to the pool. *)
Lemma exact_count (V : nat) (B : Z) :
  (1 <= V)%nat -> 0 <= B ->
  Z.of_nat (List.length (filter (fun t => total_bonus t =? B)
                                (all_combinations V (Z.to_nat B))))
  = plans_to_store V B.
Proof.
  intros HV HB. unfold plans_to_store. f_equal.
  destruct V as [|n]; [lia|]. rewrite Nat.sub_succ, Nat.sub_0_r.
  rewrite <- (adding_up_binomial (Z.to_nat B) n (Z.to_nat B)) by lia.
  unfold adding_up. now rewrite Z2Nat.id by lia.
Qed.

Lemma filter_length_impl {A} (p q : A -> bool) (l : list A) :
  (forall x, In x l -> p x = true -> q x = true) ->
  (List.length (filter p l) <= List.length (filter q l))%nat.
Proof.
  induction l as [|x l IH]; intros H; [reflexivity|]. cbn [filter].
  assert (Hl : (List.length (filter p l) <= List.length (filter q l))%nat)
    by (apply IH; intros y Hy; apply H; now right).
  pose proof (H x (or_introl eq_refl)) as Hx.
  destruct (p x), (q x); cbn [List.length]; try lia.
Qed.

(** Every combination that adds up to the pool is kept, whether or not
    others are. *)
Lemma kept_count_least (V : nat) (B : Z) :
  (1 <= V)%nat -> 0 <= B <= UINT_MAX ->
  plans_to_store V B
  <= Z.of_nat (List.length (filter (fun t => uint (total_bonus t) =? B)
                                   (all_combinations V (Z.to_nat B)))).
Proof.
  intros HV HB. rewrite <- exact_count by lia. apply inj_le.
  apply filter_length_impl. intros t _ E. apply Z.eqb_eq in E. apply Z.eqb_eq.
  rewrite E. apply uint_small. exact HB.
Qed.

(** Without a sum that wraps around, no other combination is. *)
Lemma kept_filter (V : nat) (B : Z) :
  0 <= B <= UINT_MAX -> (Z.of_nat V - 1) * B <= UINT_MAX ->
  filter (fun t => uint (total_bonus t) =? B) (all_combinations V (Z.to_nat B))
  = filter (fun t => total_bonus t =? B) (all_combinations V (Z.to_nat B)).
Proof.
  intros HB Hwrap. apply filter_ext_in. intros t Hin.
  apply all_combinations_In in Hin. rewrite Z2Nat.id in Hin by lia.
  pose proof (total_bonus_bound _ _ _ Hin) as Hb.
  assert (Hex : uint (total_bonus t) = B <-> total_bonus t = B)
    by (apply uint_exact; lia).
  destruct (Z.eqb_spec (uint (total_bonus t)) B) as [E|E],
    (Z.eqb_spec (total_bonus t) B) as [E'|E']; try reflexivity; exfalso; tauto.
Qed.

(** *** An array the allocator can hold leaves no room for a wrapped sum *)

Lemma binomial_two (n : nat) :
  2 * Z.of_nat (binomial n 2) = Z.of_nat n * (Z.of_nat n - 1).
Proof.
  induction n as [|n IH]; [reflexivity|].
  cbn [binomial]. rewrite binomial_one, Nat2Z.inj_add, Nat2Z.inj_succ. lia.
Qed.

Lemma binomial_three (n : nat) :
  6 * Z.of_nat (binomial n 3)
  = Z.of_nat n * (Z.of_nat n - 1) * (Z.of_nat n - 2).
Proof.
  induction n as [|n IH]; [reflexivity|].
  cbn [binomial]. rewrite Nat2Z.inj_add, Nat2Z.inj_succ.
  pose proof (binomial_two n) as H2.
  set (a := Z.of_nat (binomial n 2)) in *.
  set (b := Z.of_nat (binomial n 3)) in *.
  set (m := Z.of_nat n) in *.
  replace (6 * (a + b)) with (3 * (2 * a) + 6 * b) by ring.
  rewrite H2, IH. ring.
Qed.

Lemma binomial_shift (j n k : nat) :
  (binomial n k <= binomial (n + j) (k + j))%nat.
Proof.
  induction j as [|j IH]; [now rewrite !Nat.add_0_r|].
  rewrite !Nat.add_succ_r. cbn [binomial]. lia.
Qed.

Lemma holds_plans_no_wrap (granted : Z -> bool) (V : nat) (B : Z) :
  (1 <= V)%nat -> Z.of_nat V <= MAX_ATTACK_VECTORS -> 0 <= B <= UINT_MAX ->
  holds_plans granted (plans_to_store V B) ->
  (Z.of_nat V - 1) * B <= UINT_MAX.
Proof.
  intros HV Hcap HB Hold.
  assert (Hcount : 0 <= plans_to_store V B) by (unfold plans_to_store; lia).
  pose proof (holds_plans_bound granted _ Hcount Hold) as Hfit.
  rewrite sizeof_attack_plan_value in Hfit.
  unfold SIZE_MAX in Hfit.
  unfold MAX_ATTACK_VECTORS in Hcap. unfold UINT_MAX in *.
  destruct (Z.leb_spec ((Z.of_nat V - 1) * B) 4294967295) as [Hle|Hgt];
    [exact Hle | exfalso].
  unfold plans_to_store in *.
  set (b := Z.to_nat B) in *.
  assert (Eb : Z.of_nat b = B) by (unfold b; lia).
  destruct V as [|[|[|[|n]]]]; try lia.
  - (* three vectors *)
    cbn [Nat.sub] in *.
    pose proof (binomial_two (b + 2)) as H2.
    rewrite Nat2Z.inj_add, Eb in H2. change (Z.of_nat 2) with 2 in H2.
    assert (HB31 : 2147483648 <= B) by lia.
    assert (Hprod : 2147483648 * 2147483648 <= (B + 2) * (B + 2 - 1)).
    { apply Z.mul_le_mono_nonneg; lia. }
    lia.
  - (* four vectors or more *)
    replace (S (S (S (S n))) - 1)%nat with (3 + n)%nat in * by lia.
    pose proof (binomial_shift n (b + 3) 3) as Hshift.
    replace (b + 3 + n)%nat with (b + (3 + n))%nat in Hshift by lia.
    pose proof (binomial_three (b + 3)) as H3.
    rewrite Nat2Z.inj_add, Eb in H3. change (Z.of_nat 3) with 3 in H3.
    assert (Hk : (Z.of_nat (S (S (S (S n)))) - 1) * B <= 15 * B)
      by (apply Z.mul_le_mono_nonneg_r; lia).
    assert (HB28 : 268435456 <= B) by lia.
    assert (Hp2 : 268435456 * 268435456 <= (B + 3) * (B + 3 - 1)).
    { apply Z.mul_le_mono_nonneg; lia. }
    assert (Hp3 : 268435456 * 268435456 * 268435456
                  <= (B + 3) * (B + 3 - 1) * (B + 3 - 2)).
    { apply Z.mul_le_mono_nonneg; lia. }
    lia.
Qed.

(** The number of plans the search keeps, when the allocator can hold them. *)
Lemma kept_count (granted : Z -> bool) (V : nat) (B : Z) :
  (1 <= V)%nat -> Z.of_nat V <= MAX_ATTACK_VECTORS -> 0 <= B <= UINT_MAX ->
  holds_plans granted (plans_to_store V B) ->
  filter (fun t => uint (total_bonus t) =? B) (all_combinations V (Z.to_nat B))
  = filter (fun t => total_bonus t =? B) (all_combinations V (Z.to_nat B))
  /\ Z.of_nat (List.length
                 (filter (fun t => uint (total_bonus t) =? B)
                         (all_combinations V (Z.to_nat B))))
     = plans_to_store V B.
Proof.
  intros HV Hcap HB Hold.
  pose proof (holds_plans_no_wrap granted V B HV Hcap HB Hold) as Hwrap.
  rewrite (kept_filter V B HB Hwrap). split; [reflexivity|].
  apply exact_count; lia.
Qed.

(** ** The table of setups *)

Section PlannerProperties.
Variable rand : nat -> Z.
Hypothesis rand_range : forall n, 0 <= rand n <= INT_MAX.

Lemma PredictAttack_total (fuel : nat) (av : attack_vector_def)
      (bonus_units iters : Z) (pos : nat) :
  enough_fuel fuel -> vector_ok av -> 0 <= iters <= UINT_MAX ->
  exists c pos',
    PredictAttack rand fuel av bonus_units iters pos = Some (prediction_of c, pos')
    /\ counters_ok iters c.
Proof.
  intros Hfuel Hav Hit.
  destruct (PredictAttack_loop_total rand rand_range fuel av bonus_units Hfuel Hav
              (Z.to_nat iters) no_counts 0 pos no_counts_ok)
    as (c & pos' & Hl & Hc); [lia|].
  rewrite Z.add_0_l, Z2Nat.id in Hc by lia.
  exists c, pos'. split; [|exact Hc].
  unfold PredictAttack, PredictAttack_counters.
  now rewrite (bind_eq _ _ _ _ _ Hl).
Qed.

Lemma gate_score_sign (c : counters) (k : Z) (thr : float) :
  counters_ok k c -> k <= UINT_MAX ->
  has_sign false (gate_score (win_likelihood (prediction_of c)) thr).
Proof.
  intros (Hw & Hl & Hk & _) Hle. unfold gate_score, fge.
  destruct (SFleb thr (win_likelihood (prediction_of c))) eqn:E; [|reflexivity].
  apply SFleb_not_nan in E. cbn [prediction_of win_likelihood] in *.
  destruct (fdiv_sign (float_of_uint (sum_win_count c))
                      (float_of_uint (uint (sum_win_count c + sum_loss_count c))))
    as [Hn|Hs]; auto.
  - apply float_of_uint_sign. lia.
  - apply float_of_uint_sign. apply uint_is_uint.
  - contradiction.
Qed.

Lemma make_setup_total (fuel : nat) (av : attack_vector_def) (b : Z)
      (thr : float) (iters : Z) (pos : nat) :
  enough_fuel fuel -> vector_ok av -> 0 <= iters <= UINT_MAX ->
  exists s pos',
    make_setup rand fuel av b thr iters pos = Some (s, pos')
    /\ setup_ok rand fuel thr iters av b s.
Proof.
  intros Hfuel Hav Hit.
  destruct (PredictAttack_total fuel av b iters pos Hfuel Hav Hit)
    as (c & pos' & Hp & Hc).
  assert (E : make_setup rand fuel av b thr iters pos =
              Some ({| prediction := prediction_of c; attack_vector := av;
                       bonus := b;
                       score := gate_score (win_likelihood (prediction_of c)) thr |},
                    pos')).
  { unfold make_setup. now rewrite (bind_eq _ _ _ _ _ Hp). }
  eexists. exists pos'. split; [exact E|]. split; [eauto|].
  cbn [score]. apply (gate_score_sign c iters); [assumption | lia].
Qed.

Lemma setups_row_total (fuel : nat) (av : attack_vector_def) (B : Z)
      (thr : float) (iters : Z) :
  enough_fuel fuel -> vector_ok av -> 0 <= iters <= UINT_MAX -> B < UINT_MAX ->
  forall (k : nat) (b : Z) (steps pos : nat),
    0 <= b -> b + Z.of_nat k = B + 1 -> (k <= steps)%nat ->
    exists row pos',
      setups_row rand fuel steps av B thr iters b pos = Some (row, pos')
      /\ List.length row = k
      /\ forall j, (j < k)%nat ->
                   setup_ok rand fuel thr iters av (b + Z.of_nat j)
                            (nth j row unset_setup).
Proof.
  intros Hfuel Hav Hit HB.
  induction k as [|k IH]; intros b steps pos Hb Hk Hs.
  - exists [], pos. split; [|split; [reflexivity | intros j Hj; lia]].
    destruct steps; cbn [setups_row];
      (destruct (Z.leb_spec b B); [lia | reflexivity]).
  - destruct steps as [|steps]; [lia|]. cbn [setups_row].
    destruct (Z.leb_spec b B); [|lia].
    destruct (make_setup_total fuel av b thr iters pos Hfuel Hav Hit)
      as (s & p1 & Hm & Hok).
    rewrite (bind_eq _ _ _ _ _ Hm).
    rewrite (uint_small (b + 1)) by (unfold is_uint; lia).
    destruct (IH (b + 1) steps p1) as (row & pos' & Hrow & Hlen & Hcells); try lia.
    rewrite (bind_eq _ _ _ _ _ Hrow).
    exists (s :: row), pos'. split; [reflexivity|]. split; [cbn; lia|].
    intros [|j] Hj; cbn [nth].
    + now rewrite Z.add_0_r.
    + replace (b + Z.of_nat (S j)) with (b + 1 + Z.of_nat j) by lia.
      apply Hcells. lia.
Qed.

Lemma setups_table_total (fuel : nat) (B : Z) (thr : float) (iters : Z) :
  enough_fuel fuel -> 0 <= iters <= UINT_MAX -> 0 <= B < UINT_MAX ->
  forall (vectors : list attack_vector_def) (pos : nat),
    Forall vector_ok vectors ->
    exists table pos',
      setups_table rand fuel vectors B thr iters pos = Some (table, pos')
      /\ table_ok rand fuel thr iters B vectors table.
Proof.
  intros Hfuel Hit HB. induction vectors as [|av vectors IH]; intros pos Hall.
  - exists [], pos. split; [reflexivity | constructor].
  - inversion Hall as [|? ? Hav Hrest]; subst. cbn [setups_table].
    destruct (setups_row_total fuel av B thr iters Hfuel Hav Hit (proj2 HB)
                (Z.to_nat (B + 1)) 0 fuel pos)
      as (row & p1 & Hrow & Hlen & Hcells); try lia.
    { unfold enough_fuel, UINT_MAX in *. lia. }
    rewrite (bind_eq _ _ _ _ _ Hrow).
    destruct (IH p1 Hrest) as (table & pos' & Htab & Hok).
    rewrite (bind_eq _ _ _ _ _ Htab).
    exists (row :: table), pos'. split; [reflexivity|].
    constructor; [|exact Hok]. split; [lia|].
    intros b Hb. specialize (Hcells (Z.to_nat b)).
    rewrite Z.add_0_l, Z2Nat.id in Hcells by lia. apply Hcells. lia.
Qed.

End PlannerProperties.

(** What the search has stored when it ends: the plans of the combinations
    whose cells add up to the pool. *)
Lemma PlanWar_plans_spec (rand : nat -> Z) (granted : Z -> bool)
      (vectors : list attack_vector_def) (B : Z) (thr : float) (iters : Z)
      (pos : nat) :
  (forall n, 0 <= rand n <= INT_MAX) ->
  vectors <> [] -> Z.of_nat (List.length vectors) <= MAX_ATTACK_VECTORS ->
  Forall vector_ok vectors ->
  0 <= B < UINT_MAX -> 0 <= iters <= UINT_MAX ->
  holds_plans granted (plans_to_store (List.length vectors) B) ->
  exists fuel0, forall fuel, (fuel0 <= fuel)%nat ->
  exists table pos',
    setups_table rand fuel vectors B thr iters pos = Some (table, pos')
    /\ table_ok rand fuel thr iters B vectors table
    /\ PlanWar_plans rand granted fuel vectors B thr iters pos =
         Some (Ok (keep_plans table B
                     (all_combinations (List.length vectors) (Z.to_nat B))), pos').
Proof.
  intros Hr Hne Hcap Hall HB Hit Hold.
  destruct enough_fuel_exists as (fuel1 & Hfuel1).
  set (combos := all_combinations (List.length vectors) (Z.to_nat B)).
  exists (Nat.max fuel1 (S (List.length combos))). intros fuel Hle.
  assert (Hfuel : enough_fuel fuel) by (apply (enough_fuel_mono fuel1); [assumption | lia]).
  destruct (setups_table_total rand Hr fuel B thr iters Hfuel Hit HB vectors pos Hall)
    as (table & pos' & Htab & Hok).
  exists table, pos'. split; [exact Htab|]. split; [exact Hok|].
  assert (HV : (1 <= List.length vectors)%nat)
    by (destruct vectors; [contradiction | cbn; lia]).
  assert (Hcount : 0 <= plans_to_store (List.length vectors) B)
    by (unfold plans_to_store; lia).
  destruct (kept_count granted (List.length vectors) B HV Hcap ltac:(lia) Hold)
    as [_ Hkept].
  fold combos in Hkept.
  assert (Hlen : List.length table = List.length vectors)
    by (symmetry; exact (Forall2_length Hok)).
  unfold PlanWar_plans. destruct vectors as [|av vectors']; [contradiction|].
  rewrite (uint_small (B + 1)) by (unfold is_uint; lia).
  destruct (Z.eqb_spec (B + 1) 0) as [E0|_]; [lia|].
  replace (plans_block granted PLANS_SIZE_INCREMENT) with alloc_array
    by (symmetry; apply (plans_block_array granted _ 1 Hold); lia).
  rewrite (bind_eq _ _ _ _ _ Htab).
  destruct (all_combinations_chain (List.length (av :: vectors')) (Z.to_nat B))
    as (others & E & Hc); [lia|].
  rewrite Z2Nat.id in Hc by lia. fold combos in E.
  rewrite (PlanWar_loop_chain granted table B others _ [] fuel PLANS_SIZE_INCREMENT Hc).
  - cbn [app]. rewrite <- E. reflexivity.
  - assert (List.length combos = S (List.length others)) by now rewrite E.
    lia.
  - unfold InitCombinations. rewrite repeat_length. exact Hcap.
  - cbn [app]. rewrite <- E, keep_plans_length, Hkept; [exact Hold|].
    rewrite Hlen. apply all_combinations_lengths.
  - exists 1. unfold PLANS_SIZE_INCREMENT. cbn [List.length]. lia.
Qed.

(** ** The tuples the search keeps *)

Lemma PlanWar_tuples_spec (rand : nat -> Z) (granted : Z -> bool)
      (vectors : list attack_vector_def) (B : Z) (thr : float) (iters : Z)
      (pos : nat) :
  (forall n, 0 <= rand n <= INT_MAX) ->
  vectors <> [] -> Z.of_nat (List.length vectors) <= MAX_ATTACK_VECTORS ->
  Forall vector_ok vectors ->
  0 <= B < UINT_MAX -> 0 <= iters <= UINT_MAX ->
  holds_plans granted (plans_to_store (List.length vectors) B) ->
  exists fuel0, forall fuel, (fuel0 <= fuel)%nat ->
  exists table plans pos',
    setups_table rand fuel vectors B thr iters pos = Some (table, pos')
    /\ table_ok rand fuel thr iters B vectors table
    /\ PlanWar_plans rand granted fuel vectors B thr iters pos = Some (Ok plans, pos')
    /\ plans = keep_plans table B
                 (all_combinations (List.length vectors) (Z.to_nat B))
    /\ map plan_bonuses plans =
         filter (fun t => total_bonus t =? B)
                (all_combinations (List.length vectors) (Z.to_nat B))
    /\ NoDup (map plan_bonuses plans)
    /\ (forall t, In t (map plan_bonuses plans) <->
                  bonus_tuple (List.length vectors) B t /\ total_bonus t = B)
    /\ Z.of_nat (List.length plans) = plans_to_store (List.length vectors) B.
Proof.
  intros Hr Hne Hcap Hall HB Hit Hold.
  destruct (PlanWar_plans_spec rand granted vectors B thr iters pos
              Hr Hne Hcap Hall HB Hit Hold) as (fuel0 & H).
  exists fuel0. intros fuel Hle.
  destruct (H fuel Hle) as (table & pos' & Htab & Hok & Hplans).
  set (combos := all_combinations (List.length vectors) (Z.to_nat B)) in *.
  assert (HV : (1 <= List.length vectors)%nat)
    by (destruct vectors; [contradiction | cbn; lia]).
  destruct (kept_count granted (List.length vectors) B HV Hcap ltac:(lia) Hold)
    as [Efilter Hkept].
  fold combos in Efilter, Hkept.
  assert (Hcombos : Forall (bonus_tuple (List.length vectors) B) combos).
  { apply Forall_forall. intros t Ht. apply all_combinations_In in Ht.
    now rewrite Z2Nat.id in Ht by lia. }
  pose proof (keep_plans_bonuses rand fuel thr iters B vectors table combos Hok Hcombos)
    as Etuples.
  rewrite Efilter in Etuples.
  exists table, (keep_plans table B combos), pos'.
  split; [exact Htab|]. split; [exact Hok|]. split; [exact Hplans|].
  split; [reflexivity|]. split; [exact Etuples|].
  split; [|split].
  - rewrite Etuples. apply NoDup_filter, all_combinations_NoDup.
  - intros t. rewrite Etuples, filter_In. unfold combos.
    rewrite all_combinations_In, Z2Nat.id by lia.
    now rewrite Z.eqb_eq.
  - rewrite <- (length_map plan_bonuses), Etuples, <- Efilter. exact Hkept.
Qed.

Lemma setups_table_length (rand : nat -> Z) (fuel : nat) (B : Z) (thr : float)
      (iters : Z) :
  forall (vectors : list attack_vector_def) (pos : nat)
         (table : list (list attack_setup)) (pos' : nat),
    setups_table rand fuel vectors B thr iters pos = Some (table, pos') ->
    List.length table = List.length vectors.
Proof.
  induction vectors as [|av vectors IH]; intros pos table pos' H;
    cbn [setups_table] in H.
  - unfold ret in H. injection H as <- _. reflexivity.
  - apply bind_Some in H. destruct H as (row & p1 & _ & H).
    apply bind_Some in H. destruct H as (rows & p2 & Hrows & H).
    unfold ret in H. injection H as <- _. cbn [List.length].
    now rewrite (IH _ _ _ Hrows).
Qed.

(** Whatever [PlanWar] has stored fits the array it was granted: the
    vectors are no more than a plan holds, and the allocator has let the
    array grow to the plans stored, at least one per way of sharing the
    pool. *)
Lemma PlanWar_plans_fit (rand : nat -> Z) (granted : Z -> bool) (fuel : nat)
      (vectors : list attack_vector_def) (B : Z) (thr : float) (iters : Z)
      (pos : nat) (plans : list attack_plan) (pos' : nat) :
  PlanWar_plans rand granted fuel vectors B thr iters pos = Some (Ok plans, pos') ->
  0 <= B < UINT_MAX ->
  (1 <= List.length vectors)%nat
  /\ Z.of_nat (List.length vectors) <= MAX_ATTACK_VECTORS
  /\ plans_to_store (List.length vectors) B <= Z.of_nat (List.length plans)
  /\ holds_plans granted (Z.of_nat (List.length plans)).
Proof.
  intros H HB. unfold PlanWar_plans in H.
  destruct vectors as [|av vectors'] eqn:Ev; [discriminate|]. rewrite <- Ev in *.
  assert (HV : (1 <= List.length vectors)%nat) by (rewrite Ev; cbn; lia).
  destruct (uint (B + 1) =? 0); [discriminate|].
  unfold plans_block in H.
  rewrite size_t_small in H by (vm_compute; split; discriminate).
  destruct (granted (PLANS_SIZE_INCREMENT * sizeof_attack_plan)) eqn:Eg;
    [|discriminate].
  destruct (PLANS_SIZE_INCREMENT * sizeof_attack_plan <=? SIZE_MAX) eqn:Efit;
    [|discriminate].
  apply bind_Some in H. destruct H as (table & p1 & Htab & H).
  pose proof (setups_table_length _ _ _ _ _ _ _ _ _ Htab) as Hlen.
  destruct (PlanWar_loop granted fuel table B (InitCombinations (List.length vectors))
              [] PLANS_SIZE_INCREMENT) as [result| |] eqn:El; try discriminate.
  unfold ret in H. injection H as -> _.
  apply Z.leb_le in Efit.
  destruct (PlanWar_loop_fits granted table B _ _ _ _ _ El) as (Hcap & Hold & Hchain).
  { exists 1. unfold PLANS_SIZE_INCREMENT. cbn [List.length]. lia. }
  { intros k Hk Hs. cbn [List.length] in Hs. unfold PLANS_SIZE_INCREMENT in Hs.
    assert (k = 1) by lia. subst k. rewrite Z.mul_1_l. auto. }
  unfold InitCombinations in Hcap. rewrite repeat_length in Hcap.
  split; [exact HV|]. split; [exact Hcap|]. split; [|exact Hold].
  destruct (all_combinations_chain (List.length vectors) (Z.to_nat B))
    as (others & E & Hc); [lia|].
  rewrite Z2Nat.id in Hc by lia.
  rewrite (Hchain others Hc). cbn [app]. rewrite <- E, keep_plans_length.
  - apply kept_count_least; [exact HV | lia].
  - rewrite Hlen. apply all_combinations_lengths.
Qed.

(** With a pool of [UINT_MAX] the table [setups] has rows of
    [bonus_units+1], that is 0, cells. *)
Lemma PlanWar_plans_no_cell (rand : nat -> Z) (granted : Z -> bool) (fuel : nat)
      (vectors : list attack_vector_def) (thr : float) (iters : Z) (pos : nat) :
  PlanWar_plans rand granted fuel vectors UINT_MAX thr iters pos = None.
Proof. unfold PlanWar_plans. now destruct vectors. Qed.

(** And the test [bonus <= bonus_units] of the precomputation never
    fails: no row is ever completed. *)
Lemma setups_row_never_ends (rand : nat -> Z) (fuel : nat) (av : attack_vector_def)
      (thr : float) (iters : Z) :
  forall (steps : nat) (b : Z) (pos : nat),
    is_uint b -> setups_row rand fuel steps av UINT_MAX thr iters b pos = None.
Proof.
  induction steps as [|steps IH]; intros b pos Hb; cbn [setups_row];
    (destruct (Z.leb_spec b UINT_MAX) as [_|Hgt]; [|unfold is_uint in Hb; lia]).
  - reflexivity.
  - unfold bind at 1.
    destruct (make_setup rand fuel av b thr iters pos) as [[s p1]|]; [|reflexivity].
    unfold bind. now rewrite IH by apply uint_is_uint.
Qed.

(** An allocator that returns [NULL] at once makes the planner abort
    before it has drawn a random value. *)
Lemma PlanWar_plans_refused (rand : nat -> Z) (granted : Z -> bool) (fuel : nat)
      (av : attack_vector_def) (vectors : list attack_vector_def) (B : Z)
      (thr : float) (iters : Z) (pos : nat) :
  0 <= B < UINT_MAX ->
  granted (PLANS_SIZE_INCREMENT * sizeof_attack_plan) = false ->
  PlanWar_plans rand granted fuel (av :: vectors) B thr iters pos
  = Some (Abort "Memory alloc for plans failed", pos).
Proof.
  intros HB Hg. unfold PlanWar_plans.
  rewrite (uint_small (B + 1)) by (unfold is_uint; lia).
  destruct (Z.eqb_spec (B + 1) 0) as [E0|_]; [lia|].
  unfold plans_block.
  rewrite size_t_small by (vm_compute; split; discriminate).
  now rewrite Hg.
Qed.

Lemma grant_all_holds (count : Z) :
  (count + PLANS_SIZE_INCREMENT) * sizeof_attack_plan <= SIZE_MAX ->
  holds_plans grant_all count.
Proof.
  intros H k Hk Hs. split; [|reflexivity].
  rewrite sizeof_attack_plan_value in *. unfold PLANS_SIZE_INCREMENT in *. lia.
Qed.

(** Three vectors and a pool of 2^31: more plans than [SIZE_MAX] bytes
    hold. *)
Lemma plans_to_store_too_many :
  SIZE_MAX < plans_to_store 3 2147483648 * sizeof_attack_plan.
Proof.
  unfold plans_to_store. change (3 - 1)%nat with 2%nat.
  set (b := Z.to_nat 2147483648).
  assert (Eb : Z.of_nat b = 2147483648) by (unfold b; lia).
  pose proof (binomial_two (b + 2)) as H2.
  rewrite Nat2Z.inj_add, Eb in H2. change (Z.of_nat 2) with 2 in H2.
  rewrite sizeof_attack_plan_value. unfold SIZE_MAX. lia.
Qed.

(** C2, as amended.  For V vectors, 1 <= V <= 16, and a pool B with
    1 <= B < 2^32 - 1, when the allocator lets the array grow to the
    binomial(B + V - 1, V - 1) plans there are to store, the search
    terminates; the tuples of the plans it has stored are, without
    repetition, exactly the V-tuples with components in [0, B] whose sum is
    B; for B = 2 and V = 2 they are (2,0), (1,1) and (0,2). *)
Theorem PlanWar_materialized_tuples
        (rand : nat -> Z) (granted : Z -> bool) (vectors : list attack_vector_def)
        (B : Z) (thr : float) (iters : Z) (pos : nat) :
  (forall n, 0 <= rand n <= INT_MAX) ->
  vectors <> [] -> Z.of_nat (List.length vectors) <= MAX_ATTACK_VECTORS ->
  Forall vector_ok vectors ->
  1 <= B < UINT_MAX -> 0 <= iters <= UINT_MAX ->
  holds_plans granted (plans_to_store (List.length vectors) B) ->
  exists fuel0, forall fuel, (fuel0 <= fuel)%nat ->
  exists plans pos',
    PlanWar_plans rand granted fuel vectors B thr iters pos = Some (Ok plans, pos')
    /\ NoDup (map plan_bonuses plans)
    /\ (forall t, In t (map plan_bonuses plans) <->
                  bonus_tuple (List.length vectors) B t /\ total_bonus t = B)
    /\ Z.of_nat (List.length plans) = plans_to_store (List.length vectors) B
    /\ (List.length vectors = 2%nat -> B = 2 ->
        map plan_bonuses plans = [[2; 0]; [1; 1]; [0; 2]]).
Proof.
  intros Hr Hne Hcap Hall HB Hit Hold.
  destruct (PlanWar_tuples_spec rand granted vectors B thr iters pos Hr Hne Hcap Hall)
    as (fuel0 & H); [lia | assumption | assumption |].
  exists fuel0. intros fuel Hle.
  destruct (H fuel Hle)
    as (table & plans & pos' & _ & _ & Hp & _ & Ef & Hnd & Hin & Hcount).
  exists plans, pos'. split; [exact Hp|]. split; [exact Hnd|]. split; [exact Hin|].
  split; [exact Hcount|].
  intros HV ->. rewrite Ef, HV. reflexivity.
Qed.

Lemma trivial_vector_ok : vector_ok trivial_vector.
Proof.
  unfold vector_ok, trivial_vector, is_uint, territory_count,
    MAX_TERRITORY_VECTOR_SIZE, UINT_MAX; simpl.
  repeat split; try lia; try discriminate.
  repeat constructor; simpl; lia.
Qed.

Lemma PlanWar_materialized_tuples_witness :
  exists fuel0, forall fuel, (fuel0 <= fuel)%nat ->
  exists plans pos',
    PlanWar_plans sample_rand grant_all fuel [sample_vector; trivial_vector] 2 fzero 3
                  0%nat
    = Some (Ok plans, pos')
    /\ NoDup (map plan_bonuses plans)
    /\ (forall t, In t (map plan_bonuses plans) <->
                  bonus_tuple (List.length [sample_vector; trivial_vector]) 2 t
                  /\ total_bonus t = 2)
    /\ Z.of_nat (List.length plans)
       = plans_to_store (List.length [sample_vector; trivial_vector]) 2
    /\ (List.length [sample_vector; trivial_vector] = 2%nat -> 2 = 2 ->
        map plan_bonuses plans = [[2; 0]; [1; 1]; [0; 2]]).
Proof.
  apply (PlanWar_materialized_tuples sample_rand grant_all
           [sample_vector; trivial_vector] 2 fzero 3 0).
  - exact sample_rand_range.
  - discriminate.
  - unfold MAX_ATTACK_VECTORS. simpl. lia.
  - constructor; [exact sample_vector_ok|].
    constructor; [exact trivial_vector_ok | constructor].
  - unfold UINT_MAX; lia.
  - unfold UINT_MAX; lia.
  - apply grant_all_holds. vm_compute. discriminate.
Defined.

(** C2 as it is worded fails.  With a pool of [UINT_MAX], a value of B
    that is at least 1, the planner stores no plan, whatever the allocator
    and the bound on its loops: the rows of its table have no cell, and the
    loop that fills a row never ends.  With three vectors and a pool of
    2^31 the planner never ends with the plans stored, whatever the
    allocator does: there are more tuples to store than [SIZE_MAX] bytes
    hold.  When the allocator returns [NULL] for the first block, two
    vectors and a pool of 2 make the planner abort before it has stored a
    plan.  And with 17 vectors, one more than a plan has setups, the
    planner never ends with the plans stored either. *)
Lemma PlanWar_stores_no_plan :
  (forall granted fuel,
      PlanWar_plans sample_rand granted fuel [sample_vector] UINT_MAX fzero 1 0%nat
      = None)
  /\ (forall fuel steps,
         setups_row sample_rand fuel steps sample_vector UINT_MAX fzero 1 0 0%nat
         = None)
  /\ (forall granted fuel plans pos',
         PlanWar_plans sample_rand granted fuel
                       [sample_vector; sample_vector; sample_vector]
                       2147483648 fzero 0 0%nat
         <> Some (Ok plans, pos'))
  /\ (forall fuel,
         PlanWar_plans sample_rand (grant_up_to 0) fuel [sample_vector; trivial_vector]
                       2 fzero 3 0%nat
         = Some (Abort "Memory alloc for plans failed", 0%nat))
  /\ (forall granted fuel plans pos',
         PlanWar_plans sample_rand granted fuel (repeat trivial_vector 17) 1 fzero 0
                       0%nat
         <> Some (Ok plans, pos')).
Proof.
  split; [|split; [|split; [|split]]].
  - intros granted fuel. apply PlanWar_plans_no_cell.
  - intros fuel steps. apply setups_row_never_ends. unfold is_uint, UINT_MAX. lia.
  - intros granted fuel plans pos' H.
    destruct (PlanWar_plans_fit _ _ _ _ _ _ _ _ _ _ H) as (_ & _ & Hmany & Hold);
      [unfold UINT_MAX; lia|].
    change (List.length [sample_vector; sample_vector; sample_vector]) with 3%nat
      in Hmany.
    pose proof plans_to_store_too_many as Htoo.
    pose proof (holds_plans_bound granted _ (Nat2Z.is_nonneg _) Hold) as Hsize.
    rewrite sizeof_attack_plan_value in *. lia.
  - intros fuel. apply PlanWar_plans_refused; [unfold UINT_MAX; lia | reflexivity].
  - intros granted fuel plans pos' H.
    destruct (PlanWar_plans_fit _ _ _ _ _ _ _ _ _ _ H) as (_ & Hcap & _);
      [unfold UINT_MAX; lia|].
    rewrite repeat_length in Hcap. unfold MAX_ATTACK_VECTORS in Hcap. lia.
Qed.

(** ** The plan the planner reports *)

Lemma keep_plans_In (table : list (list attack_setup)) (B : Z)
      (combos : list (list Z)) (p : attack_plan) :
  In p (keep_plans table B combos) <->
  exists t, In t combos /\ fst (plan_of table t) = B /\ p = snd (plan_of table t).
Proof.
  unfold keep_plans. rewrite in_flat_map. split.
  - intros (t & Ht & Hp). exists t. split; [exact Ht|].
    destruct (Z.eqb_spec (fst (plan_of table t)) B) as [E|E]; [|contradiction].
    destruct Hp as [<-|[]]. auto.
  - intros (t & Ht & E & ->). exists t. split; [exact Ht|].
    rewrite E, Z.eqb_refl. now left.
Qed.

Lemma score_sum_sign (l : list attack_setup) :
  Forall (fun s => has_sign false (score s)) l -> has_sign false (score_sum l).
Proof.
  unfold score_sum. induction 1 as [|s l Hs _ IH]; cbn [fold_right].
  - reflexivity.
  - now apply fadd_sign.
Qed.

Lemma ComparePlan_le (a b : attack_plan) :
  ComparePlan a b <= 0 <-> SFltb (total_score a) (total_score b) = false.
Proof.
  unfold ComparePlan, fgt, flt.
  destruct (SFltb (total_score a) (total_score b));
    destruct (SFltb (total_score b) (total_score a)); split; intros; try lia;
    try reflexivity; discriminate.
Qed.

Lemma SFleb_refl (x : float) : has_sign false x -> SFleb x x = true.
Proof.
  intros Hx. apply SFltb_false_leb; auto.
  destruct (SFltb x x) eqn:E; [|reflexivity].
  now rewrite (SFltb_asym x x Hx Hx E) in E.
Qed.

(** The model's [qsort] returns what the C library promises, on plans
    whose scores are comparable. *)
Lemma qsort_ComparePlan_result (plans : list attack_plan) :
  Forall (fun p => has_sign false (total_score p)) plans ->
  qsort_result ComparePlan plans (qsort ComparePlan plans).
Proof.
  intros HP. split.
  - apply Permutation_sym, qsort_perm.
  - apply (qsort_sorted ComparePlan (fun p => has_sign false (total_score p))); auto.
    + intros a b Ha Hb Hab. apply ComparePlan_le.
      apply SFltb_asym; auto.
      destruct (SFltb (total_score a) (total_score b)) eqn:E; [reflexivity|].
      apply ComparePlan_le in E. lia.
    + intros a b c Ha Hb Hc. rewrite !ComparePlan_le.
      now apply SFltb_false_trans.
Qed.

(** The first plan of a sorted array scores at least as much as every plan
    of the array. *)
Lemma qsort_result_best (plans : list attack_plan) (best : attack_plan)
      (others : list attack_plan) :
  Forall (fun p => has_sign false (total_score p)) plans ->
  qsort_result ComparePlan plans (best :: others) ->
  In best plans
  /\ forall q, In q plans -> fge (total_score best) (total_score q) = true.
Proof.
  intros HP [Hperm Hs].
  assert (Hbest : In best plans)
    by (apply (Permutation_in _ (Permutation_sym Hperm)); now left).
  split; [exact Hbest|].
  intros q Hq. pose proof Hq as Hq'. apply (Permutation_in _ Hperm) in Hq.
  rewrite Forall_forall in HP. unfold fge.
  destruct Hq as [<-|Hq].
  - apply SFleb_refl. now apply HP.
  - inversion Hs as [|? ? _ Hall]; subst. rewrite Forall_forall in Hall.
    apply SFltb_false_leb; [now apply HP | now apply HP |].
    apply ComparePlan_le. now apply Hall.
Qed.

Lemma total_bonus_all_to_first (B : Z) (n : nat) :
  total_bonus (B :: repeat 0 n) = B.
Proof.
  cbn [total_bonus fold_right].
  induction n as [|n IH]; cbn [repeat fold_right]; lia.
Qed.

Lemma bonus_tuple_all_to_first (B : Z) (n : nat) :
  0 <= B -> bonus_tuple (S n) B (B :: repeat 0 n).
Proof.
  intros HB. split.
  - cbn. now rewrite repeat_length.
  - constructor; [lia|]. apply Forall_forall. intros x Hx.
    apply repeat_spec in Hx. lia.
Qed.

(** The array of plans before [qsort]: it is not empty, its scores are
    comparable, and its plans are the plans of the tuples of the search
    space whose cells add up to the pool. *)
Lemma PlanWar_array_spec (rand : nat -> Z) (granted : Z -> bool)
      (vectors : list attack_vector_def) (B : Z) (thr : float) (iters : Z)
      (pos : nat) :
  (forall n, 0 <= rand n <= INT_MAX) ->
  vectors <> [] -> Z.of_nat (List.length vectors) <= MAX_ATTACK_VECTORS ->
  Forall vector_ok vectors ->
  1 <= B < UINT_MAX -> 0 <= iters <= UINT_MAX ->
  holds_plans granted (plans_to_store (List.length vectors) B) ->
  exists fuel0, forall fuel, (fuel0 <= fuel)%nat ->
  exists table plans pos',
    setups_table rand fuel vectors B thr iters pos = Some (table, pos')
    /\ table_ok rand fuel thr iters B vectors table
    /\ PlanWar_plans rand granted fuel vectors B thr iters pos = Some (Ok plans, pos')
    /\ plans <> []
    /\ Forall (fun p => has_sign false (total_score p)) plans
    /\ (forall t, bonus_tuple (List.length vectors) B t ->
                  total_bonus t = B ->
                  In (snd (plan_of table t)) plans)
    /\ (forall p, In p plans ->
                  exists t, bonus_tuple (List.length vectors) B t
                            /\ total_bonus t = B
                            /\ p = snd (plan_of table t)).
Proof.
  intros Hr Hne Hcap Hall HB Hit Hold.
  destruct (PlanWar_tuples_spec rand granted vectors B thr iters pos Hr Hne Hcap Hall)
    as (fuel0 & H); [lia | assumption | assumption |].
  exists fuel0. intros fuel Hle.
  destruct (H fuel Hle)
    as (table & plans & pos' & Htab & Hok & Hp & Eplans & Emap & _ & Hin & _).
  set (V := List.length vectors) in *.
  set (combos := all_combinations V (Z.to_nat B)) in *.
  assert (Hlen : List.length table = V) by (symmetry; exact (Forall2_length Hok)).
  assert (Hkept : forall t, bonus_tuple V B t -> total_bonus t = B ->
                            In (snd (plan_of table t)) plans).
  { intros t Ht Hs. rewrite Eplans. apply keep_plans_In. exists t. split.
    - unfold combos. apply all_combinations_In. now rewrite Z2Nat.id by lia.
    - split; [|reflexivity]. rewrite plan_of_total_bonus by (destruct Ht; lia).
      rewrite Hs. apply uint_small. unfold is_uint. lia. }
  assert (Hfrom : forall p, In p plans ->
                            exists t, bonus_tuple V B t /\ total_bonus t = B
                                      /\ p = snd (plan_of table t)).
  { intros p Hpin. pose proof Hpin as Hpin'.
    rewrite Eplans in Hpin. apply keep_plans_In in Hpin.
    destruct Hpin as (t & Ht & Es & ->). unfold combos in Ht.
    apply all_combinations_In in Ht. rewrite Z2Nat.id in Ht by lia.
    exists t. split; [exact Ht|]. split; [|reflexivity].
    apply (in_map plan_bonuses) in Hpin'. apply Hin in Hpin'.
    unfold plan_bonuses in Hpin'. rewrite plan_of_setups in Hpin'.
    destruct (chosen_setups_spec rand fuel thr iters B vectors table Hok t Ht)
      as (Eb & _). rewrite Eb in Hpin'. apply Hpin'. }
  exists table, plans, pos'.
  split; [exact Htab|]. split; [exact Hok|]. split; [exact Hp|]. split.
  { destruct vectors as [|av rest]; [contradiction|].
    pose proof (Hkept (B :: repeat 0 (List.length rest))
                  (bonus_tuple_all_to_first B _ ltac:(lia))
                  (total_bonus_all_to_first B _)) as Hfirst.
    intros E. rewrite E in Hfirst. exact Hfirst. }
  split; [|split; assumption].
  apply Forall_forall. intros p Hpin.
  destruct (Hfrom p Hpin) as (t & Ht & _ & ->).
  rewrite plan_of_score. apply score_sum_sign.
  now destruct (chosen_setups_spec rand fuel thr iters B vectors table Hok t Ht)
    as (_ & _ & F & _).
Qed.

(** The plans [PlanWar] may report are the best of the array. *)
Lemma PlanWar_best_spec (rand : nat -> Z) (granted : Z -> bool)
      (vectors : list attack_vector_def) (B : Z) (thr : float) (iters : Z)
      (pos : nat) :
  (forall n, 0 <= rand n <= INT_MAX) ->
  vectors <> [] -> Z.of_nat (List.length vectors) <= MAX_ATTACK_VECTORS ->
  Forall vector_ok vectors ->
  1 <= B < UINT_MAX -> 0 <= iters <= UINT_MAX ->
  holds_plans granted (plans_to_store (List.length vectors) B) ->
  exists fuel0, forall fuel, (fuel0 <= fuel)%nat ->
  exists table reported pos',
    setups_table rand fuel vectors B thr iters pos = Some (table, pos')
    /\ table_ok rand fuel thr iters B vectors table
    /\ PlanWar rand granted fuel vectors B thr iters pos = Some (Ok reported, pos')
    /\ PlanWar_may_report rand granted fuel vectors B thr iters pos reported pos'
    /\ forall best,
        PlanWar_may_report rand granted fuel vectors B thr iters pos best pos' ->
        exists t,
          bonus_tuple (List.length vectors) B t /\ total_bonus t = B
          /\ best = snd (plan_of table t)
          /\ plan_bonuses best = t
          /\ setups best = chosen_setups table t
          /\ forall t', bonus_tuple (List.length vectors) B t' ->
                        total_bonus t' = B ->
                        fge (total_score best) (plan_score table t') = true.
Proof.
  intros Hr Hne Hcap Hall HB Hit Hold.
  destruct (PlanWar_array_spec rand granted vectors B thr iters pos
              Hr Hne Hcap Hall HB Hit Hold) as (fuel0 & H).
  exists fuel0. intros fuel Hle.
  destruct (H fuel Hle)
    as (table & plans & pos' & Htab & Hok & Hp & Hplans & Hsign & Hkept & Hfrom).
  pose proof (qsort_ComparePlan_result plans Hsign) as Hsorted.
  destruct (qsort ComparePlan plans) as [|reported others] eqn:Esort.
  { destruct Hsorted as [Hperm _]. apply Permutation_sym, Permutation_nil in Hperm.
    contradiction. }
  exists table, reported, pos'.
  split; [exact Htab|]. split; [exact Hok|]. split.
  { unfold PlanWar. rewrite (bind_eq _ _ _ _ _ Hp), Esort. reflexivity. }
  split; [exists plans, others; auto|].
  intros best (plans' & others' & Hp' & Hres).
  rewrite Hp in Hp'. injection Hp' as <-.
  destruct (qsort_result_best plans best others' Hsign Hres) as [Hbest Hmax].
  destruct (Hfrom best Hbest) as (t & Ht & Hs & Ebest).
  destruct (chosen_setups_spec rand fuel thr iters B vectors table Hok t Ht)
    as (Eb & _).
  assert (Esetups : setups best = chosen_setups table t)
    by (rewrite Ebest; apply plan_of_setups).
  exists t. split; [exact Ht|]. split; [exact Hs|]. split; [exact Ebest|].
  split; [unfold plan_bonuses; now rewrite Esetups|]. split; [exact Esetups|].
  intros t' Ht' Hs'. apply Hmax. now apply Hkept.
Qed.

(** C1, as amended.  For a nonempty list of V attack vectors, 16 at most,
    and a pool B with 1 <= B < 2^32 - 1, when the allocator lets the array
    grow to the binomial(B + V - 1, V - 1) plans there are to store,
    [PlanWar] terminates and reports a plan.  Every plan it may report (the
    first of the array after [qsort], whatever order [qsort] gives to plans
    of equal score) has one setup per vector, in the order of the vectors,
    each the cell of the table for its vector and bonus, so that its score
    is the threshold-gated win likelihood of a prediction for that vector
    and bonus; its bonuses lie in [0, B] and add up to B; its total score
    is the float sum of the scores; and no tuple of bonuses in [0, B] that
    adds up to B has a greater total score over the same table. *)
Theorem PlanWar_reports_best_plan
        (rand : nat -> Z) (granted : Z -> bool) (vectors : list attack_vector_def)
        (B : Z) (thr : float) (iters : Z) (pos : nat) :
  (forall n, 0 <= rand n <= INT_MAX) ->
  vectors <> [] -> Z.of_nat (List.length vectors) <= MAX_ATTACK_VECTORS ->
  Forall vector_ok vectors ->
  1 <= B < UINT_MAX ->
  0 <= iters <= UINT_MAX ->
  holds_plans granted (plans_to_store (List.length vectors) B) ->
  exists fuel0, forall fuel, (fuel0 <= fuel)%nat ->
  exists table reported pos',
    setups_table rand fuel vectors B thr iters pos = Some (table, pos')
    /\ table_ok rand fuel thr iters B vectors table
    /\ PlanWar rand granted fuel vectors B thr iters pos = Some (Ok reported, pos')
    /\ PlanWar_may_report rand granted fuel vectors B thr iters pos reported pos'
    /\ forall best,
        PlanWar_may_report rand granted fuel vectors B thr iters pos best pos' ->
        map attack_vector (setups best) = vectors
        /\ bonus_tuple (List.length vectors) B (plan_bonuses best)
        /\ total_bonus (plan_bonuses best) = B
        /\ setups best = chosen_setups table (plan_bonuses best)
        /\ Forall (fun s =>
                     (exists p0 p1,
                         PredictAttack rand fuel (attack_vector s) (bonus s) iters p0
                         = Some (prediction s, p1))
                     /\ score s = gate_score (win_likelihood (prediction s)) thr)
                  (setups best)
        /\ total_score best = score_sum (setups best)
        /\ (forall t, bonus_tuple (List.length vectors) B t ->
                      total_bonus t = B ->
                      plan_score table t = score_sum (chosen_setups table t)
                      /\ fge (total_score best) (plan_score table t) = true).
Proof.
  intros Hr Hne Hcap Hall HB Hit Hold.
  destruct (PlanWar_best_spec rand granted vectors B thr iters pos
              Hr Hne Hcap Hall HB Hit Hold) as (fuel0 & H).
  exists fuel0. intros fuel Hle.
  destruct (H fuel Hle) as (table & reported & pos' & Htab & Hok & Hp & Hmay & Hbest).
  exists table, reported, pos'.
  split; [exact Htab|]. split; [exact Hok|]. split; [exact Hp|].
  split; [exact Hmay|].
  intros best Hb.
  destruct (Hbest best Hb) as (t & Ht & Hs & Ebest & Ebonuses & Esetups & Hmax).
  destruct (chosen_setups_spec rand fuel thr iters B vectors table Hok t Ht)
    as (Eb & Ev & _ & Hcells).
  rewrite Ebonuses, Esetups.
  split; [exact Ev|]. split; [exact Ht|]. split; [exact Hs|].
  split; [reflexivity|]. split.
  { clear - Hcells. induction Hcells as [|ab s l l' Hcell _ IH]; constructor; auto.
    destruct Hcell as [(p0 & p1 & Hm) _].
    destruct (make_setup_inv _ _ _ _ _ _ _ _ _ Hm) as (Ea & Ebn & Es & Hpred).
    rewrite Ea, Ebn. split; [eauto | exact Es]. }
  split; [rewrite Ebest; apply plan_of_score|].
  intros t' Ht' Hs'. split; [apply plan_of_score|].
  now apply Hmax.
Qed.

Lemma PlanWar_reports_best_plan_witness :
  exists fuel0, forall fuel, (fuel0 <= fuel)%nat ->
  exists table reported pos',
    setups_table sample_rand fuel [sample_vector; trivial_vector] 2 fzero 3 0%nat
    = Some (table, pos')
    /\ table_ok sample_rand fuel fzero 3 2 [sample_vector; trivial_vector] table
    /\ PlanWar sample_rand grant_all fuel [sample_vector; trivial_vector] 2 fzero 3
               0%nat
       = Some (Ok reported, pos')
    /\ PlanWar_may_report sample_rand grant_all fuel [sample_vector; trivial_vector]
         2 fzero 3 0%nat reported pos'
    /\ forall best,
        PlanWar_may_report sample_rand grant_all fuel [sample_vector; trivial_vector]
          2 fzero 3 0%nat best pos' ->
        map attack_vector (setups best) = [sample_vector; trivial_vector]
        /\ bonus_tuple (List.length [sample_vector; trivial_vector]) 2
             (plan_bonuses best)
        /\ total_bonus (plan_bonuses best) = 2
        /\ setups best = chosen_setups table (plan_bonuses best)
        /\ Forall (fun s =>
                     (exists p0 p1,
                         PredictAttack sample_rand fuel (attack_vector s) (bonus s) 3 p0
                         = Some (prediction s, p1))
                     /\ score s = gate_score (win_likelihood (prediction s)) fzero)
                  (setups best)
        /\ total_score best = score_sum (setups best)
        /\ (forall t, bonus_tuple (List.length [sample_vector; trivial_vector]) 2 t ->
                      total_bonus t = 2 ->
                      plan_score table t = score_sum (chosen_setups table t)
                      /\ fge (total_score best) (plan_score table t) = true).
Proof.
  apply (PlanWar_reports_best_plan sample_rand grant_all
           [sample_vector; trivial_vector] 2 fzero 3 0).
  - exact sample_rand_range.
  - discriminate.
  - unfold MAX_ATTACK_VECTORS. simpl. lia.
  - constructor; [exact sample_vector_ok|].
    constructor; [exact trivial_vector_ok | constructor].
  - unfold UINT_MAX; lia.
  - unfold UINT_MAX; lia.
  - apply grant_all_holds. vm_compute. discriminate.
Defined.

Lemma score_sum_zeros (l : list attack_setup) :
  Forall (fun s => score s = fzero) l -> score_sum l = fzero.
Proof.
  unfold score_sum. induction 1 as [|s l Hs _ IH]; cbn [fold_right].
  - reflexivity.
  - now rewrite IH, Hs.
Qed.

Lemma PlanWar_Ok_plans (rand : nat -> Z) (granted : Z -> bool) (fuel : nat)
      (vectors : list attack_vector_def) (B : Z) (thr : float) (iters : Z)
      (pos : nat) (best : attack_plan) (pos' : nat) :
  PlanWar rand granted fuel vectors B thr iters pos = Some (Ok best, pos') ->
  exists plans,
    PlanWar_plans rand granted fuel vectors B thr iters pos = Some (Ok plans, pos').
Proof.
  unfold PlanWar. intros H. apply bind_Some in H.
  destruct H as ([plans|stdout|] & p1 & Hp & H); try discriminate.
  destruct (qsort ComparePlan plans); [discriminate|].
  unfold ret in H. injection H as _ <-. eauto.
Qed.

(** C1 as it is worded fails.  With the pool at [UINT_MAX], a nonzero
    amount, the planner reports no plan, whatever the allocator and the
    bound on its loops.  With three vectors and a pool of 2^31 it never
    reports a plan either, whatever the allocator does: there are more
    plans to store than [SIZE_MAX] bytes hold.  When the allocator returns
    [NULL] for the first block, two vectors and a pool of 2 end in [Abort],
    with no plan reported.  And with 17 vectors, one more than a plan has
    setups, no plan is reported either. *)
Lemma PlanWar_reports_no_plan :
  (forall granted fuel,
      PlanWar sample_rand granted fuel [sample_vector] UINT_MAX fzero 1 0%nat = None)
  /\ (forall granted fuel best pos',
         PlanWar sample_rand granted fuel
                 [sample_vector; sample_vector; sample_vector]
                 2147483648 fzero 0 0%nat
         <> Some (Ok best, pos'))
  /\ (forall fuel,
         PlanWar sample_rand (grant_up_to 0) fuel [sample_vector; trivial_vector]
                 2 fzero 3 0%nat
         = Some (Abort "Memory alloc for plans failed", 0%nat))
  /\ (forall granted fuel best pos',
         PlanWar sample_rand granted fuel (repeat trivial_vector 17) 1 fzero 0 0%nat
         <> Some (Ok best, pos')).
Proof.
  split; [|split; [|split]].
  - intros granted fuel. unfold PlanWar, bind.
    now rewrite PlanWar_plans_no_cell.
  - intros granted fuel best pos' H.
    destruct (PlanWar_Ok_plans _ _ _ _ _ _ _ _ _ _ H) as (plans & Hp).
    destruct (PlanWar_plans_fit _ _ _ _ _ _ _ _ _ _ Hp) as (_ & _ & Hmany & Hold);
      [unfold UINT_MAX; lia|].
    change (List.length [sample_vector; sample_vector; sample_vector]) with 3%nat
      in Hmany.
    pose proof plans_to_store_too_many as Htoo.
    pose proof (holds_plans_bound granted _ (Nat2Z.is_nonneg _) Hold) as Hsize.
    rewrite sizeof_attack_plan_value in *. lia.
  - intros fuel. unfold PlanWar, bind.
    rewrite PlanWar_plans_refused by (unfold UINT_MAX; lia || reflexivity).
    reflexivity.
  - intros granted fuel best pos' H.
    destruct (PlanWar_Ok_plans _ _ _ _ _ _ _ _ _ _ H) as (plans & Hp).
    destruct (PlanWar_plans_fit _ _ _ _ _ _ _ _ _ _ Hp) as (_ & Hcap & _);
      [unfold UINT_MAX; lia|].
    rewrite repeat_length in Hcap. unfold MAX_ATTACK_VECTORS in Hcap. lia.
Qed.

(** ** The raw values behind a die *)

Lemma UniformDiceRoll_step (rand : nat -> Z) (fuel pos : nat) :
  UniformDiceRoll rand (S fuel) pos =
  if accepted (uint (rand pos))
  then Some (uint (face_of (uint (rand pos))), S pos)
  else UniformDiceRoll rand fuel (S pos).
Proof.
  cbn [UniformDiceRoll]. unfold bind, rand_call, accepted, face_of.
  destruct (uint (rand pos) >=? MAX_DICE_RAND_VALUE); reflexivity.
Qed.

Lemma accepted_below (r : Z) : r < MAX_DICE_RAND_VALUE -> accepted r = true.
Proof.
  intros H. unfold accepted. destruct (Z.geb_spec r MAX_DICE_RAND_VALUE); [lia | reflexivity].
Qed.

Lemma raw_values_for_closed_form (rand_max face : Z) :
  0 <= rand_max < MAX_DICE_RAND_VALUE -> 1 <= face <= 6 ->
  raw_values_for rand_max face = (rand_max + 7 - face) / 6.
Proof.
  intros Hmax Hface. unfold raw_values_for.
  replace (Z.to_nat (rand_max + 1)) with (S (Z.to_nat rand_max)) by lia.
  rewrite <- (Z2Nat.id rand_max) at 2 by lia.
  assert (Hn : Z.of_nat (Z.to_nat rand_max) < MAX_DICE_RAND_VALUE) by lia.
  generalize dependent (Z.to_nat rand_max). clear Hmax rand_max.
  induction n as [|n IH]; intros Hn.
  - cbn [seq map filter]. rewrite accepted_below by exact Hn.
    unfold face_of, DICE_SIDES. cbn [andb Z.of_nat].
    change (0 mod 6 + 1) with 1.
    destruct (Z.eqb_spec 1 face) as [<-|Hne]; cbn [List.length].
    + reflexivity.
    + symmetry. apply Z.div_small. lia.
  - rewrite seq_S, map_app, filter_app, length_app, Nat2Z.inj_add, IH by lia.
    cbn [map filter Nat.add]. rewrite accepted_below by exact Hn.
    unfold face_of, DICE_SIDES. cbn [andb].
    pose proof (Z.div_mod (Z.of_nat n + 7 - face) 6 ltac:(lia)) as D1.
    pose proof (Z.mod_pos_bound (Z.of_nat n + 7 - face) 6 ltac:(lia)) as B1.
    pose proof (Z.div_mod (Z.of_nat (S n) + 7 - face) 6 ltac:(lia)) as D2.
    pose proof (Z.mod_pos_bound (Z.of_nat (S n) + 7 - face) 6 ltac:(lia)) as B2.
    pose proof (Z.div_mod (Z.of_nat (S n)) 6 ltac:(lia)) as D3.
    pose proof (Z.mod_pos_bound (Z.of_nat (S n)) 6 ltac:(lia)) as B3.
    destruct (Z.eqb_spec (Z.of_nat (S n) mod 6 + 1) face) as [E|E];
      cbn [List.length Z.of_nat]; lia.
Qed.

(** C7 fails on the code.  The bound of the rejection loop is
    (UINT_MAX / 6) * 6 = 4294967292, taken from [UINT_MAX] and not from the
    largest value of [rand()]: every value [rand()] can return, which is at
    most [INT_MAX], is accepted, the two values 2147483646 and 2147483647
    above the largest multiple of 6 included.  With [RAND_MAX] = 2147483647
    the faces 1 and 2 are reached from 357913942 raw values and the faces 3
    to 6 from 357913941; with [RAND_MAX] = 32767, from 5462 and 5461. *)
Theorem UniformDiceRoll_modulo_bias :
  MAX_DICE_RAND_VALUE = 4294967292
  /\ (forall r, 0 <= r <= INT_MAX -> accepted r = true)
  /\ (forall rand fuel pos,
         0 <= rand pos <= INT_MAX ->
         UniformDiceRoll rand (S fuel) pos = Some (face_of (rand pos), S pos))
  /\ face_of 2147483646 = 1 /\ face_of 2147483647 = 2
  /\ raw_values_for 2147483647 1 = 357913942
  /\ raw_values_for 2147483647 2 = 357913942
  /\ raw_values_for 2147483647 3 = 357913941
  /\ raw_values_for 2147483647 4 = 357913941
  /\ raw_values_for 2147483647 5 = 357913941
  /\ raw_values_for 2147483647 6 = 357913941
  /\ raw_values_for 32767 1 = 5462
  /\ raw_values_for 32767 6 = 5461.
Proof.
  split; [reflexivity|]. split.
  { intros r Hr. apply accepted_below. unfold INT_MAX in Hr.
    change MAX_DICE_RAND_VALUE with 4294967292. lia. }
  split.
  { intros rand fuel pos Hr. rewrite UniformDiceRoll_step.
    unfold INT_MAX in Hr.
    rewrite (uint_small (rand pos)) by (unfold is_uint, UINT_MAX; lia).
    rewrite accepted_below by (change MAX_DICE_RAND_VALUE with 4294967292; lia).
    rewrite uint_small; [reflexivity|].
    unfold face_of, DICE_SIDES, is_uint, UINT_MAX.
    pose proof (Z.mod_pos_bound (rand pos) 6). lia. }
  split; [reflexivity|]. split; [reflexivity|].
  repeat match goal with |- _ /\ _ => split end;
    (rewrite raw_values_for_closed_form;
     [reflexivity | change MAX_DICE_RAND_VALUE with 4294967292; lia | lia]).
Qed.

(** ** Vectors whose territories are all defended *)

Section DefendedVectors.
Variable rand : nat -> Z.
Hypothesis rand_range : forall n, 0 <= rand n <= INT_MAX.

Lemma SimAttack_loop_defended (fuel : nat) (ts : list territory_def) :
  enough_fuel fuel ->
  forall front c pos,
    ts <> [] -> Forall (fun t => 1 <= units t <= UINT_MAX) ts ->
    1 <= front <= UINT_MAX ->
    exists r pos',
      SimAttack_loop rand fuel ts front c pos = Some (r, pos')
      /\ 1 <= result_units_on_front r <= front
      /\ Forall (fun f => 1 <= f <= front) (fronts_carried rand fuel ts front pos).
Proof.
  intros Hfuel. induction ts as [|t rest IH]; intros front c pos Hne Hts Hfront.
  - contradiction.
  - inversion Hts as [|? ? Ht Hrest]; subst.
    assert (Hf : exists fuel', fuel = S fuel').
    { destruct fuel; [unfold enough_fuel, UINT_MAX in Hfuel; lia | eauto]. }
    destruct Hf as (fuel' & ->).
    destruct (AttackTerritory_loop_total rand rand_range fuel' (S fuel') front
                (units t) pos)
      as (rf & rt & p1 & Ha & _ & Hrf & Hrt & Hone & Hwin); try lia.
    { unfold enough_fuel in Hfuel. lia. }
    fold (AttackTerritory rand (S fuel') front t pos) in Ha.
    cbn [SimAttack_loop fronts_carried]. rewrite (bind_eq _ _ _ _ _ Ha), Ha.
    destruct (Z.eqb_spec rt 0) as [E|E].
    + assert (2 <= rf) by (apply Hwin; lia).
      unfold MIN_TERRITORY_UNITS.
      rewrite (uint_small (rf - 1)) by (unfold is_uint; lia).
      destruct rest as [|t' rest'].
      * exists {| conquered_territory_count := c + 1;
                  result_units_on_front := rf - 1;
                  enemy_units_on_front := rt |}, p1.
        split; [reflexivity|]. cbn. split; [lia|].
        constructor; [lia | constructor].
      * destruct (IH (rf - 1) (c + 1) p1) as (r & pos' & Hr & Hres & Hall);
          try discriminate; auto; try lia.
        exists r, pos'. split; [exact Hr|]. split; [lia|].
        constructor; [lia|].
        eapply Forall_impl; [|exact Hall]. cbv beta. intros; lia.
    + eexists. exists p1. split; [reflexivity|]. cbn. split; [lia|].
      constructor; [lia | constructor].
Qed.

End DefendedVectors.

(** X1. When every territory of the vector has at least one defender and
    the front starts with at least one unit, [SimAttack] returns a result;
    the units it carries into each territory, and the units it reports, lie
    between 1 and the starting front: the subtraction of a garrison never
    wraps around. *)
Theorem SimAttack_defended_never_wraps
        (rand : nat -> Z) (av : attack_vector_def) (bonus_units : Z) (pos : nat) :
  (forall n, 0 <= rand n <= INT_MAX) ->
  vector_ok av ->
  Forall (fun t => 1 <= units t) (territory_vector av) ->
  1 <= units_on_front av + bonus_units <= UINT_MAX ->
  exists fuel0, forall fuel, (fuel0 <= fuel)%nat ->
  exists r pos',
    SimAttack rand fuel av bonus_units pos = Some (r, pos')
    /\ 1 <= result_units_on_front r <= units_on_front av + bonus_units
    /\ Forall (fun f => 1 <= f <= units_on_front av + bonus_units)
              (fronts_carried rand fuel (territory_vector av)
                              (uint (units_on_front av + bonus_units)) pos).
Proof.
  intros Hr (_ & Hne & _ & Hunits) Hdef Hfront.
  destruct enough_fuel_exists as (fuel0 & Hfuel0). exists fuel0. intros fuel Hle.
  pose proof (enough_fuel_mono _ _ Hfuel0 Hle) as Hfuel.
  unfold SimAttack.
  rewrite (uint_small (units_on_front av + bonus_units)) by (unfold is_uint; lia).
  apply SimAttack_loop_defended; auto.
  rewrite Forall_forall in *. intros t Ht.
  specialize (Hunits t Ht). specialize (Hdef t Ht). unfold is_uint in Hunits. lia.
Qed.

Lemma SimAttack_defended_never_wraps_witness :
  exists fuel0, forall fuel, (fuel0 <= fuel)%nat ->
  exists r pos',
    SimAttack sample_rand fuel sample_vector 2 0%nat = Some (r, pos')
    /\ 1 <= result_units_on_front r <= units_on_front sample_vector + 2
    /\ Forall (fun f => 1 <= f <= units_on_front sample_vector + 2)
              (fronts_carried sample_rand fuel (territory_vector sample_vector)
                              (uint (units_on_front sample_vector + 2)) 0%nat).
Proof.
  apply (SimAttack_defended_never_wraps sample_rand sample_vector 2 0).
  - exact sample_rand_range.
  - exact sample_vector_ok.
  - repeat constructor; simpl; lia.
  - unfold UINT_MAX; simpl; lia.
Defined.

(** ** A single vector *)

Lemma NoDup_only (A : Type) (a : A) (l : list A) :
  NoDup l -> (forall x, In x l <-> x = a) -> l = [a].
Proof.
  intros Hnd Hin. destruct l as [|x l].
  - exfalso. apply (proj2 (Hin a) eq_refl).
  - assert (x = a) by (apply Hin; now left). subst x.
    destruct l as [|y l]; [reflexivity|].
    assert (y = a) by (apply Hin; right; now left). subst y.
    inversion Hnd as [|? ? Hnot _]; subst. exfalso. apply Hnot. now left.
Qed.

(** X2. With a single vector the planner asks for one block of plans.
    When the allocator grants it, the search stores exactly one plan: the
    one that gives the whole pool to the vector.  When it does not, the
    planner aborts before it has drawn a random value. *)
Theorem PlanWar_single_vector
        (rand : nat -> Z) (granted : Z -> bool) (av : attack_vector_def) (B : Z)
        (thr : float) (iters : Z) (pos : nat) :
  (forall n, 0 <= rand n <= INT_MAX) ->
  vector_ok av -> 1 <= B < UINT_MAX -> 0 <= iters <= UINT_MAX ->
  exists fuel0, forall fuel, (fuel0 <= fuel)%nat ->
  if granted (PLANS_SIZE_INCREMENT * sizeof_attack_plan) then
    exists plans pos',
      PlanWar_plans rand granted fuel [av] B thr iters pos = Some (Ok plans, pos')
      /\ map plan_bonuses plans = [[B]]
  else
    PlanWar_plans rand granted fuel [av] B thr iters pos
    = Some (Abort "Memory alloc for plans failed", pos).
Proof.
  intros Hr Hav HB Hit.
  destruct (granted (PLANS_SIZE_INCREMENT * sizeof_attack_plan)) eqn:Eg.
  - destruct (PlanWar_tuples_spec rand granted [av] B thr iters pos Hr) as (fuel0 & H);
      try assumption; try lia.
    { discriminate. }
    { unfold MAX_ATTACK_VECTORS. simpl. lia. }
    { constructor; [exact Hav | constructor]. }
    { unfold plans_to_store. cbn [List.length Nat.sub]. rewrite binomial_zero.
      intros k Hk Hs. unfold PLANS_SIZE_INCREMENT in Hs.
      assert (k = 1) by lia. subst k. rewrite Z.mul_1_l.
      split; [vm_compute; discriminate | exact Eg]. }
    exists fuel0. intros fuel Hle.
    destruct (H fuel Hle) as (table & plans & pos' & _ & _ & Hp & _ & _ & Hnd & Hin & _).
    exists plans, pos'. split; [exact Hp|].
    apply NoDup_only; [exact Hnd|].
    intros t. rewrite Hin. unfold bonus_tuple. split.
    + intros [[Hl Hall] Hs].
      destruct t as [|b [|b' t]]; try discriminate.
      cbn [total_bonus fold_right] in Hs. rewrite Z.add_0_r in Hs. now rewrite Hs.
    + intros ->. split; [split; [reflexivity|]|].
      * constructor; [lia | constructor].
      * cbn [total_bonus fold_right]. lia.
  - exists 0%nat. intros fuel _. apply PlanWar_plans_refused; [lia | exact Eg].
Qed.

Lemma PlanWar_single_vector_witness :
  exists fuel0, forall fuel, (fuel0 <= fuel)%nat ->
  exists plans pos',
    PlanWar_plans sample_rand grant_all fuel [sample_vector] 3 fzero 2 0%nat
    = Some (Ok plans, pos')
    /\ map plan_bonuses plans = [[3]].
Proof.
  apply (PlanWar_single_vector sample_rand grant_all sample_vector 3 fzero 2 0).
  - exact sample_rand_range.
  - exact sample_vector_ok.
  - unfold UINT_MAX; lia.
  - unfold UINT_MAX; lia.
Defined.

(** ** A threshold that no setup meets *)

(** The setups of a plan are cells of the table. *)
Lemma chosen_setups_cells (rand : nat -> Z) (fuel : nat) (thr : float)
      (iters B : Z) (vectors : list attack_vector_def)
      (table : list (list attack_setup)) :
  table_ok rand fuel thr iters B vectors table ->
  forall t, bonus_tuple (List.length vectors) B t ->
    Forall (fun s => (exists row, In row table /\ In s row)
                     /\ score s = gate_score (win_likelihood (prediction s)) thr)
           (chosen_setups table t).
Proof.
  unfold table_ok, bonus_tuple, chosen_setups.
  induction 1 as [|av row vectors table Hrow Htab IH]; intros t [Hl Hall].
  - destruct t; [|discriminate]. constructor.
  - destruct t as [|b t]; [discriminate|].
    inversion Hall as [|? ? Hb Ht]; subst.
    cbn [combine map fst snd]. constructor.
    + destruct Hrow as [Hlen Hcells].
      destruct (Hcells b Hb) as [(p0 & p1 & Hm) _].
      destruct (make_setup_inv _ _ _ _ _ _ _ _ _ Hm) as (_ & _ & Es & _).
      split; [|exact Es].
      exists row. split; [now left|]. apply nth_In. lia.
    + assert (Hrest : Forall (fun s => (exists row0, In row0 table /\ In s row0)
                                       /\ score s
                                          = gate_score (win_likelihood (prediction s)) thr)
                             (map (fun cell : list attack_setup * Z =>
                                     nth (Z.to_nat (snd cell)) (fst cell) unset_setup)
                                  (combine table t)))
        by (apply IH; split; [cbn in Hl; lia | assumption]).
      eapply Forall_impl; [|exact Hrest].
      intros s [(row0 & Hin & Hs) Es]. split; [|exact Es].
      exists row0. split; [now right | exact Hs].
Qed.

(** X3. When the likelihood of every setup of the table is below the
    threshold, the plan [PlanWar] reports has a total score of zero, and it
    is still a plan of the search: one setup per vector, in order, with
    bonus amounts between 0 and the pool that add up to the pool.  The
    vectors are 16 at most, and the allocator lets the array grow to the
    plans there are to store. *)
Theorem PlanWar_all_below_threshold
        (rand : nat -> Z) (granted : Z -> bool) (vectors : list attack_vector_def)
        (B : Z) (thr : float) (iters : Z) (pos : nat) :
  (forall n, 0 <= rand n <= INT_MAX) ->
  vectors <> [] -> Z.of_nat (List.length vectors) <= MAX_ATTACK_VECTORS ->
  Forall vector_ok vectors ->
  1 <= B < UINT_MAX ->
  0 <= iters <= UINT_MAX ->
  holds_plans granted (plans_to_store (List.length vectors) B) ->
  exists fuel0, forall fuel, (fuel0 <= fuel)%nat ->
  exists table reported pos',
    setups_table rand fuel vectors B thr iters pos = Some (table, pos')
    /\ PlanWar rand granted fuel vectors B thr iters pos = Some (Ok reported, pos')
    /\ ((forall row s, In row table -> In s row ->
                       fge (win_likelihood (prediction s)) thr = false) ->
        forall best,
          PlanWar_may_report rand granted fuel vectors B thr iters pos best pos' ->
          total_score best = fzero
          /\ map attack_vector (setups best) = vectors
          /\ bonus_tuple (List.length vectors) B (plan_bonuses best)
          /\ total_bonus (plan_bonuses best) = B).
Proof.
  intros Hr Hne Hcap Hall HB Hit Hold.
  destruct (PlanWar_best_spec rand granted vectors B thr iters pos
              Hr Hne Hcap Hall HB Hit Hold) as (fuel0 & H).
  exists fuel0. intros fuel Hle.
  destruct (H fuel Hle) as (table & reported & pos' & Htab & Hok & Hp & _ & Hbest).
  exists table, reported, pos'.
  split; [exact Htab|]. split; [exact Hp|].
  intros Hbelow best Hb.
  destruct (Hbest best Hb) as (t & Ht & Hs & Ebest & Ebonuses & Esetups & _).
  destruct (chosen_setups_spec rand fuel thr iters B vectors table Hok t Ht)
    as (Eb & Ev & _ & _).
  rewrite Ebonuses, Esetups.
  split; [|split; [exact Ev | split; [exact Ht | exact Hs]]].
  rewrite Ebest, plan_of_score. apply score_sum_zeros.
  eapply Forall_impl;
    [|exact (chosen_setups_cells rand fuel thr iters B vectors table Hok t Ht)].
  intros s [(row & Hrow & Hin) Es]. rewrite Es. unfold gate_score.
  now rewrite (Hbelow row s Hrow Hin).
Qed.

Lemma PlanWar_all_below_threshold_witness :
  exists fuel0, forall fuel, (fuel0 <= fuel)%nat ->
  exists table reported pos',
    setups_table sample_rand fuel [sample_vector; trivial_vector] 2 S754_nan 3 0%nat
    = Some (table, pos')
    /\ PlanWar sample_rand grant_all fuel [sample_vector; trivial_vector] 2 S754_nan 3
               0%nat
       = Some (Ok reported, pos')
    /\ forall best,
        PlanWar_may_report sample_rand grant_all fuel [sample_vector; trivial_vector] 2
          S754_nan 3 0%nat best pos' ->
        total_score best = fzero
        /\ map attack_vector (setups best) = [sample_vector; trivial_vector]
        /\ bonus_tuple 2 2 (plan_bonuses best)
        /\ total_bonus (plan_bonuses best) = 2.
Proof.
  destruct (PlanWar_all_below_threshold sample_rand grant_all
              [sample_vector; trivial_vector] 2 S754_nan 3 0) as (fuel0 & H).
  - exact sample_rand_range.
  - discriminate.
  - unfold MAX_ATTACK_VECTORS. simpl. lia.
  - constructor; [exact sample_vector_ok|].
    constructor; [exact trivial_vector_ok | constructor].
  - unfold UINT_MAX; lia.
  - unfold UINT_MAX; lia.
  - apply grant_all_holds. vm_compute. discriminate.
  - exists fuel0. intros fuel Hle.
    destruct (H fuel Hle) as (table & reported & pos' & Htab & Hrep & Hzero).
    exists table, reported, pos'.
    split; [exact Htab|]. split; [exact Hrep|].
    apply Hzero. intros row s _ _. reflexivity.
Defined.

(** * The command line, the output and the enumeration *)

(** ** Texts and tokens *)

Lemma all_chars_app (p : ascii -> bool) (a b : string) :
  all_chars p (a ++ b) = all_chars p a && all_chars p b.
Proof.
  induction a as [|c a IH]; simpl; [reflexivity|].
  now rewrite IH, andb_assoc.
Qed.

Lemma string_app_nil_r (s : string) : (s ++ EmptyString)%string = s.
Proof. induction s as [|c s IH]; simpl; [reflexivity | now rewrite IH]. Qed.

Lemma string_app_assoc (a b c : string) :
  ((a ++ b) ++ c)%string = (a ++ b ++ c)%string.
Proof. induction a as [|x a IH]; simpl; [reflexivity | now rewrite IH]. Qed.

Lemma string_length_app (a b : string) :
  String.length (a ++ b) = (String.length a + String.length b)%nat.
Proof. induction a as [|x a IH]; simpl; [reflexivity | now rewrite IH]. Qed.

Lemma skip_delims_only (delim : ascii) (pre rest : string) :
  only delim pre = true ->
  skip_delims delim (pre ++ rest) = skip_delims delim rest.
Proof.
  unfold only. induction pre as [|c pre IH]; simpl; [reflexivity|].
  intros H. apply andb_prop in H. destruct H as [Hc Hpre].
  rewrite Ascii.eqb_sym, Hc. now apply IH.
Qed.

Lemma skip_delims_shape (delim : ascii) (s : string) :
  exists pre, only delim pre = true
              /\ s = (pre ++ skip_delims delim s)%string
              /\ match skip_delims delim s with
                 | EmptyString => True
                 | String c _ => Ascii.eqb c delim = false
                 end.
Proof.
  induction s as [|c s (pre & Hpre & Hs & Hhead)]; simpl.
  - exists EmptyString. repeat split.
  - destruct (Ascii.eqb c delim) eqn:E.
    + exists (String c pre). unfold only in *. simpl.
      rewrite Ascii.eqb_sym, E, Hpre. repeat split; [now f_equal | exact Hhead].
    + exists EmptyString. repeat split. exact E.
Qed.

Lemma take_token_field (delim : ascii) (token rest : string) :
  without delim token = true ->
  take_token delim (token ++ String delim rest) = (token, rest)
  /\ take_token delim token = (token, EmptyString).
Proof.
  unfold without. induction token as [|c token IH]; simpl.
  - intros _. now rewrite Ascii.eqb_refl.
  - intros H. apply andb_prop in H. destruct H as [Hc Htok].
    apply negb_true_iff in Hc. rewrite Ascii.eqb_sym in Hc. rewrite Hc.
    destruct (IH Htok) as [-> ->]. now split.
Qed.

Lemma take_token_shape (delim : ascii) (s token saved : string) :
  take_token delim s = (token, saved) ->
  without delim token = true
  /\ ((s = token /\ saved = EmptyString) \/ s = (token ++ String delim saved)%string).
Proof.
  unfold without. revert token saved.
  induction s as [|c s IH]; simpl; intros token saved E.
  - injection E as <- <-. split; [reflexivity | now left].
  - destruct (Ascii.eqb c delim) eqn:Ec.
    + injection E as <- <-. apply Ascii.eqb_eq in Ec. subst c.
      split; [reflexivity | now right].
    + destruct (take_token delim s) as [token' saved'] eqn:E'.
      injection E as <- <-. destruct (IH _ _ eq_refl) as [Hw Hs].
      split.
      * simpl. rewrite Ascii.eqb_sym, Ec. exact Hw.
      * destruct Hs as [[-> ->] | ->]; [now left | now right].
Qed.

Lemma strtok_field (delim : ascii) (token rest : string) :
  is_field delim token ->
  strtok (token ++ String delim rest) delim = Some (token, rest)
  /\ strtok token delim = Some (token, EmptyString).
Proof.
  intros [Hne Hw]. destruct token as [|c token]; [contradiction|].
  pose proof Hw as Hw'. unfold without in Hw'. simpl in Hw'.
  apply andb_prop in Hw'. destruct Hw' as [Hc _].
  apply negb_true_iff in Hc. rewrite Ascii.eqb_sym in Hc.
  destruct (take_token_field delim (String c token) rest Hw) as [E1 E2].
  unfold strtok. simpl skip_delims. simpl append. simpl skip_delims.
  rewrite Hc. split; [exact (f_equal Some E1) | exact (f_equal Some E2)].
Qed.

Lemma strtok_None (delim : ascii) (s : string) :
  strtok s delim = None <-> only delim s = true.
Proof.
  unfold strtok. destruct (skip_delims_shape delim s) as (pre & Hpre & Hs & Hhead).
  destruct (skip_delims delim s) as [|c s'] eqn:E.
  - split; [intros _ | reflexivity].
    rewrite Hs, string_app_nil_r. exact Hpre.
  - split; [discriminate|]. intros Hall. exfalso.
    rewrite Hs in Hall. unfold only in Hall. rewrite all_chars_app in Hall.
    simpl in Hall. rewrite Ascii.eqb_sym, Hhead in Hall.
    now rewrite andb_false_r in Hall.
Qed.

(** A token is a field that follows delimiters only; the text saved for
    the next call is what comes after the delimiter that ends the token. *)
Lemma strtok_Some (delim : ascii) (s token saved : string) :
  strtok s delim = Some (token, saved) <->
  exists pre,
    only delim pre = true /\ is_field delim token
    /\ ((s = (pre ++ token)%string /\ saved = EmptyString)
        \/ s = (pre ++ token ++ String delim saved)%string).
Proof.
  split.
  - unfold strtok. destruct (skip_delims_shape delim s) as (pre & Hpre & Hs & Hhead).
    destruct (skip_delims delim s) as [|c s'] eqn:E; [discriminate|].
    intros H. injection H as H.
    change (take_token delim (String c s') = (token, saved)) in H.
    destruct (take_token_shape _ _ _ _ H) as [Hw Hshape].
    exists pre. split; [exact Hpre|]. split.
    + split; [|exact Hw]. intros ->.
      destruct Hshape as [[Hbad _] | Hbad]; [discriminate|].
      simpl in Hbad. injection Hbad as Hc _. subst c.
      now rewrite Ascii.eqb_refl in Hhead.
    + rewrite Hs. destruct Hshape as [[-> ->] | ->]; [now left | now right].
  - intros (pre & Hpre & Hfield & Hs).
    unfold strtok at 1.
    destruct Hs as [[-> ->] | ->]; rewrite (skip_delims_only _ _ _ Hpre).
    + exact (proj2 (strtok_field delim token EmptyString Hfield)).
    + exact (proj1 (strtok_field delim token saved Hfield)).
Qed.

Lemma strtok_shorter (delim : ascii) (s token saved : string) :
  strtok s delim = Some (token, saved) ->
  (String.length saved < String.length s)%nat.
Proof.
  intros H. apply strtok_Some in H.
  destruct H as (pre & _ & [Hne _] & Hs).
  destruct token as [|c token]; [contradiction|].
  destruct Hs as [[-> ->] | ->]; rewrite !string_length_app; simpl; lia.
Qed.

Lemma strtok_concat (delim : ascii) (f : string) (fs : list string) :
  is_field delim f ->
  strtok (String.concat (String delim EmptyString) (f :: fs)) delim
  = Some (f, String.concat (String delim EmptyString) fs).
Proof.
  intros Hf. destruct fs as [|f' fs].
  - simpl. exact (proj2 (strtok_field delim f EmptyString Hf)).
  - change (String.concat (String delim EmptyString) (f :: f' :: fs))
      with (f ++ String delim (String.concat (String delim EmptyString) (f' :: fs)))%string.
    exact (proj1 (strtok_field delim f _ Hf)).
Qed.

(** ** [ParseAttackVector] *)

(** The bound on the passes of the loop plays no part: any number of steps
    from the length of the text on gives the same outcome. *)
Lemma parse_territories_steps (steps1 : nat) :
  forall (steps2 : nat) (saved : string) (tv : list territory_def),
    (String.length saved <= steps1)%nat -> (String.length saved <= steps2)%nat ->
    parse_territories steps1 saved tv = parse_territories steps2 saved tv.
Proof.
  induction steps1 as [|steps1 IH]; intros steps2 saved tv H1 H2.
  - destruct saved; [|simpl in H1; lia]. now destruct steps2.
  - destruct steps2 as [|steps2].
    + destruct saved; [reflexivity | simpl in H2; lia].
    + simpl. destruct (strtok saved ",") as [[param saved']|] eqn:E; [|reflexivity].
      apply strtok_shorter in E.
      destruct (MAX_TERRITORY_VECTOR_SIZE <=? Z.of_nat (List.length tv));
        [reflexivity|].
      destruct (atoi param); [|reflexivity]. apply IH; lia.
Qed.

Lemma parse_territories_Ok (steps : nat) :
  forall (saved : string) (tv out : list territory_def),
    parse_territories steps saved tv = Ok out ->
    exists new,
      out = tv ++ new
      /\ Forall (fun t => is_uint (units t)) new
      /\ (new = [] <-> strtok saved "," = None)
      /\ (new <> [] -> Z.of_nat (List.length out) <= MAX_TERRITORY_VECTOR_SIZE).
Proof.
  induction steps as [|steps IH]; intros saved tv out H; simpl in H;
    destruct (strtok saved ",") as [[param saved']|] eqn:E.
  - discriminate.
  - injection H as <-. exists []. rewrite app_nil_r. repeat split; auto.
    intros Hne. contradiction.
  - destruct (MAX_TERRITORY_VECTOR_SIZE <=? Z.of_nat (List.length tv)) eqn:Hfull;
      [discriminate|].
    destruct (atoi param) as [n|]; [|discriminate].
    destruct (IH _ _ _ H) as (new & -> & Hall & Hnil & Hlen).
    exists ({| units := uint n |} :: new). rewrite <- app_assoc. simpl.
    split; [reflexivity|]. split; [constructor; [apply uint_is_uint | exact Hall]|].
    split; [split; discriminate|].
    intros _. destruct new as [|t new].
    + rewrite length_app. simpl. apply Z.leb_gt in Hfull.
      unfold MAX_TERRITORY_VECTOR_SIZE in *. lia.
    + rewrite <- app_assoc in Hlen. apply Hlen. discriminate.
  - injection H as <-. exists []. rewrite app_nil_r. repeat split; auto.
    intros Hne. contradiction.
Qed.

Lemma parse_territories_not_Aborted (steps : nat) :
  forall (saved : string) (tv : list territory_def) (stdout : list printf_call),
    parse_territories steps saved tv <> Aborted stdout.
Proof.
  induction steps as [|steps IH]; intros saved tv stdout; simpl;
    destruct (strtok saved ",") as [[param saved']|]; try discriminate.
  destruct (MAX_TERRITORY_VECTOR_SIZE <=? Z.of_nat (List.length tv));
    [discriminate|].
  destruct (atoi param); [apply IH | discriminate].
Qed.

Lemma concat_fields_length (fs : list string) :
  Forall (is_field ",") fs ->
  (List.length fs <= String.length (String.concat "," fs))%nat.
Proof.
  induction 1 as [|f fs [Hne _] _ IH]; [simpl; lia|].
  destruct f as [|c f]; [contradiction|].
  destruct fs as [|f' fs]; [simpl; lia|].
  change (String.concat "," (String c f :: f' :: fs))
    with (String c f ++ String "," (String.concat "," (f' :: fs)))%string.
  rewrite string_length_app. simpl in *. lia.
Qed.

(** The loop on a text of fields: one territory per field, as long as the
    array has room. *)
Lemma parse_territories_concat (fs : list string) :
  forall (counts : list Z) (steps : nat) (tv : list territory_def),
    Forall (is_field ",") fs ->
    Forall2 (fun f n => atoi f = Some n) fs counts ->
    (List.length fs <= steps)%nat ->
    Z.of_nat (List.length tv + List.length fs) <= MAX_TERRITORY_VECTOR_SIZE ->
    parse_territories steps (String.concat "," fs) tv
    = Ok (tv ++ territories_of counts).
Proof.
  induction fs as [|f fs IH]; intros counts steps tv Hfs Hat Hsteps Hroom.
  - inversion Hat; subst. rewrite app_nil_r. now destruct steps.
  - inversion Hfs as [|? ? Hf Hfs']; subst.
    inversion Hat as [|? n ? counts' Hn Hat']; subst.
    destruct steps as [|steps]; [simpl in Hsteps; lia|].
    cbn [parse_territories]. rewrite (strtok_concat "," f fs Hf).
    replace (MAX_TERRITORY_VECTOR_SIZE <=? Z.of_nat (List.length tv)) with false
      by (symmetry; apply Z.leb_gt; simpl in Hroom; lia).
    rewrite Hn. rewrite (IH counts' steps); auto.
    + unfold territories_of. simpl. now rewrite <- app_assoc.
    + simpl in Hsteps. lia.
    + rewrite length_app. simpl in *. lia.
Qed.

(** With more fields than the array has room for, the loop writes outside
    the array. *)
Lemma parse_territories_overrun (fs : list string) :
  forall (counts : list Z) (steps : nat) (tv : list territory_def),
    Forall (is_field ",") fs ->
    Forall2 (fun f n => atoi f = Some n) fs counts ->
    MAX_TERRITORY_VECTOR_SIZE < Z.of_nat (List.length tv + List.length fs) ->
    Z.of_nat (List.length tv) <= MAX_TERRITORY_VECTOR_SIZE ->
    parse_territories steps (String.concat "," fs) tv = Undefined.
Proof.
  induction fs as [|f fs IH]; intros counts steps tv Hfs Hat Hover Htv.
  - simpl in Hover. lia.
  - inversion Hfs as [|? ? Hf Hfs']; subst.
    inversion Hat as [|? n ? counts' Hn Hat']; subst.
    destruct steps as [|steps]; cbn [parse_territories];
      rewrite (strtok_concat "," f fs Hf); [reflexivity|].
    destruct (MAX_TERRITORY_VECTOR_SIZE <=? Z.of_nat (List.length tv)) eqn:Hfull;
      [reflexivity|].
    rewrite Hn. apply Z.leb_gt in Hfull.
    apply (IH counts'); auto; rewrite length_app; simpl in *; lia.
Qed.

Lemma ParseAttackVector_strtok (front_field saved : string) (front : Z)
      (pre : string) :
  only ":" pre = true -> is_field ":" front_field ->
  atoi front_field = Some front ->
  let text := (pre ++ front_field ++ String ":" saved)%string in
  ParseAttackVector text =
  match parse_territories (String.length saved) saved [] with
  | Ok [] => Abort malformed
  | Ok (first :: others) =>
      Ok {| def_string := text; units_on_front := uint front;
            territory_vector := first :: others |}
  | Aborted stdout => Aborted stdout
  | Undefined => Undefined
  end.
Proof.
  intros Hpre Hf Hat text. unfold ParseAttackVector.
  assert (E : strtok text ":" = Some (front_field, saved)).
  { apply strtok_Some. exists pre. split; [exact Hpre|]. split; [exact Hf|].
    now right. }
  now rewrite E, Hat.
Qed.

(** X4. What [ParseAttackVector] reads from a text made of a first field,
    a colon, and between 1 and 128 fields separated by commas: the front is
    the number [atoi] reads from the first field and there is one territory
    per field, in order, with the number [atoi] reads from it, both
    converted to [unsigned int]. *)
Theorem ParseAttackVector_fields
        (front_field : string) (fields : list string) (front : Z)
        (counts : list Z) :
  is_field ":" front_field ->
  Forall (is_field ",") fields ->
  atoi front_field = Some front ->
  Forall2 (fun f n => atoi f = Some n) fields counts ->
  (1 <= List.length fields <= 128)%nat ->
  let text := (front_field ++ ":" ++ String.concat "," fields)%string in
  ParseAttackVector text =
  Ok {| def_string := text;
        units_on_front := uint front;
        territory_vector := territories_of counts |}.
Proof.
  intros Hf Hfs Hat Hats Hlen text.
  pose proof (ParseAttackVector_strtok front_field (String.concat "," fields)
                front EmptyString eq_refl Hf Hat) as H.
  cbn [append] in H. change (String ":" (String.concat "," fields))
    with (":" ++ String.concat "," fields)%string in H.
  fold text in H. rewrite H.
  rewrite (parse_territories_concat fields counts _ [] Hfs Hats).
  - simpl app. destruct counts as [|n counts]; [|reflexivity].
    inversion Hats; subst. simpl in Hlen. lia.
  - now apply concat_fields_length.
  - unfold MAX_TERRITORY_VECTOR_SIZE. simpl. lia.
Qed.

Lemma ParseAttackVector_fields_witness :
  ParseAttackVector ("7:3,x,-1")%string =
  Ok {| def_string := "7:3,x,-1";
        units_on_front := 7;
        territory_vector :=
          [ {| units := 3 |}; {| units := 0 |}; {| units := UINT_MAX |} ] |}.
Proof.
  apply (ParseAttackVector_fields "7" ["3"; "x"; "-1"]%string 7 [3; 0; -1]).
  - split; [discriminate | reflexivity].
  - repeat constructor; discriminate.
  - reflexivity.
  - repeat constructor.
  - simpl. lia.
Defined.

Lemma ParseAttackVector_Aborted (s : string) (stdout : list printf_call) :
  ParseAttackVector s = Aborted stdout -> ParseAttackVector s = Abort malformed.
Proof.
  unfold ParseAttackVector.
  destruct (strtok s ":") as [[param saved]|]; [|reflexivity].
  destruct (atoi param) as [front|]; [|discriminate].
  destruct (parse_territories (String.length saved) saved []) as [tv| |] eqn:Ep;
    try discriminate.
  - destruct tv; [reflexivity | discriminate].
  - exfalso. exact (parse_territories_not_Aborted _ _ _ _ Ep).
Qed.

(** X6. Once [strdup] has copied the text, [ParseAttackVector] aborts
    with the message of a malformed vector exactly on the texts that have
    no territory: those made of colons only (the empty text among them),
    and those whose first field, a number [atoi] can read, is followed by
    nothing or by a colon and commas only. *)
Theorem ParseAttackVector_aborts_iff (s : string) :
  ParseAttackVector s = Abort malformed <->
  only ":" s = true
  \/ exists pre front_field rest,
      s = (pre ++ front_field ++ rest)%string
      /\ only ":" pre = true /\ is_field ":" front_field
      /\ atoi front_field <> None
      /\ (rest = EmptyString
          \/ exists commas, rest = String ":" commas /\ only "," commas = true).
Proof.
  split.
  - unfold ParseAttackVector.
    destruct (strtok s ":") as [[param saved]|] eqn:E.
    + destruct (atoi param) as [front|] eqn:Ea; [|discriminate].
      destruct (parse_territories (String.length saved) saved []) as [tv| |] eqn:Ep;
        try discriminate.
      * destruct tv as [|first others]; [|discriminate]. intros _. right.
        destruct (parse_territories_Ok _ _ _ _ Ep) as (new & Hout & _ & Hnil & _).
        simpl in Hout. subst new.
        pose proof (proj1 Hnil eq_refl) as Hcommas. apply strtok_None in Hcommas.
        apply strtok_Some in E. destruct E as (pre & Hpre & Hf & Hs).
        exists pre, param.
        destruct Hs as [[-> ->] | ->].
        -- exists EmptyString. rewrite string_app_nil_r.
           repeat split; auto; try apply Hf. now rewrite Ea. 
        -- exists (String ":" saved).
           repeat split; auto; try apply Hf; [now rewrite Ea|].
           right. now exists saved.
      * intros H. exfalso. exact (parse_territories_not_Aborted _ _ _ _ Ep).
    + intros _. left. now apply strtok_None.
  - intros [Hall | (pre & front_field & rest & -> & Hpre & Hf & Hat & Hrest)].
    + unfold ParseAttackVector. apply strtok_None in Hall. now rewrite Hall.
    + destruct (atoi front_field) as [front|] eqn:Ea; [|contradiction].
      assert (E : exists saved,
                 strtok (pre ++ front_field ++ rest) ":" = Some (front_field, saved)
                 /\ only "," saved = true).
      { destruct Hrest as [-> | (commas & -> & Hc)].
        - exists EmptyString. split; [|reflexivity].
          apply strtok_Some. exists pre. rewrite string_app_nil_r. auto.
        - exists commas. split; [|exact Hc].
          apply strtok_Some. exists pre. auto. }
      destruct E as (saved & E & Hc). unfold ParseAttackVector. rewrite E, Ea.
      apply strtok_None in Hc.
      assert (Ep : parse_territories (String.length saved) saved [] = Ok [])
        by (destruct (String.length saved); simpl; now rewrite Hc).
      now rewrite Ep.
Qed.

(** X7. [ParseAttackVector] does not check the number of territories
    against the size of the array: on a text with more than 128 fields
    after the colon it writes outside [territory_vector]. *)
Theorem ParseAttackVector_overruns_the_array
        (front_field : string) (fields : list string) (front : Z)
        (counts : list Z) :
  is_field ":" front_field ->
  Forall (is_field ",") fields ->
  atoi front_field = Some front ->
  Forall2 (fun f n => atoi f = Some n) fields counts ->
  (128 < List.length fields)%nat ->
  ParseAttackVector (front_field ++ ":" ++ String.concat "," fields) = Undefined.
Proof.
  intros Hf Hfs Hat Hats Hlen.
  pose proof (ParseAttackVector_strtok front_field (String.concat "," fields)
                front EmptyString eq_refl Hf Hat) as H.
  cbn [append] in H. cbn [append]. rewrite H.
  rewrite (parse_territories_overrun fields counts _ [] Hfs Hats); [reflexivity| |].
  - unfold MAX_TERRITORY_VECTOR_SIZE. simpl List.length. lia.
  - unfold MAX_TERRITORY_VECTOR_SIZE. simpl. lia.
Qed.

Lemma ParseAttackVector_overruns_the_array_witness :
  ParseAttackVector ("7" ++ ":" ++ String.concat "," (repeat "1"%string 129))
  = Undefined.
Proof.
  apply (ParseAttackVector_overruns_the_array "7" (repeat "1"%string 129) 7
           (repeat 1 129)).
  - split; [discriminate | reflexivity].
  - apply Forall_forall. intros f Hin. apply repeat_spec in Hin. subst f.
    split; [discriminate | reflexivity].
  - reflexivity.
  - simpl. repeat constructor.
  - rewrite repeat_length. lia.
Defined.

(** ** Decimal texts *)

Ltac digit_cases d :=
  let H := fresh in
  assert (H : d = 0 \/ d = 1 \/ d = 2 \/ d = 3 \/ d = 4 \/ d = 5 \/ d = 6
              \/ d = 7 \/ d = 8 \/ d = 9) by lia;
  repeat (destruct H as [H | H]; [subst d; try reflexivity |]);
  try (subst d; reflexivity).

Lemma digit_value_char (d : Z) :
  0 <= d <= 9 -> digit_value (digit_char d) = Some d.
Proof. intros Hd. digit_cases d. Qed.

Lemma all_chars_impl (p q : ascii -> bool) (s : string) :
  (forall c, p c = true -> q c = true) ->
  all_chars p s = true -> all_chars q s = true.
Proof.
  intros Hpq. induction s as [|c s IH]; simpl; [reflexivity|].
  intros H. apply andb_prop in H. destruct H as [Hc Hs].
  now rewrite (Hpq c Hc), IH.
Qed.

Lemma digits_value_app (ds rest : string) :
  all_chars is_digit ds = true ->
  forall acc, digits_value (ds ++ rest) acc = digits_value rest (digits_value ds acc).
Proof.
  induction ds as [|c ds IH]; simpl; [reflexivity|].
  intros H acc. apply andb_prop in H. destruct H as [Hc Hds].
  unfold is_digit in Hc. destruct (digit_value c); [|discriminate].
  now apply IH.
Qed.

(** The digits [utoa_digits] writes read back as the number. *)
Lemma utoa_digits_spec (digits : nat) :
  forall (n : Z) (text : string),
    (0 < digits)%nat -> 0 <= n < 10 ^ Z.of_nat digits ->
    exists ds p,
      utoa_digits digits n text = (ds ++ text)%string
      /\ ds <> EmptyString
      /\ all_chars is_digit ds = true
      /\ forall acc, digits_value ds acc = acc * p + n.
Proof.
  induction digits as [|digits IH]; intros n text Hpos Hn; [lia|].
  cbn [utoa_digits].
  assert (Hd : 0 <= n mod 10 <= 9) by (pose proof (Z.mod_pos_bound n 10); lia).
  pose proof (Z.div_mod n 10 ltac:(lia)) as Hdm.
  destruct (n / 10 =? 0) eqn:Eq.
  - apply Z.eqb_eq in Eq. exists (String (digit_char (n mod 10)) EmptyString), 10.
    split; [reflexivity|]. split; [discriminate|]. split.
    + simpl. unfold is_digit. now rewrite digit_value_char.
    + intros acc. cbn [digits_value]. rewrite digit_value_char by exact Hd.
      rewrite Eq in Hdm. lia.
  - apply Z.eqb_neq in Eq.
    assert (Hq : 0 <= n / 10 < 10 ^ Z.of_nat digits).
    { split; [apply Z.div_pos; lia|].
      apply Z.div_lt_upper_bound; [lia|].
      replace (Z.of_nat (S digits)) with (Z.of_nat digits + 1) in Hn by lia.
      rewrite Z.pow_add_r in Hn by lia. lia. }
    assert (Hdigits : (0 < digits)%nat).
    { destruct digits; [simpl in Hq; lia | lia]. }
    destruct (IH (n / 10) (String (digit_char (n mod 10)) text) Hdigits Hq)
      as (ds & p & E & Hne & Hall & Hval).
    exists (ds ++ String (digit_char (n mod 10)) EmptyString)%string, (10 * p).
    split; [rewrite E, string_app_assoc; reflexivity|].
    split; [destruct ds; [contradiction | discriminate]|].
    split.
    + rewrite all_chars_app, Hall. simpl. unfold is_digit.
      now rewrite digit_value_char.
    + intros acc. rewrite digits_value_app by exact Hall. cbn [digits_value].
      rewrite digit_value_char by exact Hd. rewrite Hval. lia.
Qed.

Lemma utoa_spec (n : Z) :
  0 <= n <= UINT_MAX ->
  utoa n <> EmptyString
  /\ all_chars is_digit (utoa n) = true
  /\ digits_value (utoa n) 0 = n.
Proof.
  intros Hn. unfold utoa.
  destruct (utoa_digits_spec 10 n EmptyString) as (ds & p & E & Hne & Hall & Hval);
    [lia | unfold UINT_MAX in Hn; simpl; lia |].
  rewrite E, string_app_nil_r. split; [exact Hne|]. split; [exact Hall|].
  rewrite Hval. lia.
Qed.

Lemma is_digit_plain (c : ascii) :
  is_digit c = true ->
  isspace c = false /\ Ascii.eqb c "-" = false /\ Ascii.eqb c "+" = false
  /\ Ascii.eqb ":" c = false /\ Ascii.eqb "," c = false.
Proof.
  unfold is_digit, digit_value, isspace. intros H.
  destruct (andb (48 <=? Z.of_nat (nat_of_ascii c))
                 (Z.of_nat (nat_of_ascii c) <=? 57)) eqn:E; [|discriminate].
  apply andb_prop in E. destruct E as [E1 E2].
  apply Z.leb_le in E1. apply Z.leb_le in E2.
  repeat split.
  - apply orb_false_iff. split; [apply Z.eqb_neq; lia|].
    apply andb_false_iff. right. apply Z.leb_gt. lia.
  - apply Ascii.eqb_neq. intros ->. simpl in *. lia.
  - apply Ascii.eqb_neq. intros ->. simpl in *. lia.
  - apply Ascii.eqb_neq. intros <-. simpl in *. lia.
  - apply Ascii.eqb_neq. intros <-. simpl in *. lia.
Qed.

Lemma digits_without (c0 : ascii) (s : string) :
  is_digit c0 = false -> all_chars is_digit s = true -> without c0 s = true.
Proof.
  intros H0. unfold without. apply all_chars_impl. intros c Hc.
  apply negb_true_iff, Ascii.eqb_neq. intros ->. congruence.
Qed.

(** [atoi] reads back the decimal text of an [int], and the text is a
    field for both delimiters. *)
Lemma atoi_itoa (z : Z) :
  INT_MIN <= z <= INT_MAX ->
  atoi (itoa z) = Some z /\ is_field ":" (itoa z) /\ is_field "," (itoa z).
Proof.
  intros Hz.
  assert (Hr : (INT_MIN <=? z) && (z <=? INT_MAX) = true)
    by (apply andb_true_iff; split; apply Z.leb_le; lia).
  unfold INT_MIN, INT_MAX in Hz. unfold itoa.
  destruct (z <? 0) eqn:Eneg.
  - apply Z.ltb_lt in Eneg.
    destruct (utoa_spec (- z)) as (Hne & Hall & Hval); [unfold UINT_MAX; lia|].
    split; [|split].
    + unfold atoi, strtol_value. simpl. rewrite Hval.
      replace (- - z) with z by lia. now rewrite Hr.
    + split; [discriminate|].
      unfold without. cbn [all_chars]. apply andb_true_iff.
      split; [reflexivity | exact (digits_without ":" _ eq_refl Hall)].
    + split; [discriminate|].
      unfold without. cbn [all_chars]. apply andb_true_iff.
      split; [reflexivity | exact (digits_without "," _ eq_refl Hall)].
  - apply Z.ltb_ge in Eneg.
    destruct (utoa_spec z) as (Hne & Hall & Hval); [unfold UINT_MAX; lia|].
    split; [|split].
    + destruct (utoa z) as [|c ds] eqn:E; [contradiction|].
      pose proof Hall as Hall'. simpl in Hall'. apply andb_prop in Hall'.
      destruct Hall' as [Hc _].
      destruct (is_digit_plain c Hc) as (Hsp & Hm & Hp & _).
      unfold atoi, strtol_value. cbn [skip_spaces]. rewrite Hsp, Hm, Hp, Hval.
      now rewrite Hr.
    + split; [exact Hne|]. exact (digits_without ":" _ eq_refl Hall).
    + split; [exact Hne|]. exact (digits_without "," _ eq_refl Hall).
Qed.

Lemma atoi_itoa_all (counts : list Z) :
  Forall (fun n => INT_MIN <= n <= INT_MAX) counts ->
  Forall (is_field ",") (map itoa counts)
  /\ Forall2 (fun f n => atoi f = Some n) (map itoa counts) counts.
Proof.
  induction 1 as [|n counts Hn _ [IH1 IH2]]; simpl; [split; constructor|].
  destruct (atoi_itoa n Hn) as (Hat & _ & Hf). split; constructor; auto.
Qed.

Lemma territories_of_units (counts : list Z) :
  map units (territories_of counts) = map uint counts.
Proof. unfold territories_of. rewrite map_map. reflexivity. Qed.

Lemma map_uint_small (counts : list Z) :
  Forall (fun n => 0 <= n <= UINT_MAX) counts -> map uint counts = counts.
Proof.
  induction 1 as [|n counts Hn _ IH]; simpl; [reflexivity|].
  now rewrite IH, uint_small.
Qed.

(** X8. Printing and parsing: the text of an attack vector, written with
    decimal numbers as the usage message describes it, is read back by
    [ParseAttackVector] as that vector when the numbers are not negative;
    a negative number is read without complaint and wraps around, -1
    giving 4294967295 units. *)
Theorem ParseAttackVector_round_trip (front : Z) (counts : list Z) :
  INT_MIN <= front <= INT_MAX ->
  Forall (fun n => INT_MIN <= n <= INT_MAX) counts ->
  (1 <= List.length counts <= 128)%nat ->
  exists v,
    ParseAttackVector (vector_text front counts) = Ok v
    /\ def_string v = vector_text front counts
    /\ units_on_front v = front mod 2 ^ 32
    /\ map units (territory_vector v) = map (fun n => n mod 2 ^ 32) counts
    /\ (0 <= front -> units_on_front v = front)
    /\ (Forall (fun n => 0 <= n) counts ->
        map units (territory_vector v) = counts).
Proof.
  intros Hfront Hcounts Hlen.
  destruct (atoi_itoa front Hfront) as (Hat & Hf & _).
  destruct (atoi_itoa_all counts Hcounts) as [Hfs Hats].
  pose proof (ParseAttackVector_strtok (itoa front)
                (String.concat "," (map itoa counts)) front EmptyString
                eq_refl Hf Hat) as H.
  cbn [append] in H.
  rewrite (parse_territories_concat (map itoa counts) counts _ [] Hfs Hats) in H.
  - simpl app in H.
    destruct (territories_of counts) as [|first others] eqn:Et.
    { destruct counts; [simpl in Hlen; lia | discriminate]. }
    eexists. split; [exact H|]. cbn [def_string units_on_front territory_vector].
    rewrite <- Et, territories_of_units.
    split; [reflexivity|]. split; [reflexivity|]. split; [reflexivity|].
    split.
    + intros Hpos. apply uint_small. unfold is_uint, UINT_MAX, INT_MAX in *. lia.
    + intros Hpos. apply map_uint_small.
      apply Forall_forall. intros n Hin.
      rewrite Forall_forall in Hpos, Hcounts.
      specialize (Hpos n Hin). specialize (Hcounts n Hin).
      unfold UINT_MAX, INT_MAX in *. lia.
  - apply concat_fields_length in Hfs. exact Hfs.
  - rewrite length_map. unfold MAX_TERRITORY_VECTOR_SIZE. simpl List.length. lia.
Qed.

Lemma ParseAttackVector_round_trip_witness :
  exists v,
    ParseAttackVector (vector_text 7 [3; -1; 1]) = Ok v
    /\ def_string v = vector_text 7 [3; -1; 1]
    /\ units_on_front v = 7 mod 2 ^ 32
    /\ map units (territory_vector v) = map (fun n => n mod 2 ^ 32) [3; -1; 1]
    /\ (0 <= 7 -> units_on_front v = 7)
    /\ (Forall (fun n => 0 <= n) [3; -1; 1] ->
        map units (territory_vector v) = [3; -1; 1]).
Proof.
  apply (ParseAttackVector_round_trip 7 [3; -1; 1]).
  - unfold INT_MIN, INT_MAX. lia.
  - repeat constructor; unfold INT_MIN, INT_MAX; lia.
  - simpl. lia.
Defined.

(** ** Printing *)

Lemma printed_floats_app (a b : list printf_call) :
  printed_floats (a ++ b) = printed_floats a ++ printed_floats b.
Proof. apply flat_map_app. Qed.

Lemma printed_counts_app (a b : list printf_call) :
  printed_counts (a ++ b) = printed_counts a ++ printed_counts b.
Proof. apply flat_map_app. Qed.

Lemma printed_bonuses_app (a b : list printf_call) :
  printed_bonuses (a ++ b) = printed_bonuses a ++ printed_bonuses b.
Proof. apply flat_map_app. Qed.

Lemma printf_no_args (format_string : string) :
  printed_counts (printf format_string []) = []
  /\ printed_floats (printf format_string []) = []
  /\ printed_bonuses (printf format_string []) = [].
Proof. repeat split. Qed.

Lemma PrintPrediction_counts (s : string) (p : attack_prediction) :
  printed_counts (PrintPrediction s p) = [(s, win_count p, loss_count p)]
  /\ printed_bonuses (PrintPrediction s p) = [].
Proof.
  unfold PrintPrediction.
  destruct (win_count p >? 0), (loss_count p >? 0); split; reflexivity.
Qed.

(** [PrintPrediction] passes an estimate to [printf] only when the count
    it was divided by is not 0: none of the floats printed is a NaN. *)
Lemma PrintPrediction_floats (s : string) (c : counters) (k : Z) :
  counters_ok k c -> k <= UINT_MAX ->
  Forall (fun x => is_nan x = false) (printed_floats (PrintPrediction s (prediction_of c)))
  /\ (k = 0 -> printed_floats (PrintPrediction s (prediction_of c)) = []).
Proof.
  intros (Hw & Hlo & Hk & Hu & He & Ht & Hw0 & Hl0) Hmax.
  assert (Hwu : is_uint (sum_win_count c)) by (unfold is_uint; lia).
  assert (Hlu : is_uint (sum_loss_count c)) by (unfold is_uint; lia).
  assert (Hsu : is_uint (sum_win_count c + sum_loss_count c)) by (unfold is_uint; lia).
  assert (Hnot : forall a b, is_uint a -> is_uint b -> b <> 0 ->
                             is_nan (fdiv (float_of_uint a) (float_of_uint b)) = false).
  { intros a b Ha Hb Hb0.
    destruct (is_nan (fdiv (float_of_uint a) (float_of_uint b))) eqn:E; [|reflexivity].
    apply fdiv_uint_nan in E; auto; [contradiction | intros; contradiction]. }
  unfold PrintPrediction.
  cbn [prediction_of win_count loss_count win_likelihood
       estimated_remaining_units_if_win estimated_remaining_enemies_if_loss
       estimated_remaining_territories_if_loss].
  rewrite (uint_small _ Hsu).
  destruct (Z.gtb_spec (sum_win_count c) 0) as [Hwin | Hwin];
    destruct (Z.gtb_spec (sum_loss_count c) 0) as [Hloss | Hloss];
    cbn; (split; [repeat constructor; apply Hnot; auto; lia | intros; try reflexivity; lia]).
Qed.

(** ** [SimWar] *)

Section SimWarProperties.
Variable rand : nat -> Z.
Hypothesis rand_range : forall n, 0 <= rand n <= INT_MAX.

Lemma SimWar_spec (fuel : nat) (bonus_units iters : Z) :
  enough_fuel fuel -> 0 <= iters <= UINT_MAX ->
  forall (vectors : list attack_vector_def) (pos : nat),
    Forall vector_ok vectors ->
    exists stdout pos',
      SimWar rand fuel vectors bonus_units iters pos = Some (stdout, pos')
      /\ map (fun h => fst (fst h)) (printed_counts stdout) = map def_string vectors
      /\ Forall (fun h => 0 <= snd (fst h) /\ 0 <= snd h
                          /\ snd (fst h) + snd h = iters)
                (printed_counts stdout)
      /\ Forall (fun x => is_nan x = false) (printed_floats stdout)
      /\ (iters = 0 -> printed_floats stdout = [])
      /\ printed_bonuses stdout = [].
Proof.
  intros Hfuel Hit vectors.
  induction vectors as [|av vectors IH]; intros pos Hall.
  - exists [], pos. repeat split; constructor.
  - inversion Hall as [|? ? Hav Hrest]; subst.
    destruct (PredictAttack_total rand rand_range fuel av bonus_units iters pos
                Hfuel Hav Hit) as (c & pos1 & Hp & Hc).
    destruct (IH pos1 Hrest) as (stdout & pos' & Hs & Hnames & Hcounts & Hnan & H0 & Hb).
    exists (printf nl [] ++ PrintPrediction (def_string av) (prediction_of c) ++ stdout),
           pos'.
    split.
    { cbn [SimWar]. rewrite (bind_eq _ _ _ _ _ Hp), (bind_eq _ _ _ _ _ Hs).
      reflexivity. }
    destruct (PrintPrediction_counts (def_string av) (prediction_of c)) as [Ec Eb].
    destruct (PrintPrediction_floats (def_string av) c iters Hc (proj2 Hit))
      as [Hf Hf0].
    rewrite !printed_counts_app, !printed_floats_app, !printed_bonuses_app, Ec, Eb, Hb.
    destruct (printf_no_args nl) as (-> & -> & ->).
    cbn [app map fst snd].
    split; [now rewrite Hnames|]. split.
    { constructor; [|exact Hcounts]. cbn [fst snd prediction_of win_count loss_count].
      destruct Hc as (Hw & Hl & Hk & _). auto. }
    split; [apply Forall_app; auto|].
    split; [|reflexivity].
    intros E. now rewrite (Hf0 E), (H0 E).
Qed.

End SimWarProperties.

(** X9. [SimWar] returns for every list of vectors the parser can deliver.
    It prints one prediction per vector, in the order of the vectors and
    under the text of each; the win and loss counts printed add up to the
    number of iterations; no float it prints is a NaN, because an estimate
    is printed only when the count it was divided by is not 0, and with 0
    iterations it prints no float at all. *)
Theorem SimWar_prints_every_prediction
        (rand : nat -> Z) (vectors : list attack_vector_def)
        (bonus_units iters : Z) (pos : nat) :
  (forall n, 0 <= rand n <= INT_MAX) ->
  Forall vector_ok vectors ->
  0 <= iters <= UINT_MAX ->
  exists fuel0, forall fuel, (fuel0 <= fuel)%nat ->
  exists stdout pos',
    SimWar rand fuel vectors bonus_units iters pos = Some (stdout, pos')
    /\ map (fun h => fst (fst h)) (printed_counts stdout) = map def_string vectors
    /\ Forall (fun h => 0 <= snd (fst h) /\ 0 <= snd h
                        /\ snd (fst h) + snd h = iters)
              (printed_counts stdout)
    /\ Forall (fun x => is_nan x = false) (printed_floats stdout)
    /\ (iters = 0 -> printed_floats stdout = []).
Proof.
  intros Hr Hall Hit.
  destruct enough_fuel_exists as (fuel0 & Hfuel0). exists fuel0. intros fuel Hle.
  pose proof (enough_fuel_mono _ _ Hfuel0 Hle) as Hfuel.
  destruct (SimWar_spec rand Hr fuel bonus_units iters Hfuel Hit vectors pos Hall)
    as (stdout & pos' & Hs & Hnames & Hcounts & Hnan & H0 & _).
  exists stdout, pos'. auto.
Qed.

Lemma SimWar_prints_every_prediction_witness :
  exists fuel0, forall fuel, (fuel0 <= fuel)%nat ->
  exists stdout pos',
    SimWar sample_rand fuel [sample_vector; trivial_vector] 0 3 0%nat
    = Some (stdout, pos')
    /\ map (fun h => fst (fst h)) (printed_counts stdout)
       = map def_string [sample_vector; trivial_vector]
    /\ Forall (fun h => 0 <= snd (fst h) /\ 0 <= snd h
                        /\ snd (fst h) + snd h = 3)
              (printed_counts stdout)
    /\ Forall (fun x => is_nan x = false) (printed_floats stdout)
    /\ (3 = 0 -> printed_floats stdout = []).
Proof.
  apply (SimWar_prints_every_prediction sample_rand [sample_vector; trivial_vector]
           0 3 0).
  - exact sample_rand_range.
  - constructor; [exact sample_vector_ok|].
    constructor; [exact trivial_vector_ok | constructor].
  - unfold UINT_MAX; lia.
Defined.

(** ** The printing of the plan *)

Lemma PrintSetup_lines (s : attack_setup) :
  printed_bonuses (PrintSetup s) = [(bonus s, def_string (attack_vector s))]
  /\ printed_counts (PrintSetup s)
     = [(def_string (attack_vector s), win_count (prediction s),
         loss_count (prediction s))]
  /\ printed_floats (PrintSetup s)
     = printed_floats (PrintPrediction (def_string (attack_vector s)) (prediction s)).
Proof.
  unfold PrintSetup.
  destruct (PrintPrediction_counts (def_string (attack_vector s)) (prediction s))
    as [Ec Eb].
  rewrite printed_bonuses_app, printed_counts_app, printed_floats_app, Ec, Eb.
  repeat split.
Qed.

Lemma PlanWar_print_lines (iters : Z) (l : list attack_setup) :
  Forall (fun s => exists c, prediction s = prediction_of c /\ counters_ok iters c) l ->
  iters <= UINT_MAX ->
  printed_bonuses (flat_map PrintSetup l)
  = combine (map bonus l) (map def_string (map attack_vector l))
  /\ map (fun h => fst (fst h)) (printed_counts (flat_map PrintSetup l))
     = map def_string (map attack_vector l)
  /\ Forall (fun h => 0 <= snd (fst h) /\ 0 <= snd h /\ snd (fst h) + snd h = iters)
            (printed_counts (flat_map PrintSetup l))
  /\ Forall (fun x => is_nan x = false) (printed_floats (flat_map PrintSetup l)).
Proof.
  intros Hall Hmax.
  induction Hall as [|s l (c & Ep & Hc) _ (IHb & IHn & IHc & IHf)];
    [repeat split; constructor|].
  destruct (PrintSetup_lines s) as (Eb & Ec & Ef).
  cbn [flat_map map combine].
  rewrite printed_bonuses_app, printed_counts_app, printed_floats_app, Eb, Ec, Ef.
  cbn [app map fst snd]. rewrite IHb, IHn.
  split; [reflexivity|]. split; [reflexivity|]. split.
  - constructor; [|exact IHc]. cbn [fst snd]. rewrite Ep.
    cbn [prediction_of win_count loss_count].
    destruct Hc as (Hw & Hl & Hk & _). auto.
  - apply Forall_app. split; [|exact IHf]. rewrite Ep.
    exact (proj1 (PrintPrediction_floats _ c iters Hc Hmax)).
Qed.

Lemma Forall2_right {A B} (P : A -> B -> Prop) (l1 : list A) (l2 : list B) :
  Forall2 P l1 l2 -> Forall (fun b => exists a, In a l1 /\ P a b) l2.
Proof.
  induction 1 as [|a b l1 l2 Hab _ IH]; constructor.
  - exists a. split; [now left | exact Hab].
  - eapply Forall_impl; [|exact IH].
    intros b' (a' & Hin & Hp). exists a'. split; [now right | exact Hp].
Qed.

(** The plans [PlanWar] may report: plans of the search, whose predictions
    come from the counters of [PredictAttack]. *)
Lemma PlanWar_report_spec (rand : nat -> Z) (granted : Z -> bool)
      (vectors : list attack_vector_def) (B : Z) (thr : float) (iters : Z)
      (pos : nat) :
  (forall n, 0 <= rand n <= INT_MAX) ->
  vectors <> [] -> Z.of_nat (List.length vectors) <= MAX_ATTACK_VECTORS ->
  Forall vector_ok vectors ->
  1 <= B < UINT_MAX -> 0 <= iters <= UINT_MAX ->
  holds_plans granted (plans_to_store (List.length vectors) B) ->
  exists fuel0, forall fuel, (fuel0 <= fuel)%nat ->
  exists reported pos',
    PlanWar rand granted fuel vectors B thr iters pos = Some (Ok reported, pos')
    /\ PlanWar_may_report rand granted fuel vectors B thr iters pos reported pos'
    /\ forall best,
        PlanWar_may_report rand granted fuel vectors B thr iters pos best pos' ->
        map attack_vector (setups best) = vectors
        /\ bonus_tuple (List.length vectors) B (plan_bonuses best)
        /\ total_bonus (plan_bonuses best) = B
        /\ Forall (fun s => exists c, prediction s = prediction_of c
                                      /\ counters_ok iters c)
                  (setups best).
Proof.
  intros Hr Hne Hcap Hall HB Hit Hold.
  destruct (PlanWar_best_spec rand granted vectors B thr iters pos
              Hr Hne Hcap Hall HB Hit Hold) as (fuel1 & H).
  destruct enough_fuel_exists as (fuel2 & Hfuel2).
  exists (Nat.max fuel1 fuel2). intros fuel Hle.
  assert (Hfuel : enough_fuel fuel) by (apply (enough_fuel_mono fuel2); [auto | lia]).
  destruct (H fuel ltac:(lia))
    as (table & reported & pos' & Htab & Hok & Hp & Hmay & Hbest).
  exists reported, pos'. split; [exact Hp|]. split; [exact Hmay|].
  intros best Hb.
  destruct (Hbest best Hb) as (t & Ht & Hs & Ebest & Ebonuses & Esetups & _).
  destruct (chosen_setups_spec rand fuel thr iters B vectors table Hok t Ht)
    as (Eb & Ev & _ & Hcells).
  rewrite Ebonuses, Esetups.
  split; [exact Ev|]. split; [exact Ht|]. split; [exact Hs|].
  apply Forall2_right in Hcells.
  eapply Forall_impl; [|exact Hcells].
  intros s ([av b] & Hin & [(p0 & p1 & Hm) _]). cbn [fst snd] in Hm.
  destruct (make_setup_inv _ _ _ _ _ _ _ _ _ Hm) as (_ & _ & _ & Hpred).
  apply in_combine_l in Hin.
  rewrite Forall_forall in Hall.
  destruct (PredictAttack_total rand Hr fuel av b iters p0 Hfuel (Hall av Hin) Hit)
    as (c & p1' & Hp' & Hc).
  rewrite Hp' in Hpred. injection Hpred as Epred _.
  exists c. split; [now symmetry | exact Hc].
Qed.

(** What the printing of such a plan shows. *)
Lemma PlanWar_print_spec (vectors : list attack_vector_def) (B iters : Z)
      (best : attack_plan) :
  0 <= iters <= UINT_MAX ->
  map attack_vector (setups best) = vectors ->
  bonus_tuple (List.length vectors) B (plan_bonuses best) ->
  total_bonus (plan_bonuses best) = B ->
  Forall (fun s => exists c, prediction s = prediction_of c /\ counters_ok iters c)
         (setups best) ->
  printed_bonuses (PlanWar_print best)
  = combine (plan_bonuses best) (map def_string vectors)
  /\ List.length (plan_bonuses best) = List.length vectors
  /\ Forall (fun b => 0 <= b <= B) (plan_bonuses best)
  /\ total_bonus (plan_bonuses best) = B
  /\ map (fun h => fst (fst h)) (printed_counts (PlanWar_print best))
     = map def_string vectors
  /\ Forall (fun h => 0 <= snd (fst h) /\ 0 <= snd h
                      /\ snd (fst h) + snd h = iters)
            (printed_counts (PlanWar_print best))
  /\ Forall (fun x => is_nan x = false) (printed_floats (PlanWar_print best)).
Proof.
  intros Hit Ev [Hlen Hrange] Hsum Hpred.
  destruct (PlanWar_print_lines iters (setups best) Hpred (proj2 Hit))
    as (Eb & En & Hc & Hf).
  unfold PlanWar_print.
  rewrite printed_bonuses_app, printed_counts_app, printed_floats_app.
  destruct (printf_no_args ("Highest scoring setup is below" ++ nl))
    as (-> & -> & ->).
  cbn [app]. rewrite Eb, En, Ev. repeat split; auto.
Qed.

(** X10. [PlanWar] prints the plan it has chosen vector by vector, in the
    order of the vectors: one bonus line per vector, with a bonus between 0
    and the pool and the text of the vector, the bonuses adding up to the
    pool; and under each its prediction, whose counts add up to the number
    of iterations.  None of the floats printed is a NaN.  This holds of
    every plan that may come first after [qsort]; the vectors are 16 at
    most, and the allocator lets the array grow to the plans there are to
    store. *)
Theorem PlanWar_prints_the_plan
        (rand : nat -> Z) (granted : Z -> bool) (vectors : list attack_vector_def)
        (B : Z) (thr : float) (iters : Z) (pos : nat) :
  (forall n, 0 <= rand n <= INT_MAX) ->
  vectors <> [] -> Z.of_nat (List.length vectors) <= MAX_ATTACK_VECTORS ->
  Forall vector_ok vectors ->
  1 <= B < UINT_MAX -> 0 <= iters <= UINT_MAX ->
  holds_plans granted (plans_to_store (List.length vectors) B) ->
  exists fuel0, forall fuel, (fuel0 <= fuel)%nat ->
  exists reported pos',
    PlanWar rand granted fuel vectors B thr iters pos = Some (Ok reported, pos')
    /\ PlanWar_may_report rand granted fuel vectors B thr iters pos reported pos'
    /\ forall best,
        PlanWar_may_report rand granted fuel vectors B thr iters pos best pos' ->
        exists bonuses,
          printed_bonuses (PlanWar_print best)
          = combine bonuses (map def_string vectors)
          /\ List.length bonuses = List.length vectors
          /\ Forall (fun b => 0 <= b <= B) bonuses
          /\ total_bonus bonuses = B
          /\ map (fun h => fst (fst h)) (printed_counts (PlanWar_print best))
             = map def_string vectors
          /\ Forall (fun h => 0 <= snd (fst h) /\ 0 <= snd h
                              /\ snd (fst h) + snd h = iters)
                    (printed_counts (PlanWar_print best))
          /\ Forall (fun x => is_nan x = false) (printed_floats (PlanWar_print best)).
Proof.
  intros Hr Hne Hcap Hall HB Hit Hold.
  destruct (PlanWar_report_spec rand granted vectors B thr iters pos
              Hr Hne Hcap Hall HB Hit Hold) as (fuel0 & H).
  exists fuel0. intros fuel Hle.
  destruct (H fuel Hle) as (reported & pos' & Hp & Hmay & Hbest).
  exists reported, pos'. split; [exact Hp|]. split; [exact Hmay|].
  intros best Hb. destruct (Hbest best Hb) as (Ev & Ht & Hsum & Hpred).
  exists (plan_bonuses best).
  exact (PlanWar_print_spec vectors B iters best Hit Ev Ht Hsum Hpred).
Qed.

Lemma PlanWar_prints_the_plan_witness :
  exists fuel0, forall fuel, (fuel0 <= fuel)%nat ->
  exists reported pos',
    PlanWar sample_rand grant_all fuel [sample_vector; trivial_vector] 2 fzero 3 0%nat
    = Some (Ok reported, pos')
    /\ PlanWar_may_report sample_rand grant_all fuel [sample_vector; trivial_vector]
         2 fzero 3 0%nat reported pos'
    /\ forall best,
        PlanWar_may_report sample_rand grant_all fuel [sample_vector; trivial_vector]
          2 fzero 3 0%nat best pos' ->
        exists bonuses,
          printed_bonuses (PlanWar_print best)
          = combine bonuses (map def_string [sample_vector; trivial_vector])
          /\ List.length bonuses = List.length [sample_vector; trivial_vector]
          /\ Forall (fun b => 0 <= b <= 2) bonuses
          /\ total_bonus bonuses = 2
          /\ map (fun h => fst (fst h)) (printed_counts (PlanWar_print best))
             = map def_string [sample_vector; trivial_vector]
          /\ Forall (fun h => 0 <= snd (fst h) /\ 0 <= snd h
                              /\ snd (fst h) + snd h = 3)
                    (printed_counts (PlanWar_print best))
          /\ Forall (fun x => is_nan x = false) (printed_floats (PlanWar_print best)).
Proof.
  apply (PlanWar_prints_the_plan sample_rand grant_all [sample_vector; trivial_vector]
           2 fzero 3 0).
  - exact sample_rand_range.
  - discriminate.
  - unfold MAX_ATTACK_VECTORS. simpl. lia.
  - constructor; [exact sample_vector_ok|].
    constructor; [exact trivial_vector_ok | constructor].
  - unfold UINT_MAX; lia.
  - unfold UINT_MAX; lia.
  - apply grant_all_holds. vm_compute. discriminate.
Defined.

(** ** [main] *)

Lemma ParseAttackVector_Ok_strtok (s : string) (v : attack_vector_def) :
  ParseAttackVector s = Ok v -> exists token, strtok s ":" = Some token.
Proof.
  unfold ParseAttackVector. destruct (strtok s ":") as [token|]; [eauto|].
  unfold Abort. discriminate.
Qed.

Lemma parse_vectors_Ok (args : list string) :
  forall (vectors acc : list attack_vector_def),
    Forall2 (fun a v => ParseAttackVector a = Ok v) args vectors ->
    Z.of_nat (List.length acc + List.length args) <= MAX_ATTACK_VECTORS ->
    parse_vectors args acc = Ok (acc ++ vectors).
Proof.
  induction args as [|a args IH]; intros vectors acc Hall Hroom.
  - inversion Hall; subst. now rewrite app_nil_r.
  - inversion Hall as [|? v ? vectors' Hv Hrest]; subst.
    cbn [parse_vectors].
    replace (MAX_ATTACK_VECTORS <=? Z.of_nat (List.length acc)) with false
      by (symmetry; apply Z.leb_gt; simpl in Hroom; lia).
    rewrite Hv, (IH vectors' (acc ++ [v]) Hrest).
    + now rewrite <- app_assoc.
    + rewrite length_app. simpl in *. lia.
Qed.

Lemma parse_vectors_overrun (args : list string) :
  forall (vectors acc : list attack_vector_def),
    Forall2 (fun a v => ParseAttackVector a = Ok v) args vectors ->
    Z.of_nat (List.length acc) <= MAX_ATTACK_VECTORS ->
    MAX_ATTACK_VECTORS < Z.of_nat (List.length acc + List.length args) ->
    parse_vectors args acc = Undefined.
Proof.
  induction args as [|a args IH]; intros vectors acc Hall Hacc Hover.
  - simpl in Hover. lia.
  - inversion Hall as [|? v ? vectors' Hv Hrest]; subst.
    cbn [parse_vectors].
    destruct (Z.leb_spec MAX_ATTACK_VECTORS (Z.of_nat (List.length acc))) as [Hfull|Hfree].
    + destruct (ParseAttackVector_Ok_strtok a v Hv) as (token & ->). reflexivity.
    + rewrite Hv. apply (IH vectors'); auto; rewrite length_app; simpl in *; lia.
Qed.

Lemma parse_vectors_Aborted (args : list string) :
  forall (acc : list attack_vector_def) (stdout : list printf_call),
    parse_vectors args acc = Aborted stdout ->
    stdout = printf ("Aborting: %s" ++ nl) [arg_string malformed]
    /\ exists earlier arg later,
        args = earlier ++ arg :: later
        /\ Forall (fun a => exists v, ParseAttackVector a = Ok v) earlier
        /\ ParseAttackVector arg = Abort malformed.
Proof.
  induction args as [|a args IH]; intros acc stdout H; [discriminate|].
  cbn [parse_vectors] in H.
  destruct (MAX_ATTACK_VECTORS <=? Z.of_nat (List.length acc)).
  - destruct (strtok a ":") as [token|] eqn:E; [discriminate|].
    injection H as <-. split; [reflexivity|].
    exists [], a, args. split; [reflexivity|]. split; [constructor|].
    unfold ParseAttackVector. now rewrite E.
  - destruct (ParseAttackVector a) as [v|stdout'|] eqn:E; [| |discriminate].
    + destruct (IH _ _ H) as (Hout & earlier & arg & later & -> & Hearlier & Harg).
      split; [exact Hout|].
      exists (a :: earlier), arg, later. split; [reflexivity|].
      split; [constructor; eauto | exact Harg].
    + injection H as <-. pose proof (ParseAttackVector_Aborted a stdout' E) as E'.
      rewrite E in E'. injection E' as ->. split; [reflexivity|].
      exists [], a, args. split; [reflexivity|]. split; [constructor|].
      exact E.
Qed.

(** [main] on a command line whose settings can be read and whose
    attack vectors are parsed. *)
Lemma main_parsed (rand : nat -> Z) (atof : string -> option float)
      (granted : Z -> bool) (fuel : nat)
      (binary iterations bonus threshold : string) (texts : list string)
      (i b : Z) (thr : float) (vectors : list attack_vector_def) (pos : nat) :
  atoi iterations = Some i -> atoi bonus = Some b ->
  atof threshold = Some thr ->
  Forall2 (fun a v => ParseAttackVector a = Ok v) texts vectors ->
  (1 <= List.length texts <= 16)%nat ->
  main rand atof granted fuel (command_line binary iterations bonus threshold texts) pos =
  if uint b =? 0 then
    match SimWar rand fuel vectors 0 (uint i) pos with
    | Some (stdout, pos') =>
        Some ((EXIT_SUCCESS,
               printf ("Simulating simple war and printing predictions" ++ nl ++ nl) []
               ++ stdout), pos')
    | None => None
    end
  else
    match PlanWar rand granted fuel vectors (uint b) thr (uint i) pos with
    | Some (Ok best, pos') =>
        Some ((EXIT_SUCCESS,
               printf ("Attempting to plan war for specified vectors" ++ nl ++ nl) []
               ++ PlanWar_print best), pos')
    | Some (Aborted stdout, pos') =>
        Some ((EXIT_FAILURE,
               printf ("Attempting to plan war for specified vectors" ++ nl ++ nl) []
               ++ stdout), pos')
    | Some (Undefined, _) => None
    | None => None
    end.
Proof.
  intros Hi Hb Hthr Hall Hlen.
  unfold main, command_line, program_arg_attack_vector, program_arg_sim_iterations,
    program_arg_bonus_units, program_arg_likelihood_threshold.
  cbn [List.length nth skipn].
  replace (S (S (S (S (List.length texts)))) <=? 4)%nat with false
    by (symmetry; apply Nat.leb_gt; lia).
  rewrite Hi, Hb, Hthr, (parse_vectors_Ok texts vectors [] Hall).
  - cbn [app]. destruct (Z.eqb_spec (uint b) 0) as [E|E]; unfold bind, ret.
    + rewrite E. now destruct (SimWar rand fuel vectors 0 (uint i) pos) as [[out p]|].
    + now destruct (PlanWar rand granted fuel vectors (uint b) thr (uint i) pos)
        as [[[best|out|] p]|].
  - unfold MAX_ATTACK_VECTORS. simpl List.length. lia.
Qed.

(** X11. The ways [main] fails.  With fewer than four arguments after the
    name of the binary it prints the usage message and returns
    [EXIT_FAILURE], whatever the arguments are.  When what it has printed
    is the message of a malformed attack vector, no random value has been
    drawn, some attack vector is malformed and those before it were
    parsed.  And when the allocator refuses the first block of [PlanWar],
    the run ends with [EXIT_FAILURE] after the message of [Abort], before
    a random value is drawn. *)
Theorem main_exit_failure
        (rand : nat -> Z) (atof : string -> option float) (granted : Z -> bool)
        (fuel : nat) (args : list string) (pos : nat) :
  ((List.length args <= 4)%nat ->
   main rand atof granted fuel args pos
   = Some ((EXIT_FAILURE, printf usage []), pos))
  /\ (forall pos',
         main rand atof granted fuel args pos
         = Some ((EXIT_FAILURE, printf ("Aborting: %s" ++ nl) [arg_string malformed]),
                 pos') ->
         pos' = pos
         /\ (4 < List.length args)%nat
         /\ exists earlier arg later,
             skipn 4 args = earlier ++ arg :: later
             /\ Forall (fun a => exists v, ParseAttackVector a = Ok v) earlier
             /\ ParseAttackVector arg = Abort malformed)
  /\ (forall binary iterations bonus threshold texts i b thr,
         args = command_line binary iterations bonus threshold texts ->
         atoi iterations = Some i -> atoi bonus = Some b ->
         atof threshold = Some thr ->
         Forall (fun a => exists v, ParseAttackVector a = Ok v) texts ->
         (1 <= List.length texts <= 16)%nat ->
         1 <= uint b < UINT_MAX ->
         granted (PLANS_SIZE_INCREMENT * sizeof_attack_plan) = false ->
         main rand atof granted fuel args pos
         = Some ((EXIT_FAILURE,
                  printf ("Attempting to plan war for specified vectors" ++ nl ++ nl) []
                  ++ printf ("Aborting: %s" ++ nl)
                            [arg_string "Memory alloc for plans failed"]),
                 pos)).
Proof.
  split; [|split].
  - unfold main, program_arg_attack_vector.
    intros Hlen. apply Nat.leb_le in Hlen. now rewrite Hlen.
  - unfold main, program_arg_attack_vector.
    intros pos'. destruct (Nat.leb_spec (List.length args) 4) as [Hlen|Hlen].
    + intros H. injection H as H _. discriminate.
    + destruct (atoi (nth program_arg_sim_iterations args EmptyString)) as [i|];
        [|discriminate].
      destruct (atoi (nth program_arg_bonus_units args EmptyString)) as [b|];
        [|discriminate].
      destruct (atof (nth program_arg_likelihood_threshold args EmptyString)) as [thr|];
        [|discriminate].
      destruct (parse_vectors (skipn 4 args) []) as [vectors|out|] eqn:Ep;
        [| |discriminate].
      * destruct (uint b =? 0); unfold bind.
        -- destruct (SimWar rand fuel vectors (uint b) (uint i) pos) as [[out p]|];
             discriminate.
        -- destruct (PlanWar rand granted fuel vectors (uint b) thr (uint i) pos)
             as [[[best|out|] p]|]; discriminate.
      * intros H. injection H as _ <-. split; [reflexivity|].
        split; [exact Hlen|]. exact (proj2 (parse_vectors_Aborted _ _ _ Ep)).
  - intros binary iterations bonus threshold texts i b thr -> Hi Hb Hthr Htexts Hlen HB Hg.
    assert (Hvs : exists vectors,
               Forall2 (fun a v => ParseAttackVector a = Ok v) texts vectors).
    { clear - Htexts. induction Htexts as [|a texts (v & Hv) _ (vectors & IH)].
      - exists []. constructor.
      - exists (v :: vectors). now constructor. }
    destruct Hvs as (vectors & Hall).
    rewrite (main_parsed rand atof granted fuel binary iterations bonus threshold
               texts i b thr vectors pos Hi Hb Hthr Hall Hlen).
    replace (uint b =? 0) with false by (symmetry; apply Z.eqb_neq; lia).
    destruct vectors as [|av vectors].
    { inversion Hall; subst. simpl in Hlen. lia. }
    unfold PlanWar, bind.
    rewrite (PlanWar_plans_refused rand granted fuel av vectors (uint b) thr (uint i) pos)
      by (lia || exact Hg).
    reflexivity.
Qed.

Lemma main_exit_failure_witness :
  main sample_rand (fun _ => Some fzero) (grant_up_to 0) 9
       ["warplan"; "1000"; "2"; "0.5"]%string 0%nat
  = Some ((EXIT_FAILURE, printf usage []), 0%nat)
  /\ main sample_rand (fun _ => Some fzero) (grant_up_to 0) 9
          (command_line "warplan" "3" "2" "0.5" ["7:3,3,1"; "5:0"]%string) 0%nat
     = Some ((EXIT_FAILURE,
              printf ("Attempting to plan war for specified vectors" ++ nl ++ nl) []
              ++ printf ("Aborting: %s" ++ nl)
                        [arg_string "Memory alloc for plans failed"]),
             0%nat).
Proof.
  split.
  - apply (main_exit_failure sample_rand (fun _ => Some fzero) (grant_up_to 0) 9
             ["warplan"; "1000"; "2"; "0.5"]%string 0%nat).
    simpl. lia.
  - apply (proj2 (proj2 (main_exit_failure sample_rand (fun _ => Some fzero)
                           (grant_up_to 0) 9
                           (command_line "warplan" "3" "2" "0.5"
                              ["7:3,3,1"; "5:0"]%string) 0%nat))
             "warplan" "3" "2" "0.5" ["7:3,3,1"; "5:0"]%string 3 2 fzero)%string.
    + reflexivity.
    + reflexivity.
    + reflexivity.
    + reflexivity.
    + repeat constructor; eexists; reflexivity.
    + simpl. lia.
    + change (uint 2) with 2. unfold UINT_MAX. lia.
    + reflexivity.
Defined.

(** X12. On a command line whose two numbers [atoi] can read and whose
    attack vectors, 16 at most, are all parsed, [main] runs [SimWar] on the
    parsed vectors when the bonus is 0 as an [unsigned int], and the
    threshold plays no part; otherwise it runs [PlanWar] with the bonus,
    the threshold and the iterations of the command line and prints the
    plan.  It returns [EXIT_SUCCESS] whenever the run returns predictions
    or a plan, and [EXIT_FAILURE], after the text of [Abort], when
    [PlanWar] aborts. *)
Theorem main_runs_the_parsed_vectors
        (rand : nat -> Z) (atof : string -> option float) (granted : Z -> bool)
        (fuel : nat)
        (binary iterations bonus threshold : string) (texts : list string)
        (i b : Z) (thr : float) (vectors : list attack_vector_def) (pos : nat) :
  atoi iterations = Some i -> atoi bonus = Some b ->
  atof threshold = Some thr ->
  Forall2 (fun a v => ParseAttackVector a = Ok v) texts vectors ->
  (1 <= List.length texts <= 16)%nat ->
  main rand atof granted fuel (command_line binary iterations bonus threshold texts) pos =
  if uint b =? 0 then
    match SimWar rand fuel vectors 0 (uint i) pos with
    | Some (stdout, pos') =>
        Some ((EXIT_SUCCESS,
               printf ("Simulating simple war and printing predictions" ++ nl ++ nl) []
               ++ stdout), pos')
    | None => None
    end
  else
    match PlanWar rand granted fuel vectors (uint b) thr (uint i) pos with
    | Some (Ok best, pos') =>
        Some ((EXIT_SUCCESS,
               printf ("Attempting to plan war for specified vectors" ++ nl ++ nl) []
               ++ PlanWar_print best), pos')
    | Some (Aborted stdout, pos') =>
        Some ((EXIT_FAILURE,
               printf ("Attempting to plan war for specified vectors" ++ nl ++ nl) []
               ++ stdout), pos')
    | Some (Undefined, _) => None
    | None => None
    end.
Proof. exact (main_parsed rand atof granted fuel binary iterations bonus threshold
                texts i b thr vectors pos). Qed.

Lemma main_runs_the_parsed_vectors_witness :
  main sample_rand (fun _ => Some fzero) grant_all 9
       (command_line "warplan" "3" "0" "0.5" ["7:3,3,1"; "5:0"]%string) 0%nat =
  if uint 0 =? 0 then
    match SimWar sample_rand 9 [sample_vector; trivial_vector] 0 (uint 3) 0%nat with
    | Some (stdout, pos') =>
        Some ((EXIT_SUCCESS,
               printf ("Simulating simple war and printing predictions" ++ nl ++ nl) []
               ++ stdout), pos')
    | None => None
    end
  else
    match PlanWar sample_rand grant_all 9 [sample_vector; trivial_vector] (uint 0) fzero
                  (uint 3) 0%nat with
    | Some (Ok best, pos') =>
        Some ((EXIT_SUCCESS,
               printf ("Attempting to plan war for specified vectors" ++ nl ++ nl) []
               ++ PlanWar_print best), pos')
    | Some (Aborted stdout, pos') =>
        Some ((EXIT_FAILURE,
               printf ("Attempting to plan war for specified vectors" ++ nl ++ nl) []
               ++ stdout), pos')
    | Some (Undefined, _) => None
    | None => None
    end.
Proof.
  apply (main_runs_the_parsed_vectors sample_rand (fun _ => Some fzero) grant_all 9
           "warplan" "3" "0" "0.5" ["7:3,3,1"; "5:0"]%string 3 0 fzero
           [sample_vector; trivial_vector] 0%nat).
  - reflexivity.
  - reflexivity.
  - reflexivity.
  - repeat constructor.
  - simpl. lia.
Defined.

(** X13. [main] does not compare the number of attack vectors with
    [MAX_ATTACK_VECTORS]: with more than 16 vectors on the command line,
    all of them well formed, the 17th is written outside the array. *)
Theorem main_overruns_the_array
        (rand : nat -> Z) (atof : string -> option float) (granted : Z -> bool)
        (binary iterations bonus threshold : string) (texts : list string)
        (i b : Z) (thr : float) (vectors : list attack_vector_def) :
  atoi iterations = Some i -> atoi bonus = Some b ->
  atof threshold = Some thr ->
  Forall2 (fun a v => ParseAttackVector a = Ok v) texts vectors ->
  (16 < List.length texts)%nat ->
  parse_vectors texts [] = Undefined
  /\ forall fuel pos,
      main rand atof granted fuel
           (command_line binary iterations bonus threshold texts) pos
      = None.
Proof.
  intros Hi Hb Hthr Hall Hlen.
  assert (Hp : parse_vectors texts [] = Undefined).
  { apply (parse_vectors_overrun texts vectors []); auto;
      unfold MAX_ATTACK_VECTORS; simpl List.length; lia. }
  split; [exact Hp|]. intros fuel pos.
  unfold main, command_line, program_arg_attack_vector, program_arg_sim_iterations,
    program_arg_bonus_units, program_arg_likelihood_threshold.
  cbn [List.length nth skipn].
  replace (S (S (S (S (List.length texts)))) <=? 4)%nat with false
    by (symmetry; apply Nat.leb_gt; lia).
  now rewrite Hi, Hb, Hthr, Hp.
Qed.

Lemma main_overruns_the_array_witness :
  parse_vectors (repeat "5:0"%string 17) [] = Undefined
  /\ forall fuel pos,
      main sample_rand (fun _ => Some fzero) grant_all fuel
           (command_line "warplan" "3" "0" "0.5" (repeat "5:0"%string 17)) pos
      = None.
Proof.
  apply (main_overruns_the_array sample_rand (fun _ => Some fzero) grant_all
           "warplan" "3" "0" "0.5" (repeat "5:0"%string 17) 3 0 fzero
           (repeat trivial_vector 17)).
  - reflexivity.
  - reflexivity.
  - reflexivity.
  - simpl. repeat constructor.
  - simpl. lia.
Defined.

(** ** The enumeration as a counter *)

Lemma NextCombination_number (last : Z) :
  0 <= last < UINT_MAX ->
  forall indices,
    Forall (fun i => 0 <= i <= last) indices ->
    let n := List.length indices in
    let state := fst (NextCombination indices last) in
    let next := snd (NextCombination indices last) in
    0 <= combination_number last indices <= (last + 1) ^ Z.of_nat n - 1
    /\ List.length next = n
    /\ Forall (fun i => 0 <= i <= last) next
    /\ (state = combinations_remain ->
        combination_number last next = combination_number last indices + 1)
    /\ (state = combinations_exhausted ->
        combination_number last indices = (last + 1) ^ Z.of_nat n - 1
        /\ next = repeat 0 n).
Proof.
  intros Hlast. induction 1 as [|i rest Hi Hrest IH]; cbn zeta.
  - cbn. repeat split; try lia; try constructor. discriminate.
  - cbn zeta in IH. destruct IH as (Hbound & Hlen & Hall & Hrem & Hex).
    cbn [NextCombination combination_number List.length].
    rewrite Nat2Z.inj_succ, Z.pow_succ_r by lia.
    rewrite (uint_small (i + 1)) by (unfold is_uint; lia).
    set (p := (last + 1) ^ Z.of_nat (List.length rest)) in *.
    set (m := combination_number last rest) in *.
    destruct (Z.leb_spec (i + 1) last) as [Hle|Hgt].
    + cbn [fst snd combination_number List.length].
      split; [nia|]. split; [reflexivity|].
      split; [constructor; [lia | exact Hrest]|].
      split; [intros _; lia | discriminate].
    + assert (i = last) by lia. subst i.
      destruct (NextCombination rest last) as [state rest'] eqn:E.
      cbn [fst snd] in *. cbn [combination_number List.length repeat].
      split; [nia|]. split; [now rewrite Hlen|].
      split; [constructor; [lia | exact Hall]|].
      split.
      * intros Hs. rewrite (Hrem Hs). lia.
      * intros Hs. destruct (Hex Hs) as [Hm ->]. split; [nia | reflexivity].
Qed.

(** X14. [NextCombination] counts: on cells between 0 and [last_index] it
    keeps their number and their range, and it adds one to the number the
    cells stand for in base [last_index + 1], the first cell counting the
    units.  It reports exhaustion exactly on the largest number, all cells
    at [last_index], and then leaves all cells at 0, where
    [InitCombinations] had put them. *)
Theorem NextCombination_counts_up (indices : list Z) (last_index : Z) :
  0 <= last_index < UINT_MAX ->
  indices <> [] ->
  Forall (fun i => 0 <= i <= last_index) indices ->
  let n := List.length indices in
  let state := fst (NextCombination indices last_index) in
  let next := snd (NextCombination indices last_index) in
  List.length next = n
  /\ Forall (fun i => 0 <= i <= last_index) next
  /\ (state = combinations_remain ->
      combination_number last_index next
      = combination_number last_index indices + 1)
  /\ (state = combinations_exhausted <->
      combination_number last_index indices = (last_index + 1) ^ Z.of_nat n - 1)
  /\ (state = combinations_exhausted <-> indices = repeat last_index n)
  /\ (state = combinations_exhausted -> next = InitCombinations n).
Proof.
  intros Hlast _ Hall. cbn zeta.
  destruct (NextCombination_number last_index Hlast indices Hall)
    as (Hbound & Hlen & Hnext & Hrem & Hex).
  cbn zeta in *.
  destruct (NextCombination_number last_index Hlast _ Hnext) as (Hbound' & _).
  cbn zeta in Hbound'. rewrite Hlen in Hbound'.
  assert (Hmax : fst (NextCombination indices last_index) = combinations_exhausted <->
                 combination_number last_index indices
                 = (last_index + 1) ^ Z.of_nat (List.length indices) - 1).
  { split; [intros Hs; apply (Hex Hs)|].
    intros Hm.
    destruct (fst (NextCombination indices last_index)) eqn:Es; [reflexivity|].
    specialize (Hrem eq_refl). lia. }
  split; [exact Hlen|]. split; [exact Hnext|]. split; [exact Hrem|].
  split; [exact Hmax|]. split; [|intros Hs; apply (Hex Hs)].
  rewrite Hmax. clear - Hall Hlast.
  induction Hall as [|i rest Hi Hrest IH]; [cbn; split; reflexivity|].
  cbn [combination_number List.length repeat].
  rewrite Nat2Z.inj_succ, Z.pow_succ_r by lia.
  assert (Hb : 0 <= combination_number last_index rest
               <= (last_index + 1) ^ Z.of_nat (List.length rest) - 1).
  { destruct (NextCombination_number last_index Hlast rest Hrest) as (Hb & _).
    exact Hb. }
  split.
  - intros Hm.
    assert (i = last_index /\ combination_number last_index rest
                              = (last_index + 1) ^ Z.of_nat (List.length rest) - 1)
      as [-> Hm'] by nia.
    f_equal. now apply IH.
  - intros E. injection E as -> Erest.
    apply IH in Erest. rewrite Erest. ring.
Qed.

Lemma NextCombination_counts_up_witness :
  let n := List.length [2; 0; 1] in
  let state := fst (NextCombination [2; 0; 1] 2) in
  let next := snd (NextCombination [2; 0; 1] 2) in
  List.length next = n
  /\ Forall (fun i => 0 <= i <= 2) next
  /\ (state = combinations_remain ->
      combination_number 2 next = combination_number 2 [2; 0; 1] + 1)
  /\ (state = combinations_exhausted <->
      combination_number 2 [2; 0; 1] = (2 + 1) ^ Z.of_nat n - 1)
  /\ (state = combinations_exhausted <-> [2; 0; 1] = repeat 2 n)
  /\ (state = combinations_exhausted -> next = InitCombinations n).
Proof.
  apply (NextCombination_counts_up [2; 0; 1] 2).
  - unfold UINT_MAX. lia.
  - discriminate.
  - repeat constructor; lia.
Defined.

(** ** The passes of the search *)

Lemma flat_map_length_const {A B} (f : A -> list B) (k : nat) (l : list A) :
  (forall x, List.length (f x) = k) ->
  List.length (flat_map f l) = (k * List.length l)%nat.
Proof.
  intros Hf. induction l as [|x l IH]; simpl; [lia|].
  rewrite length_app, Hf, IH. lia.
Qed.

Lemma all_combinations_length (V B : nat) :
  List.length (all_combinations V B) = (S B ^ V)%nat.
Proof.
  induction V as [|V IH]; [reflexivity|].
  cbn [all_combinations]. rewrite (flat_map_length_const _ (S B)).
  - rewrite IH. cbn [Nat.pow]. reflexivity.
  - intros rest. unfold digit_block. now rewrite length_map, length_seq.
Qed.

(** In a table whose rows hold the setups of the bonus amounts 0 to B, in
    order, a cell carries the amount it is read at, and the plan of a
    combination carries its amounts. *)
Lemma labelled_row_bonus (row : list attack_setup) (B b : Z) :
  0 <= b <= B ->
  map bonus row = map Z.of_nat (seq 0 (Z.to_nat B + 1)) ->
  bonus (nth (Z.to_nat b) row unset_setup) = b.
Proof.
  intros Hb Hrow.
  rewrite <- (map_nth bonus). rewrite Hrow.
  change (bonus unset_setup) with (Z.of_nat 0).
  rewrite (map_nth Z.of_nat). rewrite seq_nth by lia. lia.
Qed.

Lemma labelled_table_bonuses (table : list (list attack_setup)) (B : Z) :
  Forall (fun row => map bonus row = map Z.of_nat (seq 0 (Z.to_nat B + 1))) table ->
  forall t, List.length t = List.length table ->
            Forall (fun b => 0 <= b <= B) t ->
            map bonus (chosen_setups table t) = t.
Proof.
  unfold chosen_setups.
  induction 1 as [|row table Hrow _ IH]; intros [|b t] Hlen Hall;
    try discriminate; [reflexivity|].
  inversion Hall as [|? ? Hb Ht]; subst.
  cbn [combine map fst snd]. f_equal.
  - now apply (labelled_row_bonus row B).
  - apply IH; [cbn in Hlen; lia | exact Ht].
Qed.

(** X15. The search of [PlanWar] makes one pass per combination of the
    bonus amounts, whatever their sum: with V vectors, 16 at most, a pool
    of B and a table of V rows that hold the setups of the amounts 0 to B,
    it takes exactly (B + 1) ^ V passes, fewer do not finish it.  When the
    allocator lets the array grow to the plans there are to store, it then
    holds one plan per combination of amounts that add up to the pool, in
    the order of the enumeration. *)
Theorem PlanWar_loop_passes
        (granted : Z -> bool) (table : list (list attack_setup)) (V : nat) (B : Z)
        (steps : nat) :
  (1 <= V)%nat -> Z.of_nat V <= MAX_ATTACK_VECTORS -> 0 <= B < UINT_MAX ->
  List.length table = V ->
  Forall (fun row => map bonus row = map Z.of_nat (seq 0 (Z.to_nat B + 1))) table ->
  holds_plans granted (plans_to_store V B) ->
  (Z.of_nat steps < (B + 1) ^ Z.of_nat V ->
   PlanWar_loop granted steps table B (InitCombinations V) [] PLANS_SIZE_INCREMENT
   = Undefined)
  /\ ((B + 1) ^ Z.of_nat V <= Z.of_nat steps ->
      exists plans,
        PlanWar_loop granted steps table B (InitCombinations V) []
                     PLANS_SIZE_INCREMENT
        = Ok plans
        /\ map plan_bonuses plans
           = filter (fun t => total_bonus t =? B) (all_combinations V (Z.to_nat B))
        /\ Z.of_nat (List.length plans) = plans_to_store V B).
Proof.
  intros HV Hcap HB Hlen Hrows Hold.
  destruct (all_combinations_chain V (Z.to_nat B)) as (others & Eall & Hchain);
    [rewrite Z2Nat.id; lia|].
  rewrite Z2Nat.id in Hchain by lia.
  pose proof (all_combinations_length V (Z.to_nat B)) as Hcombos.
  rewrite Eall in Hcombos. cbn [List.length] in Hcombos.
  assert (Hpow : Z.of_nat (S (Z.to_nat B) ^ V) = (B + 1) ^ Z.of_nat V).
  { rewrite Nat2Z.inj_pow. f_equal. lia. }
  destruct (kept_count granted V B HV Hcap ltac:(lia) Hold) as [Efilter Hkept].
  assert (Htuples : Forall (bonus_tuple V B) (all_combinations V (Z.to_nat B))).
  { apply Forall_forall. intros t Ht. apply all_combinations_In in Ht.
    now rewrite Z2Nat.id in Ht by lia. }
  assert (Hlengths : Forall (fun t => List.length t = List.length table)
                            (all_combinations V (Z.to_nat B)))
    by (rewrite Hlen; apply all_combinations_lengths).
  assert (Hcount : Z.of_nat (List.length (keep_plans table B
                                            (all_combinations V (Z.to_nat B))))
                   = plans_to_store V B)
    by (rewrite keep_plans_length by exact Hlengths; exact Hkept).
  assert (Hstart : array_ok [] PLANS_SIZE_INCREMENT)
    by (exists 1; unfold PLANS_SIZE_INCREMENT; cbn [List.length]; lia).
  assert (Hroom : holds_plans granted
                    (Z.of_nat (List.length
                                 ([] ++ keep_plans table B (InitCombinations V :: others)))))
    by (cbn [app]; rewrite <- Eall, Hcount; exact Hold).
  split; intros Hsteps.
  - apply (PlanWar_loop_short granted table B others); auto. lia.
  - exists (keep_plans table B (all_combinations V (Z.to_nat B))).
    split; [|split; [|exact Hcount]].
    + rewrite (PlanWar_loop_chain granted table B others); auto.
      * cbn [app]. now rewrite Eall.
      * lia.
      * unfold InitCombinations. now rewrite repeat_length.
    + rewrite <- Efilter. clear - Htuples Hlen Hrows.
      induction Htuples as [|t combos [Ht Hrange] _ IH]; [reflexivity|].
      rewrite keep_plans_cons, map_app, IH. cbn [filter].
      rewrite plan_of_total_bonus by lia.
      destruct (uint (total_bonus t) =? B) eqn:E; [|reflexivity].
      cbn [map app]. f_equal. unfold plan_bonuses. rewrite plan_of_setups.
      apply (labelled_table_bonuses table B Hrows); [lia | exact Hrange].
Qed.

Lemma PlanWar_loop_passes_witness :
  PlanWar_loop grant_all 8 sample_table 2 (InitCombinations 2) [] PLANS_SIZE_INCREMENT
  = Undefined
  /\ exists plans,
      PlanWar_loop grant_all 9 sample_table 2 (InitCombinations 2) []
                   PLANS_SIZE_INCREMENT
      = Ok plans
      /\ map plan_bonuses plans = [[2; 0]; [1; 1]; [0; 2]]
      /\ Z.of_nat (List.length plans) = 3.
Proof.
  assert (Hold : holds_plans grant_all (plans_to_store 2 2))
    by (apply grant_all_holds; vm_compute; discriminate).
  assert (Hrows : Forall (fun row => map bonus row
                                     = map Z.of_nat (seq 0 (Z.to_nat 2 + 1)))
                         sample_table)
    by (repeat constructor).
  split.
  - apply (PlanWar_loop_passes grant_all sample_table 2 2 8); auto.
    + unfold MAX_ATTACK_VECTORS. lia.
    + unfold UINT_MAX. lia.
    + simpl. lia.
  - apply (PlanWar_loop_passes grant_all sample_table 2 2 9); auto.
    + unfold MAX_ATTACK_VECTORS. lia.
    + unfold UINT_MAX. lia.
    + simpl. lia.
Defined.

(** ** The comparison of plans *)

Lemma ComparePlan_cases (a b : attack_plan) :
  has_sign false (total_score a) -> has_sign false (total_score b) ->
  (ComparePlan a b = 1 /\ ComparePlan b a = -1
   /\ SFltb (total_score a) (total_score b) = true)
  \/ (ComparePlan a b = -1 /\ ComparePlan b a = 1
      /\ SFltb (total_score b) (total_score a) = true)
  \/ (ComparePlan a b = 0 /\ ComparePlan b a = 0
      /\ SFltb (total_score a) (total_score b) = false
      /\ SFltb (total_score b) (total_score a) = false).
Proof.
  intros Ha Hb. unfold ComparePlan, fgt, flt.
  destruct (SFltb (total_score a) (total_score b)) eqn:Eab.
  - rewrite (SFltb_asym _ _ Ha Hb Eab). left. auto.
  - destruct (SFltb (total_score b) (total_score a)) eqn:Eba.
    + right. left. auto.
    + right. right. auto.
Qed.

(** X16. The plans [PlanWar] hands to [qsort] can be compared: none of
    their scores is a NaN (a setup whose likelihood is a NaN, as with 0
    iterations, or whose threshold is a NaN, scores 0), and on them
    [ComparePlan] is a consistent order: a plan compares equal to itself,
    swapping the arguments flips the sign, and the order is transitive.
    The vectors are 16 at most, and the allocator lets the array grow to
    the plans there are to store. *)
Theorem ComparePlan_consistent_on_plans
        (rand : nat -> Z) (granted : Z -> bool) (vectors : list attack_vector_def)
        (B : Z) (thr : float) (iters : Z) (pos : nat) :
  (forall n, 0 <= rand n <= INT_MAX) ->
  vectors <> [] -> Z.of_nat (List.length vectors) <= MAX_ATTACK_VECTORS ->
  Forall vector_ok vectors ->
  1 <= B < UINT_MAX -> 0 <= iters <= UINT_MAX ->
  holds_plans granted (plans_to_store (List.length vectors) B) ->
  exists fuel0, forall fuel, (fuel0 <= fuel)%nat ->
  exists plans pos',
    PlanWar_plans rand granted fuel vectors B thr iters pos = Some (Ok plans, pos')
    /\ Forall (fun p => is_nan (total_score p) = false) plans
    /\ (forall a, In a plans -> ComparePlan a a = 0)
    /\ (forall a b, In a plans -> In b plans ->
                    ComparePlan a b = - ComparePlan b a)
    /\ (forall a b c, In a plans -> In b plans -> In c plans ->
                      ComparePlan a b <= 0 -> ComparePlan b c <= 0 ->
                      ComparePlan a c <= 0).
Proof.
  intros Hr Hne Hcap Hall HB Hit Hold.
  destruct (PlanWar_array_spec rand granted vectors B thr iters pos
              Hr Hne Hcap Hall HB Hit Hold) as (fuel0 & H).
  exists fuel0. intros fuel Hle.
  destruct (H fuel Hle) as (table & plans & pos' & _ & _ & Hp & _ & Hsign & _).
  exists plans, pos'. split; [exact Hp|].
  rewrite Forall_forall in Hsign.
  split; [apply Forall_forall; intros p Hin;
          exact (has_sign_not_nan _ _ (Hsign p Hin))|].
  split; [|split].
  - intros a Ha.
    destruct (ComparePlan_cases a a (Hsign a Ha) (Hsign a Ha))
      as [(E1 & E2 & _) | [(E1 & E2 & _) | (E & _)]]; [lia | lia | exact E].
  - intros a b Ha Hb.
    destruct (ComparePlan_cases a b (Hsign a Ha) (Hsign b Hb))
      as [(E1 & E2 & _) | [(E1 & E2 & _) | (E1 & E2 & _)]]; rewrite E1, E2; reflexivity.
  - intros a b c Ha Hb Hc Hab Hbc.
    apply ComparePlan_le in Hab. apply ComparePlan_le in Hbc. apply ComparePlan_le.
    exact (SFltb_false_trans _ _ _ (Hsign a Ha) (Hsign b Hb) (Hsign c Hc) Hab Hbc).
Qed.

Lemma ComparePlan_consistent_on_plans_witness :
  exists fuel0, forall fuel, (fuel0 <= fuel)%nat ->
  exists plans pos',
    PlanWar_plans sample_rand grant_all fuel [sample_vector; trivial_vector] 2
                  S754_nan 0 0%nat
    = Some (Ok plans, pos')
    /\ Forall (fun p => is_nan (total_score p) = false) plans
    /\ (forall a, In a plans -> ComparePlan a a = 0)
    /\ (forall a b, In a plans -> In b plans ->
                    ComparePlan a b = - ComparePlan b a)
    /\ (forall a b c, In a plans -> In b plans -> In c plans ->
                      ComparePlan a b <= 0 -> ComparePlan b c <= 0 ->
                      ComparePlan a c <= 0).
Proof.
  apply (ComparePlan_consistent_on_plans sample_rand grant_all
           [sample_vector; trivial_vector] 2 S754_nan 0 0).
  - exact sample_rand_range.
  - discriminate.
  - unfold MAX_ATTACK_VECTORS. simpl. lia.
  - constructor; [exact sample_vector_ok|].
    constructor; [exact trivial_vector_ok | constructor].
  - unfold UINT_MAX; lia.
  - unfold UINT_MAX; lia.
  - apply grant_all_holds. vm_compute. discriminate.
Defined.

(** ** The outcome of a run *)

Lemma AttackTerritory_loop_exit (rand : nat -> Z) (fuel rounds : nat) :
  forall f t pos rf rt pos',
    AttackTerritory_loop rand fuel rounds f t pos = Some ((rf, rt), pos') ->
    rf <= 1 \/ rt <= 0.
Proof.
  induction rounds as [|rounds IH]; intros f t pos rf rt pos' H; cbn in H.
  - destruct ((f >? MIN_TERRITORY_UNITS) && (t >? 0)) eqn:E; [discriminate|].
    injection H as <- <- _. apply andb_false_iff in E.
    unfold MIN_TERRITORY_UNITS in E.
    destruct E as [E|E]; rewrite Z.gtb_ltb in E; apply Z.ltb_ge in E; lia.
  - destruct ((f >? MIN_TERRITORY_UNITS) && (t >? 0)) eqn:E.
    + apply bind_Some in H. destruct H as ([f1 t1] & pos1 & _ & H).
      exact (IH _ _ _ _ _ _ H).
    + injection H as <- <- _. apply andb_false_iff in E.
      unfold MIN_TERRITORY_UNITS in E.
      destruct E as [E|E]; rewrite Z.gtb_ltb in E; apply Z.ltb_ge in E; lia.
Qed.

Lemma SingleAttack_defenders (rand : nat -> Z) (fuel : nat) (f t : Z) (pos : nat)
      (rf rt : Z) (pos' : nat) :
  SingleAttack rand fuel f t pos = Some ((rf, rt), pos') ->
  is_uint t -> rt <= t.
Proof.
  unfold SingleAttack. intros H Ht.
  apply bind_Some in H. destruct H as (attack_dice & pos1 & _ & H).
  apply bind_Some in H. destruct H as (defend_dice & pos2 & _ & H).
  assert (Hc : 0 <= compare_dice_count f t <= Z.min t 2).
  { unfold compare_dice_count, attack_dice_count.
    rewrite !MIN_spec, defend_dice_count_spec.
    pose proof (uint_is_uint (f - MIN_TERRITORY_UNITS)) as Hu.
    unfold is_uint, MAX_ATTACK_DICE_COUNT in *. lia. }
  rewrite count_losses_spec in H by (unfold UINT_MAX; lia).
  injection H as _ <- _.
  set (lost := List.length (filter (attacker_wins attack_dice defend_dice)
                                   (seq 0 (Z.to_nat (compare_dice_count f t))))).
  assert (Hlost : (lost <= Z.to_nat (compare_dice_count f t))%nat).
  { unfold lost. etransitivity; [apply filter_length_le|]. now rewrite length_seq. }
  rewrite uint_small by (unfold is_uint in *; lia). lia.
Qed.

Lemma AttackTerritory_loop_defenders (rand : nat -> Z) (fuel rounds : nat) :
  forall f t pos rf rt pos',
    AttackTerritory_loop rand fuel rounds f t pos = Some ((rf, rt), pos') ->
    is_uint t -> rt <= t.
Proof.
  induction rounds as [|rounds IH]; intros f t pos rf rt pos' H Ht; cbn in H;
    destruct ((f >? MIN_TERRITORY_UNITS) && (t >? 0));
    try discriminate; try (injection H as _ <- _; lia).
  apply bind_Some in H. destruct H as ([f1 t1] & pos1 & Hs & H).
  pose proof (SingleAttack_defenders _ _ _ _ _ _ _ _ Hs Ht) as Hle.
  destruct (SingleAttack_uint _ _ _ _ _ _ _ _ Hs) as [_ Ht1].
  specialize (IH _ _ _ _ _ _ H Ht1). lia.
Qed.

(** X17. Whatever [SimAttack] returns for a vector of the parser is a win
    or a stalled assault.  It is a win, no enemy unit left, exactly when
    every territory is counted as conquered.  Otherwise fewer are, the
    territory that stopped the run still has defenders, and the front is
    down to 0 or 1 unit: a lost run never leaves units that could attack. *)
Theorem SimAttack_win_or_stalled
        (rand : nat -> Z) (fuel : nat) (av : attack_vector_def) (bonus_units : Z)
        (pos pos' : nat) (r : attack_result) :
  vector_ok av ->
  SimAttack rand fuel av bonus_units pos = Some (r, pos') ->
  0 <= conquered_territory_count r <= territory_count av
  /\ 0 <= enemy_units_on_front r <= UINT_MAX
  /\ (enemy_units_on_front r = 0 <->
      conquered_territory_count r = territory_count av)
  /\ (enemy_units_on_front r <> 0 ->
      conquered_territory_count r < territory_count av
      /\ 0 <= result_units_on_front r <= 1
      /\ exists stopped,
          nth_error (territory_vector av)
                    (Z.to_nat (conquered_territory_count r)) = Some stopped
          /\ enemy_units_on_front r <= units stopped).
Proof.
  intros (Hfront & Hne & Hcount & Hunits) H. unfold SimAttack in H.
  destruct (SimAttack_loop_shape rand fuel (territory_vector av) _ 0 pos r pos' H
              Hunits (uint_is_uint _)) as (He & Hf & Hshape).
  unfold territory_count.
  destruct Hshape as [[Hwin Hc] | (Hloss & k & stopped & front' & pos0 & Hk & Hc & Hat)].
  - rewrite Hc, Hwin. split; [lia|]. split; [unfold UINT_MAX; lia|].
    split; [split; intros; lia|]. intros Hx. exfalso. now apply Hx.
  - assert (Hlt : (k < List.length (territory_vector av))%nat)
      by (apply nth_error_Some; rewrite Hk; discriminate).
    rewrite Hc. split; [lia|]. split; [exact He|]. split; [split; intros; lia|].
    intros _. split; [lia|].
    unfold AttackTerritory in Hat.
    pose proof (AttackTerritory_loop_exit _ _ _ _ _ _ _ _ _ Hat) as Hexit.
    split; [unfold is_uint in *; lia|].
    exists stopped. rewrite Z.add_0_l, Nat2Z.id. split; [exact Hk|].
    apply (AttackTerritory_loop_defenders _ _ _ _ _ _ _ _ _ Hat).
    rewrite Forall_forall in Hunits. apply Hunits.
    exact (nth_error_In _ _ Hk).
Qed.

Lemma SimAttack_win_or_stalled_witness :
  let r := {| conquered_territory_count := 0; result_units_on_front := 1;
              enemy_units_on_front := INT_MAX |} in
  0 <= conquered_territory_count r <= territory_count crowded_vector
  /\ 0 <= enemy_units_on_front r <= UINT_MAX
  /\ (enemy_units_on_front r = 0 <->
      conquered_territory_count r = territory_count crowded_vector)
  /\ (enemy_units_on_front r <> 0 ->
      conquered_territory_count r < territory_count crowded_vector
      /\ 0 <= result_units_on_front r <= 1
      /\ exists stopped,
          nth_error (territory_vector crowded_vector)
                    (Z.to_nat (conquered_territory_count r)) = Some stopped
          /\ enemy_units_on_front r <= units stopped).
Proof.
  apply (SimAttack_win_or_stalled sample_rand 0 crowded_vector 0 0 0
           {| conquered_territory_count := 0; result_units_on_front := 1;
              enemy_units_on_front := INT_MAX |}).
  - unfold vector_ok, is_uint, territory_count, MAX_TERRITORY_VECTOR_SIZE.
    cbn [crowded_vector units_on_front territory_vector List.length].
    split; [unfold UINT_MAX; lia|]. split; [discriminate|]. split; [simpl; lia|].
    repeat constructor; unfold INT_MAX, UINT_MAX; simpl; lia.
  - reflexivity.
Defined.

(** ** [DiceToString] *)

Lemma utoa_digits_length (digits : nat) :
  forall (n : Z) (text : string),
    (String.length (utoa_digits digits n text) <= digits + String.length text)%nat.
Proof.
  induction digits as [|digits IH]; intros n text; cbn [utoa_digits]; [lia|].
  destruct (n / 10 =? 0); [simpl; lia|].
  etransitivity; [apply IH|]. simpl. lia.
Qed.

Lemma DiceToString_loop_spec (l : list Z) :
  forall (pre rest : list Z) (written : string),
    DiceToString_loop (pre ++ l ++ rest) (List.length pre) (List.length l) written
    = Some (written
            ++ fold_right (fun d acc => utoa d ++ ", " ++ acc) EmptyString l)%string.
Proof.
  induction l as [|d l IH]; intros pre rest written.
  - cbn. now rewrite string_app_nil_r.
  - cbn [List.length DiceToString_loop].
    rewrite nth_error_app2 by lia. rewrite Nat.sub_diag. cbn [app nth_error].
    replace (pre ++ d :: l ++ rest) with ((pre ++ [d]) ++ l ++ rest)
      by (now rewrite <- app_assoc).
    replace (S (List.length pre)) with (List.length (pre ++ [d]))
      by (rewrite length_app; simpl; lia).
    rewrite IH. cbn [fold_right]. now rewrite !string_app_assoc.
Qed.

Lemma DiceToString_loop_short (remaining : nat) :
  forall (dice : list Z) (index : nat) (written : string),
    (index <= List.length dice < index + remaining)%nat ->
    DiceToString_loop dice index remaining written = None.
Proof.
  induction remaining as [|remaining IH]; intros dice index written Hlen; [lia|].
  cbn [DiceToString_loop].
  destruct (nth_error dice index) as [d|] eqn:E; [|reflexivity].
  assert (index < List.length dice)%nat
    by (apply nth_error_Some; rewrite E; discriminate).
  apply IH. lia.
Qed.

Lemma concat_last (l : list Z) (x : string) :
  String.concat ", " (map utoa l ++ [x])
  = (fold_right (fun d acc => utoa d ++ ", " ++ acc) EmptyString l ++ x)%string.
Proof.
  induction l as [|a l IH]; [reflexivity|].
  cbn [map app fold_right]. rewrite !string_app_assoc, <- IH.
  destruct (map utoa l ++ [x]) as [|b rest] eqn:E; [|reflexivity].
  destruct (map utoa l); discriminate.
Qed.

Lemma concat_length_bound (l : list string) (k : nat) :
  Forall (fun s => (String.length s <= k)%nat) l ->
  (String.length (String.concat ", " l) <= (k + 2) * List.length l)%nat.
Proof.
  induction 1 as [|a l Ha _ IH]; [simpl; lia|].
  destruct l as [|b l]; [simpl; nia|].
  change (String.concat ", " (a :: b :: l))
    with (a ++ ", " ++ String.concat ", " (b :: l))%string.
  rewrite !string_length_app. change (String.length ", ") with 2%nat.
  cbn [List.length] in *. nia.
Qed.

(** X18. [DiceToString] writes the dice in decimal, separated by a comma
    and a space, for the one to three dice that [RollDice] has put in the
    array, and the text fits the buffer of 512 bytes.  With a count of 0,
    [count - 1] wraps around to [UINT_MAX] and the function reads past the
    cells of the array: it relies on its caller never rolling 0 dice. *)
Theorem DiceToString_text (dice : list Z) :
  dice <> [] -> (List.length dice <= 3)%nat ->
  Forall (fun d => 0 <= d <= UINT_MAX) dice ->
  DiceToString dice (Z.of_nat (List.length dice))
  = Some (String.concat ", " (map utoa dice))
  /\ Z.of_nat (String.length (String.concat ", " (map utoa dice)))
     < MAX_DICE_STRING_SIZE
  /\ DiceToString [] 0 = None
  /\ DiceToString dice 0 = None.
Proof.
  intros Hne Hlen _.
  assert (Hfit : Z.of_nat (String.length (String.concat ", " (map utoa dice)))
                 < MAX_DICE_STRING_SIZE).
  { pose proof (concat_length_bound (map utoa dice) 10) as Hb.
    rewrite length_map in Hb. unfold MAX_DICE_STRING_SIZE.
    assert (Hall : Forall (fun s => (String.length s <= 10)%nat) (map utoa dice)).
    { apply Forall_forall. intros s Hin. apply in_map_iff in Hin.
      destruct Hin as (d & <- & _). unfold utoa.
      etransitivity; [apply utoa_digits_length|]. simpl. lia. }
    specialize (Hb Hall). lia. }
  assert (Hzero : forall cells, (List.length cells <= 3)%nat ->
                                DiceToString cells 0 = None).
  { intros cells Hc. unfold DiceToString.
    change (uint (0 - 1)) with 4294967295.
    rewrite DiceToString_loop_short; [reflexivity | lia]. }
  split; [|split; [exact Hfit | split; apply Hzero; simpl; lia]].
  destruct (exists_last Hne) as (l & x & ->).
  rewrite length_app in *. cbn [List.length] in *.
  unfold DiceToString.
  replace (uint (Z.of_nat (List.length l + 1) - 1)) with (Z.of_nat (List.length l))
    by (rewrite uint_small; [lia | unfold is_uint, UINT_MAX; lia]).
  rewrite Nat2Z.id.
  pose proof (DiceToString_loop_spec l [] [x] EmptyString) as Hloop.
  cbn [app List.length] in Hloop. rewrite Hloop.
  rewrite nth_error_app2 by lia. rewrite Nat.sub_diag. cbn [nth_error].
  rewrite map_app in *. cbn [map] in *. rewrite concat_last in *.
  apply Z.ltb_lt in Hfit. cbn [append] in Hfit |- *. now rewrite Hfit.
Qed.

Lemma DiceToString_text_witness :
  DiceToString [6; 5; 1] (Z.of_nat (List.length [6; 5; 1]))
  = Some (String.concat ", " (map utoa [6; 5; 1]))
  /\ Z.of_nat (String.length (String.concat ", " (map utoa [6; 5; 1])))
     < MAX_DICE_STRING_SIZE
  /\ DiceToString [] 0 = None
  /\ DiceToString [6; 5; 1] 0 = None.
Proof.
  apply (DiceToString_text [6; 5; 1]).
  - discriminate.
  - simpl. lia.
  - repeat constructor; unfold UINT_MAX; lia.
Defined.

(** ** Texts that are not numbers *)

Lemma atoi_not_a_number (s : string) : not_a_number s -> atoi s = Some 0.
Proof.
  destruct s as [|c s]; [contradiction|].
  intros (Hsp & Hm & Hp & Hd).
  unfold atoi, strtol_value. cbn [skip_spaces]. rewrite Hsp.
  apply Ascii.eqb_neq in Hm. apply Ascii.eqb_neq in Hp. rewrite Hm, Hp.
  cbn [digits_value]. unfold is_digit in Hd.
  destruct (digit_value c); [discriminate | reflexivity].
Qed.

(** X19. [ParseAttackVector] does not check that a field is a number: a
    field after the colon that starts with anything but white space, a
    sign or a digit is read as a territory of 0 units, and the vector is
    accepted. *)
Theorem ParseAttackVector_reads_text_as_zero
        (front_field : string) (fields : list string) (front : Z) :
  is_field ":" front_field ->
  atoi front_field = Some front ->
  Forall (is_field ",") fields ->
  Forall not_a_number fields ->
  (1 <= List.length fields <= 128)%nat ->
  let text := (front_field ++ ":" ++ String.concat "," fields)%string in
  ParseAttackVector text =
  Ok {| def_string := text;
        units_on_front := uint front;
        territory_vector := repeat {| units := 0 |} (List.length fields) |}.
Proof.
  intros Hf Hat Hfs Hjunk Hlen text.
  assert (Hats : Forall2 (fun f n => atoi f = Some n) fields
                         (repeat 0 (List.length fields))).
  { clear - Hjunk. induction Hjunk as [|f fields Hj _ IH]; constructor; auto.
    now apply atoi_not_a_number. }
  pose proof (ParseAttackVector_strtok front_field (String.concat "," fields)
                front EmptyString eq_refl Hf Hat) as H.
  cbn [append] in H. change (String ":" (String.concat "," fields))
    with (":" ++ String.concat "," fields)%string in H.
  fold text in H. rewrite H.
  rewrite (parse_territories_concat fields _ _ [] Hfs Hats).
  - cbn [app]. unfold territories_of. rewrite map_repeat.
    change (uint 0) with 0.
    destruct fields as [|f fields]; [simpl in Hlen; lia | reflexivity].
  - now apply concat_fields_length.
  - unfold MAX_TERRITORY_VECTOR_SIZE. simpl List.length. lia.
Qed.

Lemma ParseAttackVector_reads_text_as_zero_witness :
  ParseAttackVector ("7:three,l")%string =
  Ok {| def_string := "7:three,l";
        units_on_front := 7;
        territory_vector := [ {| units := 0 |}; {| units := 0 |} ] |}.
Proof.
  apply (ParseAttackVector_reads_text_as_zero "7" ["three"; "l"]%string 7).
  - split; [discriminate | reflexivity].
  - reflexivity.
  - repeat constructor; discriminate.
  - repeat constructor; discriminate.
  - simpl. lia.
Defined.

(** ** [AttackTerritory] never adds a unit *)

(** X20. [AttackTerritory] with at least one unit on the front returns
    with no more units on either side than it was given, and with at least
    one unit on the front; when it has taken a territory that had a
    defender, at least two units are left on the front, so that one can
    stay behind and one move on. *)
Theorem AttackTerritory_never_gains
        (rand : nat -> Z) (fuel : nat) (front : Z) (territory : territory_def)
        (pos : nat) :
  (forall n, 0 <= rand n <= INT_MAX) ->
  1 <= front <= UINT_MAX ->
  0 <= units territory <= UINT_MAX ->
  front + units territory <= Z.of_nat fuel ->
  exists rf rt pos',
    AttackTerritory rand fuel front territory pos = Some ((rf, rt), pos')
    /\ 1 <= rf <= front
    /\ 0 <= rt <= units territory
    /\ (rt = 0 -> 1 <= units territory -> 2 <= rf)
    /\ (rt <> 0 -> rf = 1).
Proof.
  intros Hr Hf Ht Hfuel. unfold AttackTerritory.
  destruct fuel as [|fuel]; [simpl in Hfuel; lia|].
  destruct (AttackTerritory_loop_total rand Hr fuel (S fuel) front (units territory)
              pos ltac:(lia) Ht Hfuel)
    as (rf & rt & pos' & H & Hfloor & Hrf & Hrt & Hone & Htwo).
  exists rf, rt, pos'. split; [exact H|].
  specialize (Hone ltac:(lia)).
  split; [lia|]. split; [exact Hrt|]. split; [exact Htwo|].
  intros Hrt0. lia.
Qed.

Lemma AttackTerritory_never_gains_witness :
  exists rf rt pos',
    AttackTerritory sample_rand 10 7 {| units := 3 |} 0%nat = Some ((rf, rt), pos')
    /\ 1 <= rf <= 7
    /\ 0 <= rt <= units {| units := 3 |}
    /\ (rt = 0 -> 1 <= units {| units := 3 |} -> 2 <= rf)
    /\ (rt <> 0 -> rf = 1).
Proof.
  apply (AttackTerritory_never_gains sample_rand 10 7 {| units := 3 |} 0).
  - exact sample_rand_range.
  - unfold UINT_MAX. lia.
  - unfold UINT_MAX. simpl. lia.
  - simpl. lia.
Defined.

(** ** A run of the program *)

Lemma parsed_vectors_ok (texts : list string) (vectors : list attack_vector_def) :
  Forall2 (fun a v => ParseAttackVector a = Ok v) texts vectors ->
  Forall vector_ok vectors /\ map def_string vectors = texts.
Proof.
  induction 1 as [|a v texts vectors Hv _ [IH1 IH2]]; [split; constructor|].
  unfold ParseAttackVector in Hv.
  destruct (strtok a ":") as [[param saved]|]; [|discriminate].
  destruct (atoi param) as [front|]; [|discriminate].
  destruct (parse_territories (String.length saved) saved []) as [tv| |] eqn:E;
    try discriminate.
  destruct tv as [|first others]; [discriminate|].
  injection Hv as <-.
  destruct (parse_territories_Ok _ _ _ _ E) as (new & Hout & Hall & _ & Hlen).
  simpl in Hout. subst new. split.
  - constructor; [|exact IH1].
    unfold vector_ok, territory_count. cbn [units_on_front territory_vector].
    split; [apply uint_is_uint|]. split; [discriminate|].
    split; [apply Hlen; discriminate | exact Hall].
  - cbn [map def_string]. now rewrite IH2.
Qed.

(** X21. A simulation from the command line.  When the iterations and
    the bonus are numbers [atoi] can read, the bonus is 0, and the attack
    vectors, 16 at most, are all parsed, [main] returns [EXIT_SUCCESS]
    after it has printed one prediction per vector, in the order of the
    command line and under the very text of each argument; the counts of
    each prediction add up to the number of iterations, and no float
    printed is a NaN. *)
Theorem main_prints_the_simulation
        (rand : nat -> Z) (atof : string -> option float) (granted : Z -> bool)
        (binary iterations bonus threshold : string) (texts : list string)
        (i b : Z) (thr : float) (pos : nat) :
  (forall n, 0 <= rand n <= INT_MAX) ->
  atoi iterations = Some i -> atoi bonus = Some b -> uint b = 0 ->
  atof threshold = Some thr ->
  Forall (fun a => exists v, ParseAttackVector a = Ok v) texts ->
  (1 <= List.length texts <= 16)%nat ->
  exists fuel0, forall fuel, (fuel0 <= fuel)%nat ->
  exists stdout pos',
    main rand atof granted fuel
         (command_line binary iterations bonus threshold texts) pos
    = Some ((EXIT_SUCCESS, stdout), pos')
    /\ map (fun h => fst (fst h)) (printed_counts stdout) = texts
    /\ Forall (fun h => 0 <= snd (fst h) /\ 0 <= snd h
                        /\ snd (fst h) + snd h = uint i)
              (printed_counts stdout)
    /\ Forall (fun x => is_nan x = false) (printed_floats stdout).
Proof.
  intros Hr Hi Hb Hb0 Hthr Htexts Hlen.
  assert (Hvs : exists vectors,
             Forall2 (fun a v => ParseAttackVector a = Ok v) texts vectors).
  { clear - Htexts. induction Htexts as [|a texts (v & Hv) _ (vectors & IH)].
    - exists []. constructor.
    - exists (v :: vectors). now constructor. }
  destruct Hvs as (vectors & Hall).
  destruct (parsed_vectors_ok texts vectors Hall) as [Hok Hnames].
  destruct enough_fuel_exists as (fuel0 & Hfuel0). exists fuel0. intros fuel Hle.
  pose proof (enough_fuel_mono _ _ Hfuel0 Hle) as Hfuel.
  assert (Hit : 0 <= uint i <= UINT_MAX) by apply uint_is_uint.
  destruct (SimWar_spec rand Hr fuel 0 (uint i) Hfuel Hit vectors pos Hok)
    as (stdout & pos' & Hs & Hn & Hc & Hf & _ & _).
  exists (printf ("Simulating simple war and printing predictions" ++ nl ++ nl) []
          ++ stdout), pos'.
  split.
  - unfold main, command_line, program_arg_attack_vector, program_arg_sim_iterations,
      program_arg_bonus_units, program_arg_likelihood_threshold.
    cbn [List.length nth skipn].
    replace (S (S (S (S (List.length texts)))) <=? 4)%nat with false
      by (symmetry; apply Nat.leb_gt; lia).
    rewrite Hi, Hb, Hthr, (parse_vectors_Ok texts vectors [] Hall)
      by (unfold MAX_ATTACK_VECTORS; simpl List.length; lia).
    cbn [app]. rewrite Hb0. cbn [Z.eqb]. now rewrite (bind_eq _ _ _ _ _ Hs).
  - rewrite printed_counts_app, printed_floats_app.
    destruct (printf_no_args ("Simulating simple war and printing predictions"
                              ++ nl ++ nl)) as (-> & -> & _).
    cbn [app]. rewrite Hn, Hnames. auto.
Qed.

Lemma main_prints_the_simulation_witness :
  exists fuel0, forall fuel, (fuel0 <= fuel)%nat ->
  exists stdout pos',
    main sample_rand (fun _ => Some fzero) grant_all fuel
         (command_line "warplan" "1000" "0" "0" ["7:3,3,1"; "5:0"]%string) 0%nat
    = Some ((EXIT_SUCCESS, stdout), pos')
    /\ map (fun h => fst (fst h)) (printed_counts stdout) = ["7:3,3,1"; "5:0"]%string
    /\ Forall (fun h => 0 <= snd (fst h) /\ 0 <= snd h
                        /\ snd (fst h) + snd h = uint 1000)
              (printed_counts stdout)
    /\ Forall (fun x => is_nan x = false) (printed_floats stdout).
Proof.
  apply (main_prints_the_simulation sample_rand (fun _ => Some fzero) grant_all
           "warplan" "1000" "0" "0" ["7:3,3,1"; "5:0"]%string 1000 0 fzero 0%nat).
  - exact sample_rand_range.
  - reflexivity.
  - reflexivity.
  - reflexivity.
  - reflexivity.
  - repeat constructor; eexists; reflexivity.
  - simpl. lia.
Defined.

(** X22. A plan from the command line.  When the iterations and the
    bonus are numbers [atoi] can read, the bonus B as an [unsigned int] is
    neither 0 nor [UINT_MAX], the attack vectors, 16 at most, are all
    parsed, and the allocator lets the array grow to the plans there are to
    store, [main] returns [EXIT_SUCCESS] after it has printed a plan: one
    bonus line per vector, in the order of the command line and with the
    very text of each argument, the bonuses lying between 0 and B and
    adding up to B, each followed by a prediction whose counts add up to
    the number of iterations. *)
Theorem main_prints_the_plan
        (rand : nat -> Z) (atof : string -> option float) (granted : Z -> bool)
        (binary iterations bonus threshold : string) (texts : list string)
        (i b : Z) (thr : float) (pos : nat) :
  (forall n, 0 <= rand n <= INT_MAX) ->
  atoi iterations = Some i -> atoi bonus = Some b ->
  1 <= uint b < UINT_MAX ->
  atof threshold = Some thr ->
  Forall (fun a => exists v, ParseAttackVector a = Ok v) texts ->
  (1 <= List.length texts <= 16)%nat ->
  holds_plans granted (plans_to_store (List.length texts) (uint b)) ->
  exists fuel0, forall fuel, (fuel0 <= fuel)%nat ->
  exists stdout pos' bonuses,
    main rand atof granted fuel
         (command_line binary iterations bonus threshold texts) pos
    = Some ((EXIT_SUCCESS, stdout), pos')
    /\ printed_bonuses stdout = combine bonuses texts
    /\ List.length bonuses = List.length texts
    /\ Forall (fun n => 0 <= n <= uint b) bonuses
    /\ total_bonus bonuses = uint b
    /\ map (fun h => fst (fst h)) (printed_counts stdout) = texts
    /\ Forall (fun h => 0 <= snd (fst h) /\ 0 <= snd h
                        /\ snd (fst h) + snd h = uint i)
              (printed_counts stdout)
    /\ Forall (fun x => is_nan x = false) (printed_floats stdout).
Proof.
  intros Hr Hi Hb HB Hthr Htexts Hlen Hold.
  assert (Hvs : exists vectors,
             Forall2 (fun a v => ParseAttackVector a = Ok v) texts vectors).
  { clear - Htexts. induction Htexts as [|a texts (v & Hv) _ (vectors & IH)].
    - exists []. constructor.
    - exists (v :: vectors). now constructor. }
  destruct Hvs as (vectors & Hall).
  destruct (parsed_vectors_ok texts vectors Hall) as [Hok Hnames].
  assert (Hcount : List.length vectors = List.length texts)
    by (symmetry; exact (Forall2_length Hall)).
  assert (Hne : vectors <> []).
  { intros ->. inversion Hall; subst. simpl in Hlen. lia. }
  assert (Hit : 0 <= uint i <= UINT_MAX) by apply uint_is_uint.
  rewrite <- Hcount in Hold.
  destruct (PlanWar_report_spec rand granted vectors (uint b) thr (uint i) pos
              Hr Hne ltac:(unfold MAX_ATTACK_VECTORS; lia) Hok HB Hit Hold)
    as (fuel0 & H).
  exists fuel0. intros fuel Hle.
  destruct (H fuel Hle) as (best & pos' & Hp & Hmay & Hbest).
  destruct (Hbest best Hmay) as (Ev & Ht & Hsum & Hpred).
  destruct (PlanWar_print_spec vectors (uint b) (uint i) best Hit Ev Ht Hsum Hpred)
    as (Eb & Hlenb & Hrange & _ & En & Hc & Hf).
  exists (printf ("Attempting to plan war for specified vectors" ++ nl ++ nl) []
          ++ PlanWar_print best), pos', (plan_bonuses best).
  split.
  - rewrite (main_parsed rand atof granted fuel binary iterations bonus threshold
               texts i b thr vectors pos Hi Hb Hthr Hall Hlen).
    replace (uint b =? 0) with false by (symmetry; apply Z.eqb_neq; lia).
    now rewrite Hp.
  - rewrite !printed_bonuses_app, !printed_counts_app, !printed_floats_app.
    destruct (printf_no_args ("Attempting to plan war for specified vectors"
                              ++ nl ++ nl)) as (-> & -> & ->).
    cbn [app]. rewrite Eb, En, Hnames, Hlenb, Hcount. repeat split; auto.
Qed.

Lemma main_prints_the_plan_witness :
  exists fuel0, forall fuel, (fuel0 <= fuel)%nat ->
  exists stdout pos' bonuses,
    main sample_rand (fun _ => Some fzero) grant_all fuel
         (command_line "warplan" "3" "2" "0" ["7:3,3,1"; "5:0"]%string) 0%nat
    = Some ((EXIT_SUCCESS, stdout), pos')
    /\ printed_bonuses stdout = combine bonuses ["7:3,3,1"; "5:0"]%string
    /\ List.length bonuses = List.length ["7:3,3,1"; "5:0"]%string
    /\ Forall (fun n => 0 <= n <= uint 2) bonuses
    /\ total_bonus bonuses = uint 2
    /\ map (fun h => fst (fst h)) (printed_counts stdout) = ["7:3,3,1"; "5:0"]%string
    /\ Forall (fun h => 0 <= snd (fst h) /\ 0 <= snd h
                        /\ snd (fst h) + snd h = uint 3)
              (printed_counts stdout)
    /\ Forall (fun x => is_nan x = false) (printed_floats stdout).
Proof.
  apply (main_prints_the_plan sample_rand (fun _ => Some fzero) grant_all
           "warplan" "3" "2" "0" ["7:3,3,1"; "5:0"]%string 3 2 fzero 0%nat).
  - exact sample_rand_range.
  - reflexivity.
  - reflexivity.
  - change (uint 2) with 2. unfold UINT_MAX. lia.
  - reflexivity.
  - repeat constructor; eexists; reflexivity.
  - simpl. lia.
  - apply grant_all_holds. vm_compute. discriminate.
Defined.

(** ** The totals of [PredictAttack] *)

Lemma total_units_split (k : nat) :
  forall (ts : list territory_def) (stopped : territory_def),
    Forall (fun t => is_uint (units t)) ts ->
    nth_error ts k = Some stopped ->
    units stopped + total_units (skipn (S k) ts) <= total_units ts.
Proof.
  induction k as [|k IH]; intros ts stopped Hall Hk;
    destruct ts as [|t ts]; try discriminate.
  - injection Hk as ->. cbn. fold (total_units ts). lia.
  - inversion Hall as [|? ? Ht Hts]; subst.
    specialize (IH ts stopped Hts Hk).
    cbn [skipn] in *. cbn [total_units fold_right]. fold (total_units ts).
    unfold is_uint in Ht. lia.
Qed.

Lemma mul_le_bound (a b x m : Z) :
  0 <= a <= b -> 0 <= x -> b * x <= m -> a * x <= m.
Proof.
  intros Hab Hx Hb. apply Z.le_trans with (b * x); [|exact Hb].
  apply Z.mul_le_mono_nonneg_r; lia.
Qed.

Lemma total_units_count (ts : list territory_def) :
  Forall (fun t => 1 <= units t) ts -> Z.of_nat (List.length ts) <= total_units ts.
Proof.
  induction 1 as [|t ts Ht _ IH]; [cbn; lia|].
  cbn [List.length total_units fold_right]. fold (total_units ts). lia.
Qed.

Section TotalsProperties.
Variable rand : nat -> Z.
Hypothesis rand_range : forall n, 0 <= rand n <= INT_MAX.

(** What a run can add to the totals. *)
Lemma SimAttack_run_in_range (fuel : nat) (av : attack_vector_def)
      (bonus_units : Z) (pos pos' : nat) (r : attack_result) :
  enough_fuel fuel -> vector_ok av ->
  Forall (fun t => 1 <= units t) (territory_vector av) ->
  1 <= units_on_front av + bonus_units <= UINT_MAX ->
  total_units (territory_vector av) <= UINT_MAX ->
  SimAttack rand fuel av bonus_units pos = Some (r, pos') ->
  1 <= result_units_on_front r <= units_on_front av + bonus_units
  /\ (enemy_units_on_front r <> 0 ->
      1 <= enemy_units_remaining av r <= total_units (territory_vector av)
      /\ 1 <= territory_count av - conquered_territory_count r <= territory_count av).
Proof.
  intros Hfuel Hav Hdef Hfront Htotal H.
  pose proof Hav as (Hf & Hne & Hcount & Hunits).
  assert (Hdef' : Forall (fun t => 1 <= units t <= UINT_MAX) (territory_vector av)).
  { rewrite Forall_forall in *. intros t Hin.
    specialize (Hdef t Hin). specialize (Hunits t Hin). unfold is_uint in Hunits. lia. }
  unfold SimAttack in H.
  rewrite (uint_small (units_on_front av + bonus_units)) in H
    by (unfold is_uint; lia).
  destruct (SimAttack_loop_defended rand rand_range fuel (territory_vector av) Hfuel
              (units_on_front av + bonus_units) 0 pos Hne Hdef' Hfront)
    as (r' & p' & Hr' & Hres & _).
  rewrite H in Hr'. injection Hr' as <- <-.
  split; [exact Hres|]. intros Hloss.
  destruct (SimAttack_loop_shape rand fuel (territory_vector av) _ 0 pos r pos' H Hunits)
    as (He & _ & Hshape); [unfold is_uint; lia|].
  destruct Hshape as [[Hwin _] | (_ & k & stopped & front' & pos0 & Hk & Hc & Hat)];
    [contradiction|].
  assert (Hlt : (k < List.length (territory_vector av))%nat)
    by (apply nth_error_Some; rewrite Hk; discriminate).
  assert (Hstopped : is_uint (units stopped)).
  { rewrite Forall_forall in Hunits. apply Hunits. exact (nth_error_In _ _ Hk). }
  unfold AttackTerritory in Hat.
  pose proof (AttackTerritory_loop_defenders _ _ _ _ _ _ _ _ _ Hat Hstopped) as Hle.
  pose proof (total_units_split k _ _ Hunits Hk) as Hsplit.
  pose proof (total_units_nonneg _ (Forall_after _ (S k) _ Hunits)) as Hrest.
  unfold territory_count in *. rewrite Hc, Z.add_0_l. split; [|lia].
  unfold enemy_units_remaining. rewrite Hc, Z.add_0_l.
  rewrite (uint_small (Z.of_nat k + 1))
    by (unfold is_uint, MAX_TERRITORY_VECTOR_SIZE, UINT_MAX in *; lia).
  replace (Z.to_nat (Z.of_nat k + 1)) with (S k) by lia.
  rewrite add_territory_units_sum by exact He.
  unfold is_uint in He, Hstopped.
  rewrite uint_small by (unfold is_uint; lia). lia.
Qed.

Lemma tally_run_in_range (fuel : nat) (av : attack_vector_def) (bonus_units : Z)
      (pos pos' : nat) (r : attack_result) (c : counters) (k : Z) :
  enough_fuel fuel -> vector_ok av ->
  Forall (fun t => 1 <= units t) (territory_vector av) ->
  1 <= units_on_front av + bonus_units <= UINT_MAX ->
  SimAttack rand fuel av bonus_units pos = Some (r, pos') ->
  counters_ok k c -> totals_in_range av bonus_units c ->
  (k + 1) * (units_on_front av + bonus_units) <= UINT_MAX ->
  (k + 1) * total_units (territory_vector av) <= UINT_MAX ->
  totals_in_range av bonus_units (tally_run av r c).
Proof.
  intros Hfuel Hav Hdef Hfront Hrun (Hw & Hl & Hk & _) (Hu & He & Ht) Hmax1 Hmax2.
  pose proof (total_units_count _ Hdef) as Hdefenders.
  fold (territory_count av) in Hdefenders.
  assert (Hcount : 1 <= territory_count av <= MAX_TERRITORY_VECTOR_SIZE).
  { destruct Hav as (_ & Hne & Hc & _). unfold territory_count in *.
    destruct (territory_vector av); [contradiction | cbn [List.length] in *; lia]. }
  unfold MAX_TERRITORY_VECTOR_SIZE in Hcount.
  assert (Htotal : total_units (territory_vector av) <= UINT_MAX).
  { rewrite <- (Z.mul_1_l (total_units _)).
    apply (mul_le_bound 1 (k + 1)); lia. }
  destruct (SimAttack_run_in_range fuel av bonus_units pos pos' r Hfuel Hav Hdef
              Hfront Htotal Hrun) as [Hres Hloss].
  unfold tally_run, totals_in_range in *.
  set (F := units_on_front av + bonus_units) in *.
  set (T := total_units (territory_vector av)) in *.
  set (C := territory_count av) in *.
  assert (HwF : (sum_win_count c + 1) * F <= UINT_MAX)
    by (apply (mul_le_bound _ (k + 1)); lia).
  assert (HlT : (sum_loss_count c + 1) * T <= UINT_MAX)
    by (apply (mul_le_bound _ (k + 1)); lia).
  assert (HlC : (sum_loss_count c + 1) * C <= (sum_loss_count c + 1) * T)
    by (apply Z.mul_le_mono_nonneg_l; lia).
  assert (Hk1 : k + 1 <= UINT_MAX).
  { rewrite <- (Z.mul_1_r (k + 1)).
    apply Z.le_trans with ((k + 1) * F); [|exact Hmax1].
    apply Z.mul_le_mono_nonneg_l; lia. }
  destruct (Z.eqb_spec (enemy_units_on_front r) 0) as [E|E];
    cbn [sum_win_count sum_loss_count sum_total_units_on_front
         sum_total_enemy_units_remaining sum_total_territories_remaining].
  - rewrite (uint_small (sum_win_count c + 1)) by (unfold is_uint; lia).
    rewrite (uint_small (sum_total_units_on_front c + _))
      by (unfold is_uint; lia).
    repeat match goal with |- _ /\ _ => split end; lia.
  - destruct (Hloss E) as [Herem Hterr].
    rewrite (uint_small (sum_loss_count c + 1)) by (unfold is_uint; lia).
    rewrite (uint_small (C - conquered_territory_count r))
      by (unfold is_uint, UINT_MAX; lia).
    rewrite (uint_small (sum_total_enemy_units_remaining c + _))
      by (unfold is_uint; lia).
    rewrite (uint_small (sum_total_territories_remaining c + _))
      by (unfold is_uint; lia).
    repeat match goal with |- _ /\ _ => split end; lia.
Qed.

Lemma PredictAttack_loop_in_range (fuel : nat) (av : attack_vector_def)
      (bonus_units : Z) :
  enough_fuel fuel -> vector_ok av ->
  Forall (fun t => 1 <= units t) (territory_vector av) ->
  1 <= units_on_front av + bonus_units <= UINT_MAX ->
  forall (remaining : nat) (c : counters) (k : Z) (pos : nat),
    counters_ok k c -> totals_in_range av bonus_units c ->
    (k + Z.of_nat remaining) * (units_on_front av + bonus_units) <= UINT_MAX ->
    (k + Z.of_nat remaining) * total_units (territory_vector av) <= UINT_MAX ->
    exists c' pos',
      PredictAttack_loop rand fuel av bonus_units remaining c pos = Some (c', pos')
      /\ counters_ok (k + Z.of_nat remaining) c'
      /\ totals_in_range av bonus_units c'.
Proof.
  intros Hfuel Hav Hdef Hfront.
  assert (Htv : 1 <= total_units (territory_vector av)).
  { destruct Hav as (_ & Hne & _ & Hunits).
    destruct (territory_vector av) as [|t ts]; [contradiction|].
    inversion Hdef; subst. inversion Hunits; subst.
    pose proof (total_units_nonneg ts ltac:(assumption)).
    cbn. fold (total_units ts). lia. }
  induction remaining as [|remaining IH]; intros c k pos Hc Hin Hmax1 Hmax2.
  - exists c, pos. rewrite Z.add_0_r. auto.
  - destruct (SimAttack_total rand rand_range fuel av bonus_units pos Hfuel Hav)
      as (r & pos1 & Hr).
    pose proof Hc as (Hw & Hl & Hk & _).
    assert (Hstep1 : (k + 1) * (units_on_front av + bonus_units) <= UINT_MAX)
      by (apply (mul_le_bound _ (k + Z.of_nat (S remaining))); lia).
    assert (Hstep2 : (k + 1) * total_units (territory_vector av) <= UINT_MAX)
      by (apply (mul_le_bound _ (k + Z.of_nat (S remaining))); lia).
    assert (Hlt : k < UINT_MAX).
    { assert ((k + 1) * 1 <= (k + 1) * (units_on_front av + bonus_units))
        by (apply Z.mul_le_mono_nonneg_l; lia).
      lia. }
    pose proof (tally_run_ok av r c k Hc Hlt) as Hc'.
    pose proof (tally_run_in_range fuel av bonus_units pos pos1 r c k Hfuel Hav Hdef
                  Hfront Hr Hc Hin Hstep1 Hstep2) as Hin'.
    replace (k + Z.of_nat (S remaining)) with (k + 1 + Z.of_nat remaining) in * by lia.
    destruct (IH (tally_run av r c) (k + 1) pos1 Hc' Hin' Hmax1 Hmax2)
      as (c' & pos' & Hl' & Hc'' & Hin'').
    exists c', pos'. cbn [PredictAttack_loop]. rewrite (bind_eq _ _ _ _ _ Hr).
    auto.
Qed.

End TotalsProperties.

(** X23. The totals [PredictAttack] divides stay within what the runs can
    have added.  For a vector whose territories all have a defender, with
    at least one unit to start with, and as long as no total can pass
    [UINT_MAX], the units left after the wins add up to between 1 and the
    starting units per win, the enemy units left after the losses to
    between 1 and all the defenders of the vector per loss, and the
    territories left to between 1 and all the territories per loss: the
    averages printed are averages of values in those ranges. *)
Theorem PredictAttack_totals_in_range
        (rand : nat -> Z) (av : attack_vector_def) (bonus_units sim_iterations : Z)
        (pos : nat) :
  (forall n, 0 <= rand n <= INT_MAX) ->
  vector_ok av ->
  Forall (fun t => 1 <= units t) (territory_vector av) ->
  1 <= units_on_front av + bonus_units <= UINT_MAX ->
  0 <= sim_iterations ->
  sim_iterations * (units_on_front av + bonus_units) <= UINT_MAX ->
  sim_iterations * total_units (territory_vector av) <= UINT_MAX ->
  exists fuel0, forall fuel, (fuel0 <= fuel)%nat ->
  exists c pos',
    PredictAttack_counters rand fuel av bonus_units sim_iterations pos = Some (c, pos')
    /\ PredictAttack rand fuel av bonus_units sim_iterations pos
       = Some (prediction_of c, pos')
    /\ sum_win_count c + sum_loss_count c = sim_iterations
    /\ sum_win_count c <= sum_total_units_on_front c
       <= sum_win_count c * (units_on_front av + bonus_units)
    /\ sum_loss_count c <= sum_total_enemy_units_remaining c
       <= sum_loss_count c * total_units (territory_vector av)
    /\ sum_loss_count c <= sum_total_territories_remaining c
       <= sum_loss_count c * territory_count av.
Proof.
  intros Hr Hav Hdef Hfront Hit Hmax1 Hmax2.
  destruct enough_fuel_exists as (fuel0 & Hfuel0). exists fuel0. intros fuel Hle.
  pose proof (enough_fuel_mono _ _ Hfuel0 Hle) as Hfuel.
  destruct (PredictAttack_loop_in_range rand Hr fuel av bonus_units Hfuel Hav Hdef
              Hfront (Z.to_nat sim_iterations) no_counts 0 pos no_counts_ok)
    as (c & pos' & Hl & Hc & Hin).
  - unfold totals_in_range, no_counts. cbn. lia.
  - rewrite Z.add_0_l, Z2Nat.id by lia. exact Hmax1.
  - rewrite Z.add_0_l, Z2Nat.id by lia. exact Hmax2.
  - rewrite Z.add_0_l, Z2Nat.id in Hc by lia.
    exists c, pos'. unfold PredictAttack, PredictAttack_counters.
    rewrite (bind_eq _ _ _ _ _ Hl).
    split; [exact Hl|]. split; [reflexivity|].
    destruct Hc as (_ & _ & Hk & _). split; [exact Hk|]. exact Hin.
Qed.

Lemma PredictAttack_totals_in_range_witness :
  exists fuel0, forall fuel, (fuel0 <= fuel)%nat ->
  exists c pos',
    PredictAttack_counters sample_rand fuel sample_vector 2 1000 0%nat = Some (c, pos')
    /\ PredictAttack sample_rand fuel sample_vector 2 1000 0%nat
       = Some (prediction_of c, pos')
    /\ sum_win_count c + sum_loss_count c = 1000
    /\ sum_win_count c <= sum_total_units_on_front c
       <= sum_win_count c * (units_on_front sample_vector + 2)
    /\ sum_loss_count c <= sum_total_enemy_units_remaining c
       <= sum_loss_count c * total_units (territory_vector sample_vector)
    /\ sum_loss_count c <= sum_total_territories_remaining c
       <= sum_loss_count c * territory_count sample_vector.
Proof.
  apply (PredictAttack_totals_in_range sample_rand sample_vector 2 1000 0).
  - exact sample_rand_range.
  - exact sample_vector_ok.
  - repeat constructor; simpl; lia.
  - unfold UINT_MAX; simpl; lia.
  - lia.
  - unfold UINT_MAX; simpl; lia.
  - unfold UINT_MAX; simpl; lia.
Defined.

(** ** The number of plans [PlanWar] stores *)

(** X24. The number of plans [PlanWar] stores.  With V vectors, 16 at
    most, and a pool of B, when the allocator lets the array grow that far,
    the array handed to [qsort] holds as many plans as there are ways to
    share B units among V vectors: the binomial coefficient of B + V - 1
    over V - 1, a number of plans whose bytes [size_t] can count.  With one
    vector that is 1 plan, with two vectors B + 1 plans. *)
Theorem PlanWar_number_of_plans
        (rand : nat -> Z) (granted : Z -> bool) (vectors : list attack_vector_def)
        (B : Z) (thr : float) (iters : Z) (pos : nat) :
  (forall n, 0 <= rand n <= INT_MAX) ->
  vectors <> [] -> Z.of_nat (List.length vectors) <= MAX_ATTACK_VECTORS ->
  Forall vector_ok vectors ->
  1 <= B < UINT_MAX ->
  0 <= iters <= UINT_MAX ->
  holds_plans granted (plans_to_store (List.length vectors) B) ->
  exists fuel0, forall fuel, (fuel0 <= fuel)%nat ->
  exists plans pos',
    PlanWar_plans rand granted fuel vectors B thr iters pos = Some (Ok plans, pos')
    /\ List.length plans
       = binomial (Z.to_nat B + (List.length vectors - 1)) (List.length vectors - 1)
    /\ Z.of_nat (List.length plans) * sizeof_attack_plan <= SIZE_MAX
    /\ (List.length vectors = 1%nat -> List.length plans = 1%nat)
    /\ (List.length vectors = 2%nat -> Z.of_nat (List.length plans) = B + 1).
Proof.
  intros Hr Hne Hcap Hall HB Hit Hold.
  destruct (PlanWar_tuples_spec rand granted vectors B thr iters pos Hr Hne Hcap Hall)
    as (fuel0 & H); [lia | assumption | assumption |].
  exists fuel0. intros fuel Hle.
  destruct (H fuel Hle) as (table & plans & pos' & _ & _ & Hp & _ & _ & _ & _ & Hcount).
  exists plans, pos'. split; [exact Hp|].
  assert (Hfit : Z.of_nat (List.length plans) * sizeof_attack_plan <= SIZE_MAX).
  { rewrite Hcount. apply (holds_plans_bound granted); [|exact Hold].
    unfold plans_to_store. lia. }
  unfold plans_to_store in Hcount. apply Nat2Z.inj in Hcount.
  split; [exact Hcount|]. split; [exact Hfit|].
  split; intros HV; rewrite Hcount, HV.
  - cbn [Nat.sub]. apply binomial_zero.
  - cbn [Nat.sub]. rewrite binomial_one. lia.
Qed.

Lemma PlanWar_number_of_plans_witness :
  exists fuel0, forall fuel, (fuel0 <= fuel)%nat ->
  exists plans pos',
    PlanWar_plans sample_rand grant_all fuel
                  [sample_vector; trivial_vector; sample_vector]
                  4 fzero 2 0%nat = Some (Ok plans, pos')
    /\ List.length plans
       = binomial (Z.to_nat 4
                   + (List.length [sample_vector; trivial_vector; sample_vector] - 1))
                  (List.length [sample_vector; trivial_vector; sample_vector] - 1)
    /\ Z.of_nat (List.length plans) * sizeof_attack_plan <= SIZE_MAX
    /\ (List.length [sample_vector; trivial_vector; sample_vector] = 1%nat ->
        List.length plans = 1%nat)
    /\ (List.length [sample_vector; trivial_vector; sample_vector] = 2%nat ->
        Z.of_nat (List.length plans) = 4 + 1).
Proof.
  apply (PlanWar_number_of_plans sample_rand grant_all
           [sample_vector; trivial_vector; sample_vector] 4 fzero 2 0).
  - exact sample_rand_range.
  - discriminate.
  - unfold MAX_ATTACK_VECTORS. simpl. lia.
  - constructor; [exact sample_vector_ok|].
    constructor; [exact trivial_vector_ok|].
    constructor; [exact sample_vector_ok | constructor].
  - unfold UINT_MAX; lia.
  - unfold UINT_MAX; lia.
  - apply grant_all_holds. vm_compute. discriminate.
Defined.

(** X25. [PlanWar] ends with its array of plans only if the array could be
    held.  Whatever the allocator and the bound on the loops, when the
    search has ended there are between 1 and 16 vectors, every block asked
    for on the way to the plans stored was granted and is, in bytes, a
    [size_t], and the plans stored are at least one per way of sharing the
    pool: the allocator let the array grow to the binomial coefficient of
    B + V - 1 over V - 1 plans, and these take [SIZE_MAX] bytes at most. *)
Theorem PlanWar_plans_need_the_array
        (rand : nat -> Z) (granted : Z -> bool) (fuel : nat)
        (vectors : list attack_vector_def) (B : Z) (thr : float) (iters : Z)
        (pos : nat) (plans : list attack_plan) (pos' : nat) :
  0 <= B < UINT_MAX ->
  PlanWar_plans rand granted fuel vectors B thr iters pos = Some (Ok plans, pos') ->
  (1 <= List.length vectors)%nat
  /\ Z.of_nat (List.length vectors) <= MAX_ATTACK_VECTORS
  /\ plans_to_store (List.length vectors) B <= Z.of_nat (List.length plans)
  /\ holds_plans granted (Z.of_nat (List.length plans))
  /\ holds_plans granted (plans_to_store (List.length vectors) B)
  /\ plans_to_store (List.length vectors) B * sizeof_attack_plan <= SIZE_MAX.
Proof.
  intros HB H.
  destruct (PlanWar_plans_fit _ _ _ _ _ _ _ _ _ _ H HB) as (HV & Hcap & Hmany & Hold).
  pose proof (holds_plans_le granted _ _ Hmany Hold) as Hold'.
  split; [exact HV|]. split; [exact Hcap|]. split; [exact Hmany|].
  split; [exact Hold|]. split; [exact Hold'|].
  apply (holds_plans_bound granted); [|exact Hold'].
  unfold plans_to_store. lia.
Qed.

Lemma PlanWar_plans_need_the_array_witness :
  exists plans pos',
    PlanWar_plans sample_rand grant_all 4 [trivial_vector; trivial_vector] 1 fzero 0
                  0%nat
    = Some (Ok plans, pos')
    /\ (1 <= List.length [trivial_vector; trivial_vector])%nat
    /\ Z.of_nat (List.length [trivial_vector; trivial_vector]) <= MAX_ATTACK_VECTORS
    /\ plans_to_store (List.length [trivial_vector; trivial_vector]) 1
       <= Z.of_nat (List.length plans)
    /\ holds_plans grant_all (Z.of_nat (List.length plans))
    /\ holds_plans grant_all
         (plans_to_store (List.length [trivial_vector; trivial_vector]) 1)
    /\ plans_to_store (List.length [trivial_vector; trivial_vector]) 1
       * sizeof_attack_plan <= SIZE_MAX.
Proof.
  eexists. eexists. split.
  - vm_compute. reflexivity.
  - eapply (PlanWar_plans_need_the_array sample_rand grant_all 4
              [trivial_vector; trivial_vector] 1 fzero 0 0%nat).
    + unfold UINT_MAX. lia.
    + vm_compute. reflexivity.
Defined.
